(** * Carousel optimizer: quality scoring, embedding cache, similarity and ranking

    A shallow embedding of the algorithmic core of the backend
    ([modules/quality_metrics.py], [modules/embeddings.py],
    [modules/similarity.py], [modules/recommendation_engine.py]).

    Conventions of the embedding.
    - A Python [float] is an exact rational ([Q]); numeric results are
      compared with [==] (equality of rationals), never by representation.
    - A Python [int] is a [Z]; list lengths and loop indices are [nat].
    - A raised exception is the [Raise] branch of [result]; [try/except]
      is a [match] on it.
    - A [Dict[str, _]] is a [gmap string _], a [Set[str]] a [gset string].
    - Log calls are dropped unless they can raise. *)

From Stdlib Require Import QArith Qminmax Qabs ZArith Lia Lqa.
From stdpp Require Import base option list gmap sets strings sorting.

#[local] Set Warnings "-clear-no-such-hyp".

(** ** Exceptions *)

Inductive exn : Set :=
  | ValueError
  | IndexError
  | KeyError
  | ZeroDivisionError
  | RuntimeError.

Inductive result (A : Type) : Type :=
  | Ok (a : A)
  | Raise (e : exn).
Arguments Ok {A} a.
Arguments Raise {A} e.

(** Sequencing: the first exception raised propagates ([x ← r; k]). *)
#[global] Instance result_bind : MBind result := λ A B k r,
  match r with
  | Ok a => k a
  | Raise e => Raise e
  end.

Definition is_ok {A} (r : result A) : bool :=
  match r with Ok _ => true | Raise _ => false end.

(** ** Float comparisons *)

Definition Qleb (x y : Q) : bool := Qle_bool x y.
Definition Qltb (x y : Q) : bool := negb (Qle_bool y x).

(** Python's true division [a / b]. *)
Definition truediv (a b : Q) : result Q :=
  if Qeq_bool b 0 then Raise ZeroDivisionError else Ok (a / b)%Q.

(** [x in xs] for a list of strings. *)
Definition str_in (x : string) (xs : list string) : bool :=
  bool_decide (x ∈ xs).

(** ** modules/quality_metrics.py *)

Module Quality.

(** One constructor per string literal of [_generate_suggestions]; the
    arguments are the values interpolated by the f-strings. *)
Inductive suggestion : Type :=
  | CriticalTooSmall (width height : Z)
  | LowResolutionPixelation
  | ActionRetake
  | UrgentBlurry
  | FixTripod
  | SlightBlur
  | TipFocusLock
  | ExceptionalSharpness
  | SharpAndClear
  | CriticalTooDark
  | SolutionAddLighting
  | SlightlyDark
  | WarningOverexposed
  | FixReduceExposure
  | SlightlyBright
  | PerfectLighting
  | LowContrast
  | FixContrastingBackground
  | ModerateContrast
  | ExcellentContrast
  | ResolutionLow (width height : Z)
  | ImpactLimitsZoom
  | GoodResolution (width height : Z)
  | PremiumResolution (width height : Z)
  | MegapixelImage (megapixels : Q)
  | UnusualAspectRatio (aspect_ratio : Q)
  | RecommendSquareRatio
  | ExceptionalQuality
  | MaximizesConversion
  | ProfessionalQuality
  | GoodQuality
  | AcceptableQuality
  | BelowStandard
  | LowQualityBounceRate
  | MeetsAllStandards
  | ReadyForImmediateUse
  | ProfessionalGrade.

Inductive grade : Set :=
  | EXCEPTIONAL | PROFESSIONAL | GOOD | ACCEPTABLE | POOR.

Section Methods.
Open Scope Q_scope.

(** The four constructor arguments of [QualityMetrics]. *)
Variables (blur_score brightness contrast : Q) (resolution : Z * Z).

Definition _calculate_composite_score : Q :=
  let blur_norm := Qmin (blur_score / 1000.0) 1.0 in
  let brightness_norm := 1.0 - Qabs (brightness - 128) / 128.0 in
  let contrast_norm := Qmin (contrast / 64.0) 1.0 in
  let resolution_norm :=
    Qmin (inject_Z (resolution.1 * resolution.2) / inject_Z (1920 * 1080)) 1.0 in
  let composite :=
    blur_norm * 0.4 + brightness_norm * 0.25 +
    contrast_norm * 0.25 + resolution_norm * 0.1 in
  Qmin (Qmax (composite * 100) 0) 100.

(** [_generate_flags] appends to [flags] block by block; each block of
    the source is one definition below, named after its comment. *)
Definition blur_analysis (flags : list string) : list string :=
  if Qltb blur_score 100 then flags ++ ["blurry"]
  else if Qltb blur_score 300 then flags ++ ["slightly_blurry"]
  else flags.

Definition brightness_analysis (flags : list string) : list string :=
  if Qltb brightness 50 then flags ++ ["too_dark"]
  else if Qltb brightness 80 then flags ++ ["dark"]
  else if Qltb 200 brightness then flags ++ ["too_bright"]
  else if Qltb 170 brightness then flags ++ ["bright"]
  else flags.

Definition contrast_analysis (flags : list string) : list string :=
  if Qltb contrast 20 then flags ++ ["low_contrast"]
  else if Qltb contrast 35 then flags ++ ["moderate_contrast"]
  else flags.

Definition resolution_categories (flags : list string) : list string :=
  let '(width, height) := resolution in
  if (width <? 800)%Z || (height <? 600)%Z
  then flags ++ ["inadequate_resolution"]
  else if (width <? 1200)%Z || (height <? 800)%Z
  then flags ++ ["low_resolution"]
  else if (width <? 1920)%Z || (height <? 1080)%Z
  then flags ++ ["moderate_resolution"]
  else flags.

Definition pixel_density_warnings (flags : list string) : list string :=
  let '(width, height) := resolution in
  let pixels := (width * height)%Z in
  if (pixels <? 480000)%Z then flags ++ ["very_low_pixel_count"]
  else if (pixels <? 960000)%Z then flags ++ ["low_pixel_count"]
  else flags.

Definition aspect_ratio_check (flags : list string) : list string :=
  let '(width, height) := resolution in
  let aspect_ratio :=
    if (0 <? height)%Z then inject_Z width / inject_Z height else 1 in
  if Qltb aspect_ratio 0.7 || Qltb 1.5 aspect_ratio
  then flags ++ ["unusual_aspect_ratio"]
  else flags.

Definition _generate_flags : list string :=
  let flags := [] in
  let flags := blur_analysis flags in
  let flags := brightness_analysis flags in
  let flags := contrast_analysis flags in
  let flags := resolution_categories flags in
  let flags := pixel_density_warnings flags in
  let flags := aspect_ratio_check flags in
  flags.

(** [self.flags] and [self.composite_score] as set by [__init__]
    before [_generate_suggestions] runs. *)
Variables (flags : list string) (composite_score : Q).

(** [_generate_suggestions], block by block in the same way. *)
Definition critical_issues (suggestions : list suggestion) : list suggestion :=
  let '(width, height) := resolution in
  if str_in "inadequate_resolution" flags || str_in "very_low_pixel_count" flags
  then suggestions ++
       [CriticalTooSmall width height; LowResolutionPixelation; ActionRetake]
  else suggestions.

Definition sharpness_suggestions (suggestions : list suggestion) : list suggestion :=
  if str_in "blurry" flags
  then suggestions ++ [UrgentBlurry; FixTripod]
  else if str_in "slightly_blurry" flags
  then suggestions ++ [SlightBlur; TipFocusLock]
  else if Qltb 800 blur_score then suggestions ++ [ExceptionalSharpness]
  else if Qltb 500 blur_score then suggestions ++ [SharpAndClear]
  else suggestions.

Definition lighting_suggestions (suggestions : list suggestion) : list suggestion :=
  if str_in "too_dark" flags
  then suggestions ++ [CriticalTooDark; SolutionAddLighting]
  else if str_in "dark" flags then suggestions ++ [SlightlyDark]
  else if str_in "too_bright" flags
  then suggestions ++ [WarningOverexposed; FixReduceExposure]
  else if str_in "bright" flags then suggestions ++ [SlightlyBright]
  else if Qleb 100 brightness && Qleb brightness 150
  then suggestions ++ [PerfectLighting]
  else suggestions.

Definition contrast_suggestions (suggestions : list suggestion) : list suggestion :=
  if str_in "low_contrast" flags
  then suggestions ++ [LowContrast; FixContrastingBackground]
  else if str_in "moderate_contrast" flags
  then suggestions ++ [ModerateContrast]
  else if Qltb 50 contrast then suggestions ++ [ExcellentContrast]
  else suggestions.

Definition resolution_quality (suggestions : list suggestion) : list suggestion :=
  let '(width, height) := resolution in
  if str_in "low_resolution" flags
     && negb (str_in "inadequate_resolution" flags)
  then suggestions ++ [ResolutionLow width height; ImpactLimitsZoom]
  else if str_in "moderate_resolution" flags
  then suggestions ++ [GoodResolution width height]
  else if (1920 <=? width)%Z && (1080 <=? height)%Z
  then suggestions ++ [PremiumResolution width height]
  else suggestions.

Definition pixel_density_insights (suggestions : list suggestion) : list suggestion :=
  let '(width, height) := resolution in
  let pixels := (width * height)%Z in
  if str_in "low_pixel_count" flags
  then suggestions ++ [MegapixelImage (inject_Z pixels / 1000000)]
  else suggestions.

(** The division of this block is not guarded. *)
Definition aspect_ratio_suggestions (suggestions : list suggestion)
  : result (list suggestion) :=
  let '(width, height) := resolution in
  if str_in "unusual_aspect_ratio" flags
  then aspect_ratio ← truediv (inject_Z width) (inject_Z height);
       Ok (suggestions ++ [UnusualAspectRatio aspect_ratio; RecommendSquareRatio])
  else Ok suggestions.

Definition overall_assessment (suggestions : list suggestion) : list suggestion :=
  if Qleb 90 composite_score
  then suggestions ++ [ExceptionalQuality; MaximizesConversion]
  else if Qleb 80 composite_score then suggestions ++ [ProfessionalQuality]
  else if Qleb 70 composite_score then suggestions ++ [GoodQuality]
  else if Qleb 60 composite_score then suggestions ++ [AcceptableQuality]
  else suggestions ++ [BelowStandard; LowQualityBounceRate].

Definition ecommerce_insights (suggestions : list suggestion) : list suggestion :=
  if (length suggestions <? 3)%nat && bool_decide (flags = [])
  then suggestions ++ [MeetsAllStandards; ReadyForImmediateUse; ProfessionalGrade]
  else suggestions.

Definition _generate_suggestions : result (list suggestion) :=
  let suggestions := [] in
  let suggestions := critical_issues suggestions in
  let suggestions := sharpness_suggestions suggestions in
  let suggestions := lighting_suggestions suggestions in
  let suggestions := contrast_suggestions suggestions in
  let suggestions := resolution_quality suggestions in
  let suggestions := pixel_density_insights suggestions in
  suggestions ← aspect_ratio_suggestions suggestions;
  let suggestions := overall_assessment suggestions in
  let suggestions := ecommerce_insights suggestions in
  Ok (take 8 suggestions).

(** The grade ladder of [to_dict]. *)
Definition quality_grade : grade :=
  if Qleb 90 composite_score then EXCEPTIONAL
  else if Qleb 80 composite_score then PROFESSIONAL
  else if Qleb 70 composite_score then GOOD
  else if Qleb 60 composite_score then ACCEPTABLE
  else POOR.

End Methods.

Record QualityMetrics : Type := mkQualityMetrics {
  blur_score : Q;
  brightness : Q;
  contrast : Q;
  resolution : Z * Z;
  composite_score : Q;
  flags : list string;
  suggestions : list suggestion
}.

(** [QualityMetrics.__init__] *)
Definition __init__ (blur_score brightness contrast : Q) (resolution : Z * Z)
  : result QualityMetrics :=
  let composite_score :=
    _calculate_composite_score blur_score brightness contrast resolution in
  let flags := _generate_flags blur_score brightness contrast resolution in
  suggestions ←
    _generate_suggestions blur_score brightness contrast resolution
      flags composite_score ;
  Ok (mkQualityMetrics blur_score brightness contrast resolution
        composite_score flags suggestions).

(** The derived entries of [to_dict] (rounding for display is not
    modelled). *)
Record quality_dict : Type := mkQualityDict {
  d_megapixels : Q;
  d_aspect_ratio : Q;
  d_quality_grade : grade
}.

Definition to_dict (self : QualityMetrics) : quality_dict :=
  let '(width, height) := resolution self in
  let pixels := (width * height)%Z in
  let megapixels := (inject_Z pixels / 1000000)%Q in
  let aspect_ratio :=
    if (0 <? height)%Z then (inject_Z width / inject_Z height)%Q else 1%Q in
  mkQualityDict megapixels aspect_ratio (quality_grade (composite_score self)).

(** What the image libraries report for a file.  [cv2.imread] yields
    [None] for a file it cannot load; [Image.open] raises. *)
Record image_array : Type := mkImageArray {
  shape : Z * Z;                 (* (height, width) *)
  laplacian_var : result Q;      (* cv2.Laplacian(gray).var() *)
  mean_gray : result Q;          (* np.mean(gray) *)
  std_gray : result Q            (* np.std(gray) *)
}.

Record image_file : Type := mkImageFile {
  pil_size : result (Z * Z);     (* Image.open(path).size = (width, height) *)
  cv2_imread : option image_array
}.

Section Analyzer.
(** The module-level [HAS_CV2]. *)
Variable HAS_CV2 : bool.

Definition detect_blur (a : image_array) : Q :=
  if negb HAS_CV2 then 150.0%Q
  else match laplacian_var a with Ok v => v | Raise _ => 0.0%Q end.

Definition calculate_brightness (a : image_array) : Q :=
  if negb HAS_CV2 then 128.0%Q
  else match mean_gray a with Ok v => v | Raise _ => 0.0%Q end.

Definition calculate_contrast (a : image_array) : Q :=
  if negb HAS_CV2 then 45.0%Q
  else match std_gray a with Ok v => v | Raise _ => 0.0%Q end.

Definition analyze_image_quality (image : image_file) : result QualityMetrics :=
  let body :=
    if negb HAS_CV2 then
      resolution ← pil_size image ;
      __init__ 150.0 128.0 45.0 resolution
    else
      match cv2_imread image with
      | None => Raise ValueError
      | Some a =>
          let '(height, width) := shape a in
          let resolution := (width, height) in
          let blur_score := detect_blur a in
          let brightness := calculate_brightness a in
          let contrast := calculate_contrast a in
          __init__ blur_score brightness contrast resolution
      end in
  match body with
  | Ok metrics => Ok metrics
  | Raise _ => __init__ 0.0 0.0 0.0 (0, 0)%Z
  end.

(** [analyze_images_parallel]: [asyncio.gather(..., return_exceptions=True)]
    hands back, per path, the metrics or the exception of its task; an
    exception is replaced by the all-zero metrics. *)
Fixpoint collect_metrics (results : list (result QualityMetrics))
  : result (list QualityMetrics) :=
  match results with
  | [] => Ok []
  | r :: rest =>
      metrics ← match r with
                | Raise _ => __init__ 0.0 0.0 0.0 (0, 0)%Z
                | Ok m => Ok m
                end;
      metrics_list ← collect_metrics rest;
      Ok (metrics :: metrics_list)
  end.

Definition analyze_images_parallel (images : list image_file)
  : result (list QualityMetrics) :=
  let results := analyze_image_quality <$> images in
  collect_metrics results.

(** The image at the path cannot be decoded by the library in use. *)
Definition undecodable (image : image_file) : Prop :=
  if HAS_CV2 then cv2_imread image = None
  else is_ok (pil_size image) = false.

End Analyzer.

End Quality.


(** ** modules/embeddings.py *)

Module Embeddings.

(** A one-dimensional [np.ndarray] of floats. *)
Definition ndarray : Type := list Q.

(** [np.zeros(512)] *)
Definition zeros (n : nat) : ndarray := replicate n 0%Q.

(** [list.remove(x)]: drops the first occurrence, [ValueError] if there
    is none. *)
Fixpoint list_remove (x : string) (l : list string) : result (list string) :=
  match l with
  | [] => Raise ValueError
  | y :: l' =>
      if decide (y = x) then Ok l'
      else l'' ← list_remove x l'; Ok (y :: l'')
  end.

(** [list.pop(0)] *)
Definition list_pop0 (l : list string) : result (string * list string) :=
  match l with
  | [] => Raise IndexError
  | y :: l' => Ok (y, l')
  end.

Record EmbeddingCache : Type := mkEmbeddingCache {
  max_size : Z;
  cache : gmap string ndarray;
  access_order : list string
}.

Definition set_cache (c : EmbeddingCache) (m : gmap string ndarray) :=
  mkEmbeddingCache (max_size c) m (access_order c).
Definition set_access_order (c : EmbeddingCache) (l : list string) :=
  mkEmbeddingCache (max_size c) (cache c) l.

(** [EmbeddingCache.__init__]; the default argument is [max_size_default]. *)
Definition max_size_default : Z := 100.
Definition cache_init (max_size : Z) : EmbeddingCache :=
  mkEmbeddingCache max_size ∅ [].

(** A method call on the cache object: the object as the call leaves it
    (also when it raises) and the value returned or exception raised. *)
Definition cache_get (self : EmbeddingCache) (key : string)
  : EmbeddingCache * result (option ndarray) :=
  match cache self !! key with
  | Some v =>
      match list_remove key (access_order self) with
      | Raise e => (self, Raise e)
      | Ok l => (set_access_order self (l ++ [key]), Ok (Some v))
      end
  | None => (self, Ok None)
  end.

Definition cache_put (self : EmbeddingCache) (key : string) (embedding : ndarray)
  : EmbeddingCache * result unit :=
  match cache self !! key with
  | Some _ =>
      let self := set_cache self (<[key := embedding]> (cache self)) in
      match list_remove key (access_order self) with
      | Raise e => (self, Raise e)
      | Ok l => (set_access_order self (l ++ [key]), Ok ())
      end
  | None =>
      let evicted :=
        if (max_size self <=? Z.of_nat (size (cache self)))%Z then
          match list_pop0 (access_order self) with
          | Raise e => (self, Raise e)
          | Ok (lru_key, l) =>
              let self := set_access_order self l in
              match cache self !! lru_key with
              | None => (self, Raise KeyError)
              | Some _ => (set_cache self (delete lru_key (cache self)), Ok ())
              end
          end
        else (self, Ok ()) in
      match evicted with
      | (self, Raise e) => (self, Raise e)
      | (self, Ok _) =>
          let self := set_cache self (<[key := embedding]> (cache self)) in
          (set_access_order self (access_order self ++ [key]), Ok ())
      end
  end.

Definition cache_clear (self : EmbeddingCache) : EmbeddingCache :=
  mkEmbeddingCache (max_size self) ∅ [].

(** The calls a client can make on a cache object. *)
Inductive cache_op : Type :=
  | OpGet (key : string)
  | OpPut (key : string) (embedding : ndarray)
  | OpClear.

Definition cache_step (self : EmbeddingCache) (op : cache_op) : EmbeddingCache :=
  match op with
  | OpGet key => (cache_get self key).1
  | OpPut key embedding => (cache_put self key embedding).1
  | OpClear => cache_clear self
  end.

(** The cache after a sequence of calls on a fresh object. *)
Definition cache_run (max_size : Z) (ops : list cache_op) : EmbeddingCache :=
  foldl cache_step (cache_init max_size) ops.

Section Generator.
(** The module-level [HAS_ML_DEPS]. *)
Variable HAS_ML_DEPS : bool.

(** The collaborators of [EmbeddingGenerator]:
    - [clip_model]: a loaded model; [create_model]: the outcome of
      [open_clip.create_model_and_transforms] and [get_tokenizer];
    - [_get_image_hash]: the content fingerprint of the file at a path
      (it never raises: it falls back to the path itself);
    - [mock_vector h]: the vector drawn by [np.random.normal] after
      seeding with [hash(h) % 2**32], divided by its norm;
    - [load_image]: [Image.open(path).convert('RGB')] and [preprocess];
    - [encode_image m batch]: [m.encode_image] on the stacked batch,
      every row divided by its norm. *)
Variable clip_model : Type.
Variable create_model : result clip_model.
Variable _get_image_hash : string → string.
Variable mock_vector : string → ndarray.
Variable tensor : Type.
Variable load_image : string → result tensor.
Variable encode_image : clip_model → list tensor → result (list ndarray).

Record EmbeddingGenerator : Type := mkEmbeddingGenerator {
  model : option clip_model;
  gen_cache : EmbeddingCache
}.

Definition with_cache (self : EmbeddingGenerator) (c : EmbeddingCache) :=
  mkEmbeddingGenerator (model self) c.

(** [EmbeddingGenerator.__init__] *)
Definition generator_init : EmbeddingGenerator :=
  mkEmbeddingGenerator None (cache_init 100).

Definition initialize (self : EmbeddingGenerator)
  : EmbeddingGenerator * result unit :=
  if negb HAS_ML_DEPS then (self, Ok ())
  else
    match create_model with
    | Ok m => (mkEmbeddingGenerator (Some m) (gen_cache self), Ok ())
    | Raise _ => (self, Raise RuntimeError)
    end.

Definition generate_embedding (self : EmbeddingGenerator) (image_path : string)
  : EmbeddingGenerator * result ndarray :=
  if negb HAS_ML_DEPS then
    let image_hash := _get_image_hash image_path in
    (self, Ok (mock_vector image_hash))
  else
    match model self with
    | None => (self, Raise RuntimeError)
    | Some m =>
        let image_hash := _get_image_hash image_path in
        match cache_get (gen_cache self) image_hash with
        | (c, Raise e) => (with_cache self c, Raise e)
        | (c, Ok (Some cached_embedding)) =>
            (with_cache self c, Ok cached_embedding)
        | (c, Ok None) =>
            (* try: ... except Exception: return np.zeros(512) *)
            match (image_tensor ← load_image image_path;
                   rows ← encode_image m [image_tensor];
                   Ok (concat rows)) with
            | Raise _ => (with_cache self c, Ok (zeros 512))
            | Ok embedding_np =>
                match cache_put c image_hash embedding_np with
                | (c', Raise _) => (with_cache self c', Ok (zeros 512))
                | (c', Ok _) => (with_cache self c', Ok embedding_np)
                end
            end
        end
    end.

(** First loop of [generate_embeddings_batch]: probe the cache for
    every path.  The accumulator is
    [(cache, embeddings, uncached_paths, uncached_indices)]. *)
Fixpoint probe_cache (c : EmbeddingCache) (i : nat) (image_paths : list string)
    (embeddings : list (option ndarray))
    (uncached_paths : list string) (uncached_indices : list nat)
  : EmbeddingCache *
    result (list (option ndarray) * list string * list nat) :=
  match image_paths with
  | [] => (c, Ok (embeddings, uncached_paths, uncached_indices))
  | image_path :: rest =>
      match cache_get c (_get_image_hash image_path) with
      | (c', Raise e) => (c', Raise e)
      | (c', Ok (Some cached_embedding)) =>
          probe_cache c' (S i) rest (embeddings ++ [Some cached_embedding])
            uncached_paths uncached_indices
      | (c', Ok None) =>
          probe_cache c' (S i) rest (embeddings ++ [None])
            (uncached_paths ++ [image_path]) (uncached_indices ++ [i])
      end
  end.

(** Second loop: load every uncached image, skipping those that fail. *)
Fixpoint load_uncached (i : nat) (uncached_paths : list string)
    (images : list tensor) (valid_indices : list nat)
  : list tensor * list nat :=
  match uncached_paths with
  | [] => (images, valid_indices)
  | path :: rest =>
      match load_image path with
      | Ok t => load_uncached (S i) rest (images ++ [t]) (valid_indices ++ [i])
      | Raise _ => load_uncached (S i) rest images valid_indices
      end
  end.

Definition index {A} (l : list A) (i : nat) : result A :=
  match l !! i with Some x => Ok x | None => Raise IndexError end.

(** Third loop: store the batch results and cache them. *)
Fixpoint store_results (c : EmbeddingCache) (i : nat)
    (batch_embeddings_np : list ndarray)
    (valid_indices uncached_indices : list nat) (uncached_paths : list string)
    (embeddings : list (option ndarray))
  : EmbeddingCache * list (option ndarray) * result unit :=
  match batch_embeddings_np with
  | [] => (c, embeddings, Ok ())
  | embedding_np :: rest =>
      if decide (i < length valid_indices)%nat then
        match (path_idx ← index valid_indices i;
               original_idx ← index uncached_indices path_idx;
               _ ← index embeddings original_idx;
               path ← index uncached_paths path_idx;
               Ok (original_idx, path)) with
        | Raise e => (c, embeddings, Raise e)
        | Ok (original_idx, path) =>
            let embeddings := <[original_idx := Some embedding_np]> embeddings in
            match cache_put c (_get_image_hash path) embedding_np with
            | (c', Raise e) => (c', embeddings, Raise e)
            | (c', Ok _) =>
                store_results c' (S i) rest valid_indices uncached_indices
                  uncached_paths embeddings
            end
        end
      else
        store_results c (S i) rest valid_indices uncached_indices
          uncached_paths embeddings
  end.

(** Both the end of the [try] block and its handler replace every
    remaining placeholder by a zero vector. *)
Definition fill_zeros (embeddings : list (option ndarray)) : list ndarray :=
  (λ e, default (zeros 512) e) <$> embeddings.

Definition generate_embeddings_batch (self : EmbeddingGenerator)
    (image_paths : list string)
  : EmbeddingGenerator * result (list ndarray) :=
  match model self with
  | None => (self, Raise RuntimeError)
  | Some m =>
      match probe_cache (gen_cache self) 0 image_paths [] [] [] with
      | (c, Raise e) => (with_cache self c, Raise e)
      | (c, Ok (embeddings, uncached_paths, uncached_indices)) =>
          match uncached_paths with
          | [] => (with_cache self c, Ok (fill_zeros embeddings))
          | _ :: _ =>
              let '(images, valid_indices) :=
                load_uncached 0 uncached_paths [] [] in
              match images with
              | [] => (with_cache self c, Ok (fill_zeros embeddings))
              | _ :: _ =>
                  match encode_image m images with
                  | Raise _ => (with_cache self c, Ok (fill_zeros embeddings))
                  | Ok batch_embeddings_np =>
                      let '(c', embeddings, _) :=
                        store_results c 0 batch_embeddings_np valid_indices
                          uncached_indices uncached_paths embeddings in
                      (with_cache self c', Ok (fill_zeros embeddings))
                  end
              end
          end
      end
  end.

(** [get_cache_stats]: cache size, capacity and the constant hit rate. *)
Record cache_stats : Type := mkCacheStats {
  stat_cache_size : nat;
  stat_max_size : Z;
  stat_hit_rate : Q
}.

Definition get_cache_stats (self : EmbeddingGenerator) : cache_stats :=
  mkCacheStats (size (cache (gen_cache self))) (max_size (gen_cache self)) 0.0.

Definition clear_cache (self : EmbeddingGenerator) : EmbeddingGenerator :=
  with_cache self (cache_clear (gen_cache self)).

End Generator.

End Embeddings.

(** ** modules/similarity.py *)

Module Similarity.

Import Embeddings.

(** A two-dimensional [np.ndarray]; [np.array([])] is the empty list. *)
Definition matrix : Type := list (list Q).

(** [m[i, j]] *)
Definition matrix_get (m : matrix) (i j : nat) : result Q :=
  match m !! i with
  | Some row =>
      match row !! j with
      | Some x => Ok x
      | None => Raise IndexError
      end
  | None => Raise IndexError
  end.

(** [np.eye(n)] *)
Definition eye (n : nat) : matrix :=
  (λ i, (λ j, if decide (i = j) then 1%Q else 0%Q) <$> seq 0 n) <$> seq 0 n.

(** One entry of [SimilarityResult.duplicates]. *)
Record duplicate : Type := mkDuplicate {
  image_a : string;
  image_b : string;
  similarity : Q
}.

(** [for x in xs: acc = body(x, acc)], stopping at the first exception. *)
Fixpoint for_each {A S} (xs : list A) (body : A → S → result S) (acc : S)
  : result S :=
  match xs with
  | [] => Ok acc
  | x :: xs' => acc' ← body x acc; for_each xs' body acc'
  end.

(** [range(a, b)] *)
Definition range (a b : nat) : list nat := seq a (b - a).

Section FindDuplicates.
Variables (similarity_matrix : matrix) (image_ids : list string).

Definition _find_duplicates (threshold : Q) : result (list duplicate) :=
  let n_images := length image_ids in
  for_each (range 0 n_images) (λ i duplicates,
    for_each (range (i + 1) n_images) (λ j duplicates,
      similarity ← matrix_get similarity_matrix i j;
      if Qltb threshold similarity then
        a ← index image_ids i;
        b ← index image_ids j;
        Ok (duplicates ++ [mkDuplicate a b similarity])
      else Ok duplicates) duplicates) [].
End FindDuplicates.

Record SimilarityResult : Type := mkSimilarityResult {
  similarity_matrix : matrix;
  image_ids : list string;
  duplicates : list duplicate
}.

(** [SimilarityResult.__init__]: the duplicates at the default threshold. *)
Definition result_init (m : matrix) (ids : list string) : result SimilarityResult :=
  duplicates ← _find_duplicates m ids 0.92%Q;
  Ok (mkSimilarityResult m ids duplicates).

(** [list.index(x)] *)
Fixpoint list_index (x : string) (l : list string) : result nat :=
  match l with
  | [] => Raise ValueError
  | y :: l' => if decide (y = x) then Ok 0%nat else i ← list_index x l'; Ok (S i)
  end.

Definition get_similarity (self : SimilarityResult) (image_a_id image_b_id : string)
  : result Q :=
  match (idx_a ← list_index image_a_id (image_ids self);
         idx_b ← list_index image_b_id (image_ids self);
         matrix_get (similarity_matrix self) idx_a idx_b) with
  | Raise ValueError => Ok 0.0%Q
  | r => r
  end.

Definition get_duplicate_ids (self : SimilarityResult) : gset string :=
  foldl (λ duplicate_ids dup, duplicate_ids ∪ {[image_a dup]} ∪ {[image_b dup]})
        ∅ (duplicates self).

Section Analyzer.
(** [sklearn]'s [cosine_similarity] applied to [np.stack(embeddings)]. *)
Variable cosine_similarity : list ndarray → result matrix.

(** The log call after the computation takes [np.max] of the entries
    below 1.0, which raises on an empty selection. *)
Definition log_max_below_one (m : matrix) : result unit :=
  if existsb (existsb (λ x, Qltb x 1.0%Q)) m then Ok () else Raise ValueError.

Definition compute_similarity_matrix (embeddings : list ndarray) : matrix :=
  match embeddings with
  | [] => []
  | _ :: _ =>
      match (similarity_matrix ← cosine_similarity embeddings;
             _ ← log_max_below_one similarity_matrix;
             Ok similarity_matrix) with
      | Ok m => m
      | Raise _ => eye (length embeddings)
      end
  end.

Definition analyze_similarity (embeddings : list ndarray)
    (image_ids : list string) (duplicate_threshold : Q)
  : result SimilarityResult :=
  if negb (length embeddings =? length image_ids)%nat then Raise ValueError
  else
    match embeddings with
    | [] => result_init [] []
    | _ :: _ =>
        let similarity_matrix := compute_similarity_matrix embeddings in
        result ← result_init similarity_matrix image_ids;
        if negb (Qeq_bool duplicate_threshold 0.92%Q) then
          duplicates ← _find_duplicates similarity_matrix image_ids
                         duplicate_threshold;
          Ok (mkSimilarityResult similarity_matrix image_ids duplicates)
        else Ok result
    end.
End Analyzer.

(** [np.max] of a non-empty array. *)
Definition np_max (x : Q) (xs : list Q) : Q := foldl Qmax x xs.

(** The body raises nothing but [ValueError] (from [index]) and
    [IndexError] (from the row lookup), and both are handled. *)
Definition get_redundancy_score (image_id : string) (result : SimilarityResult)
  : Q :=
  match (idx ← list_index image_id (image_ids result);
         similarities ← index (similarity_matrix result) idx;
         let other_similarities :=
           take idx similarities ++ drop (idx + 1) similarities in
         match other_similarities with
         | [] => Ok 0.0%Q
         | x :: xs => Ok (np_max x xs)
         end) with
  | Ok redundancy => redundancy
  | Raise _ => 0.0%Q
  end.

Definition get_diversity_score (image_id : string) (selected_ids : list string)
    (result : SimilarityResult) : Q :=
  match selected_ids with
  | [] => 1.0%Q
  | _ :: _ =>
      match for_each selected_ids (λ selected_id max_similarity,
              similarity ← get_similarity result image_id selected_id;
              Ok (Qmax max_similarity similarity)) 0.0%Q with
      | Ok max_similarity => (1.0 - max_similarity)%Q
      | Raise _ => 0.0%Q
      end
  end.

End Similarity.

(** ** modules/recommendation_engine.py *)

Module Engine.

Import Embeddings Similarity.

Record ImageData : Type := mkImageData {
  id : string;
  filename : string;
  path : string;
  quality_metrics : Quality.QualityMetrics;
  embedding : option ndarray
}.

(** One constructor per phrase of the reason strings; a reason is the
    list of its phrases (joined by a bullet in the source), the hero's
    carrying the prefix [Hero:]. *)
Inductive phrase : Set :=
  | PremiumQuality | StrongQuality | GoodQuality | AcceptableQuality
  | UniqueAngle | GoodVariety | SimilarPerspective | VerySimilar
  | SharpDetails | HighRes | DuplicateDetected
  | HeroPremiumQuality | HeroExcellentQuality | HeroStrongQuality
  | HeroGoodQuality | HeroAcceptableQuality
  | CrystalClearFocus | OptimalLighting | VibrantContrast
  | PremiumResolution | HighResolution | UniquePerspective
  | MaximizesConversion | BestAvailable.

Inductive reason_text : Set :=
  | Reason (parts : list phrase)
  | HeroReason (parts : list phrase).

Record RecommendationItem : Type := mkRecommendationItem {
  position : nat;
  image_id : string;
  score : Q;
  reason : reason_text;
  is_hero : bool
}.

Record RecommendationResult : Type := mkRecommendationResult {
  recommendations : list RecommendationItem;
  similarity_result : SimilarityResult;
  hero_image : option RecommendationItem
}.

(** [RecommendationResult.__init__] *)
Definition recommendation_result (recommendations : list RecommendationItem)
    (similarity_result : SimilarityResult) : RecommendationResult :=
  mkRecommendationResult recommendations similarity_result
    (head (filter (λ r, is_hero r = true) recommendations)).

Record CarouselRecommendationEngine : Type := mkEngine {
  quality_weight : Q;
  diversity_weight : Q;
  duplicate_penalty : Q
}.

(** [CarouselRecommendationEngine.__init__] *)
Definition engine_init : CarouselRecommendationEngine :=
  mkEngine 0.6 0.4 0.3.

(** [max(xs, key=...)]: the first element whose key no other exceeds. *)
Fixpoint max_from {A} (key : A → Q) (best : A) (xs : list A) : A :=
  match xs with
  | [] => best
  | x :: xs' => max_from key (if Qltb (key best) (key x) then x else best) xs'
  end.

Definition py_max {A} (key : A → Q) (xs : list A) : result A :=
  match xs with
  | [] => Raise ValueError
  | x :: xs' => Ok (max_from key x xs')
  end.

(** [sorted(xs, key=..., reverse=True)]: descending and stable. *)
Fixpoint insert_desc {A} (key : A → Q) (x : A) (sorted : list A) : list A :=
  match sorted with
  | [] => [x]
  | y :: ys =>
      if Qltb (key x) (key y) then y :: insert_desc key x ys
      else x :: y :: ys
  end.

Definition sorted_desc {A} (key : A → Q) (xs : list A) : list A :=
  foldr (insert_desc key) [] xs.

(** The score computed for one image in the loop of
    [_select_hero_image]. *)
Definition hero_score (duplicate_ids : gset string) (image : ImageData) : Q :=
  let quality_score := Quality.composite_score (quality_metrics image) in
  let quality_score :=
    if bool_decide (id image ∈ duplicate_ids)
    then (quality_score * 0.2)%Q else quality_score in
  let '(width, height) := Quality.resolution (quality_metrics image) in
  let quality_score :=
    if (1200 <=? width)%Z && (800 <=? height)%Z
    then (quality_score * 1.1)%Q else quality_score in
  quality_score.

Definition _select_hero_image (images : list ImageData)
    (duplicate_ids : gset string) : result ImageData :=
  let scored_images := (λ image, (image, hero_score duplicate_ids image)) <$> images in
  '(hero_image, hero_score) ← py_max snd scored_images;
  Ok hero_image.

Definition _get_hero_reason (hero_image : ImageData) (duplicate_ids : gset string)
  : list phrase :=
  let m := quality_metrics hero_image in
  let quality := Quality.composite_score m in
  let reasons :=
    if Qleb 90 quality then [HeroPremiumQuality]
    else if Qleb 80 quality then [HeroExcellentQuality]
    else if Qleb 70 quality then [HeroStrongQuality]
    else if Qleb 60 quality then [HeroGoodQuality]
    else [HeroAcceptableQuality] in
  let reasons :=
    if Qltb 500 (Quality.blur_score m) then reasons ++ [CrystalClearFocus]
    else reasons in
  let reasons :=
    if Qleb 110 (Quality.brightness m) && Qleb (Quality.brightness m) 145
    then reasons ++ [OptimalLighting] else reasons in
  let reasons :=
    if Qltb 50 (Quality.contrast m) then reasons ++ [VibrantContrast]
    else reasons in
  let '(width, height) := Quality.resolution m in
  let reasons :=
    if (1920 <=? width)%Z && (1080 <=? height)%Z
    then reasons ++ [PremiumResolution]
    else if (1200 <=? width)%Z && (800 <=? height)%Z
    then reasons ++ [HighResolution]
    else reasons in
  let reasons :=
    if bool_decide (id hero_image ∉ duplicate_ids)
    then reasons ++ [UniquePerspective] else reasons in
  let reasons :=
    if Qleb 85 quality && Qltb 500 (Quality.blur_score m)
    then reasons ++ [MaximizesConversion] else reasons in
  match reasons with
  | [] => [BestAvailable]
  | _ :: _ => reasons
  end.

Section Ranking.
Variable self : CarouselRecommendationEngine.

(** The body of the loop of [_rank_remaining_images]. *)
Definition rank_one (selected_ids : list string)
    (similarity_result : SimilarityResult) (duplicate_ids : gset string)
    (image : ImageData) : ImageData * Q * reason_text :=
  let m := quality_metrics image in
  let quality_score := (Quality.composite_score m / 100.0)%Q in
  let diversity_score :=
    get_diversity_score (id image) selected_ids similarity_result in
  let combined_score :=
    (quality_weight self * quality_score +
     diversity_weight self * diversity_score)%Q in
  let is_duplicate := bool_decide (id image ∈ duplicate_ids) in
  let combined_score :=
    if is_duplicate then (combined_score * duplicate_penalty self)%Q
    else combined_score in
  let reason_parts :=
    if Qleb 0.85 quality_score then [PremiumQuality]
    else if Qleb 0.70 quality_score then [StrongQuality]
    else if Qleb 0.60 quality_score then [GoodQuality]
    else [AcceptableQuality] in
  let reason_parts :=
    if Qltb 0.75 diversity_score then reason_parts ++ [UniqueAngle]
    else if Qltb 0.5 diversity_score then reason_parts ++ [GoodVariety]
    else if Qltb 0.3 diversity_score then reason_parts ++ [SimilarPerspective]
    else reason_parts ++ [VerySimilar] in
  let reason_parts :=
    if Qltb 500 (Quality.blur_score m) then reason_parts ++ [SharpDetails]
    else reason_parts in
  let reason_parts :=
    if (1920 <=? (Quality.resolution m).1)%Z then reason_parts ++ [HighRes]
    else reason_parts in
  let reason_parts :=
    if is_duplicate then reason_parts ++ [DuplicateDetected]
    else reason_parts in
  (image, (combined_score * 100)%Q, Reason reason_parts).

Definition _rank_remaining_images (images selected_images : list ImageData)
    (similarity_result : SimilarityResult) (duplicate_ids : gset string)
  : list (ImageData * Q * reason_text) :=
  let selected_ids := id <$> selected_images in
  let scored_images :=
    rank_one selected_ids similarity_result duplicate_ids <$> images in
  sorted_desc (λ x, x.1.2) scored_images.

Section Generate.
Variable cosine_similarity : list ndarray → result matrix.

Definition generate_recommendations (images : list ImageData)
    (embeddings : list ndarray) (duplicate_threshold : Q)
  : result RecommendationResult :=
  match images with
  | [] =>
      similarity_result ← result_init [] [];
      Ok (recommendation_result [] similarity_result)
  | _ :: _ =>
      let image_ids := id <$> images in
      similarity_result ←
        analyze_similarity cosine_similarity embeddings image_ids
          duplicate_threshold;
      let duplicate_ids := get_duplicate_ids similarity_result in
      hero_image ← _select_hero_image images duplicate_ids;
      let remaining_images :=
        filter (λ img, id img ≠ id hero_image) images in
      let ranked_images :=
        _rank_remaining_images remaining_images [hero_image]
          similarity_result duplicate_ids in
      let recommendations :=
        [mkRecommendationItem 1 (id hero_image)
           (Quality.composite_score (quality_metrics hero_image))
           (HeroReason (_get_hero_reason hero_image duplicate_ids))
           true] in
      let recommendations :=
        recommendations ++
        imap (λ i '(image, score, reason),
                mkRecommendationItem (2 + i) (id image) score reason false)
             ranked_images in
      Ok (recommendation_result recommendations similarity_result)
  end.
End Generate.

(** The guard is evaluated on exact rationals.  A sum more than 0.01
    away from 1.0 raises here and in floating point alike; a sum that
    lies on the tolerance, or within a rounding error of it, can raise
    in floating point although the exact comparison lets it pass. *)
Definition update_weights (quality_weight diversity_weight : Q)
  : result CarouselRecommendationEngine :=
  if Qltb 0.01 (Qabs (quality_weight + diversity_weight - 1.0))
  then Raise ValueError
  else Ok (mkEngine quality_weight diversity_weight (duplicate_penalty self)).

Definition set_duplicate_penalty (penalty : Q)
  : result CarouselRecommendationEngine :=
  if negb (Qleb 0 penalty && Qleb penalty 1)
  then Raise ValueError
  else Ok (mkEngine (quality_weight self) (diversity_weight self) penalty).
End Ranking.

End Engine.

(** ** Specification-level definitions *)

Module Spec.

(** [x] limited to the interval [[lo, hi]]. *)
Definition clamp (lo hi x : Q) : Q :=
  if Qltb x lo then lo else if Qltb hi x then hi else x.

(** The composite score as the specification words it: the weighted sum
    of the four normalised measurements, scaled to [[0, 100]] and
    clamped. *)
Definition composite_score_spec (sharpness brightness contrast : Q)
    (width height : Z) : Q :=
  clamp 0 100
    (100 * (0.4 * Qmin (sharpness / 1000) 1
            + 0.25 * (1 - Qabs (brightness - 128) / 128)
            + 0.25 * Qmin (contrast / 64) 1
            + 0.1 * Qmin (inject_Z (width * height) / inject_Z (1920 * 1080)) 1))%Q.

(** The two halves of the cache agree: [access_order] lists the keys of
    [cache], each once. *)
Definition cache_wf (c : Embeddings.EmbeddingCache) : Prop :=
  NoDup (Embeddings.access_order c)
  ∧ dom (Embeddings.cache c) = list_to_set (Embeddings.access_order c).

(** The key a call counts as a use of: the key of a [get] that hits or of
    a [put] that returns. *)
Definition touched (c : Embeddings.EmbeddingCache) (op : Embeddings.cache_op)
  : option string :=
  match op with
  | Embeddings.OpGet key =>
      match Embeddings.cache c !! key with Some _ => Some key | None => None end
  | Embeddings.OpPut key embedding =>
      if is_ok (Embeddings.cache_put c key embedding).2 then Some key else None
  | Embeddings.OpClear => None
  end.

(** A run that also records, in order, the keys used since the cache was
    last cleared. *)
Definition log_step (st : Embeddings.EmbeddingCache * list string)
    (op : Embeddings.cache_op) : Embeddings.EmbeddingCache * list string :=
  (Embeddings.cache_step st.1 op,
   match op with
   | Embeddings.OpClear => []
   | _ => st.2 ++ option_list (touched st.1 op)
   end).

Definition cache_run_log (max_size : Z) (ops : list Embeddings.cache_op)
  : Embeddings.EmbeddingCache * list string :=
  foldl log_step (Embeddings.cache_init max_size, []) ops.

(** In [log], the last use of [k1] is followed by a use of [k2]. *)
Definition used_before (log : list string) (k1 k2 : string) : Prop :=
  ∃ l1 l2, log = l1 ++ k1 :: l2 ∧ (k1 ∉ l2) ∧ k2 ∈ l2.

(** [access_order] lists the cached keys by their last use. *)
Definition lru_order (c : Embeddings.EmbeddingCache) (log : list string) : Prop :=
  Embeddings.access_order c
  = filter (λ k, k ∈ dom (Embeddings.cache c)) (remove_dups log).

(** An [n] by [n] matrix. *)
Definition square (n : nat) (m : Similarity.matrix) : Prop :=
  length m = n ∧ Forall (λ row, length row = n) m.

(** What the loop body of [_find_duplicates] appends for the pair
    [(i, j)]. *)
Definition duplicate_at (m : Similarity.matrix) (ids : list string)
    (threshold : Q) (i j : nat) : list Similarity.duplicate :=
  match Similarity.matrix_get m i j, ids !! i, ids !! j with
  | Ok s, Some a, Some b =>
      if Qltb threshold s then [Similarity.mkDuplicate a b s] else []
  | _, _, _ => []
  end.

(** An image record with a given id and composite score, for examples. *)
Definition sample_image (name : string) (score : Q) : Engine.ImageData :=
  Engine.mkImageData name name name
    (Quality.mkQualityMetrics 0 0 0 (800, 600)%Z score [] []) None.

(** The cosine similarities of unit vectors: their dot products. *)
Definition dot (a b : Embeddings.ndarray) : Q :=
  foldr Qplus 0%Q (zip_with Qmult a b).

Definition dot_products (es : list Embeddings.ndarray)
  : result Similarity.matrix :=
  Ok ((λ a, dot a <$> es) <$> es).

End Spec.

(** ** Further specification-level definitions *)

Module Invariants.

(** A cache in a consistent state, with room for at least one entry and
    not over capacity. *)
Definition cache_ok (c : Embeddings.EmbeddingCache) : Prop :=
  Spec.cache_wf c
  ∧ (1 <= Embeddings.max_size c)%Z
  ∧ (Z.of_nat (size (Embeddings.cache c)) <= Embeddings.max_size c)%Z.

Section BatchSpec.
(** The collaborators of the generator and the entries stored in its
    cache when a batch is requested. *)
Variable _get_image_hash : string → string.
Variable tensor : Type.
Variable load_image : string → result tensor.
Variable stored : gmap string Embeddings.ndarray.

Definition cached (p : string) : option Embeddings.ndarray :=
  stored !! _get_image_hash p.

(** The paths that miss the cache, each with its index, counting from [o]. *)
Fixpoint uncached_from (o : nat) (ps : list string) : list (nat * string) :=
  match ps with
  | [] => []
  | p :: ps' =>
      match cached p with
      | Some _ => uncached_from (S o) ps'
      | None => (o, p) :: uncached_from (S o) ps'
      end
  end.

(** The indices, counting from [u], of the paths that load. *)
Fixpoint valid_from (u : nat) (us : list string) : list nat :=
  match us with
  | [] => []
  | p :: us' =>
      if is_ok (load_image p) then u :: valid_from (S u) us'
      else valid_from (S u) us'
  end.

(** The tensors of the paths that load, in order. *)
Fixpoint loaded (us : list string) : list tensor :=
  match us with
  | [] => []
  | p :: us' =>
      match load_image p with
      | Ok t => t :: loaded us'
      | Raise _ => loaded us'
      end
  end.

(** The indices, counting from [o], of the paths that miss the cache and
    load. *)
Fixpoint holes_from (o : nat) (ps : list string) : list nat :=
  match ps with
  | [] => []
  | p :: ps' =>
      match cached p with
      | Some _ => holes_from (S o) ps'
      | None =>
          if is_ok (load_image p) then o :: holes_from (S o) ps'
          else holes_from (S o) ps'
      end
  end.

(** Writing [rows] at the positions [holes], one after the other. *)
Definition scatter (holes : list nat) (rows : list Embeddings.ndarray)
    (embeddings : list (option Embeddings.ndarray))
  : list (option Embeddings.ndarray) :=
  foldl (λ e hr, <[hr.1 := Some hr.2]> e) embeddings (zip holes rows).

(** The batch result, path by path: the cached vector for a hit, the zero
    vector for a miss that does not load (or for which no row is left),
    and otherwise the next row of the model's output. *)
Fixpoint batch_merge (ps : list string) (rows : list Embeddings.ndarray)
  : list Embeddings.ndarray :=
  match ps with
  | [] => []
  | p :: ps' =>
      match cached p with
      | Some e => e :: batch_merge ps' rows
      | None =>
          match load_image p, rows with
          | Ok _, row :: rows' => row :: batch_merge ps' rows'
          | Ok _, [] => Embeddings.zeros 512 :: batch_merge ps' []
          | Raise _, _ => Embeddings.zeros 512 :: batch_merge ps' rows
          end
      end
  end.

End BatchSpec.

(** A stand-in model for examples: every file but ["bad.jpg"] loads,
    and every image is encoded as the vector (1, 0). *)
Definition sample_load (p : string) : result unit :=
  if String.eqb p "bad.jpg" then Raise ValueError else Ok ().

Definition sample_encode (m : unit) (batch : list unit)
  : result (list Embeddings.ndarray) :=
  Ok ((λ _, [1%Q; 0%Q]) <$> batch).

Definition sample_generator : Embeddings.EmbeddingGenerator unit :=
  Embeddings.mkEmbeddingGenerator unit (Some ()) (Embeddings.cache_init 100).

(** The engines a caller can reach from a new engine through
    [update_weights] and [set_duplicate_penalty]; a call that raises
    assigns nothing. *)
Inductive configured : Engine.CarouselRecommendationEngine → Prop :=
  | configured_init : configured Engine.engine_init
  | configured_weights self quality_weight diversity_weight self' :
      configured self →
      Engine.update_weights self quality_weight diversity_weight = Ok self' →
      configured self'
  | configured_penalty self penalty self' :
      configured self →
      Engine.set_duplicate_penalty self penalty = Ok self' →
      configured self'.

(** The opening phrases of a hero reason. *)
Definition hero_quality_phrases : list Engine.phrase :=
  [Engine.HeroPremiumQuality; Engine.HeroExcellentQuality;
   Engine.HeroStrongQuality; Engine.HeroGoodQuality;
   Engine.HeroAcceptableQuality].

(** The score key of an entry of [_rank_remaining_images]'s result. *)
Definition ranked_score (x : Engine.ImageData * Q * Engine.reason_text) : Q :=
  x.1.2.

End Invariants.

(** * Properties *)

(** ** Comparisons on rationals *)

Lemma Qleb_le x y : Qleb x y = true ↔ (x <= y)%Q.
Proof. apply Qle_bool_iff. Qed.

Lemma Qltb_lt x y : Qltb x y = true ↔ (x < y)%Q.
Proof.
  unfold Qltb. rewrite negb_true_iff. split.
  - intros H. apply Qnot_le_lt. intros Hle.
    apply Qle_bool_iff in Hle. congruence.
  - intros H. destruct (Qle_bool y x) eqn:E; [|done].
    apply Qle_bool_iff in E. exfalso. eapply Qlt_not_le; eauto.
Qed.

Lemma Qltb_ge x y : Qltb x y = false ↔ (y <= x)%Q.
Proof.
  unfold Qltb. rewrite negb_false_iff. apply Qle_bool_iff.
Qed.

#[global] Instance Qleb_proper : Proper (Qeq ==> Qeq ==> eq) Qleb.
Proof.
  intros x x' Hx y y' Hy. unfold Qleb.
  destruct (Qle_bool x y) eqn:E, (Qle_bool x' y') eqn:E'; try done.
  - apply Qle_bool_iff in E. rewrite Hx, Hy in E.
    apply Qle_bool_iff in E. congruence.
  - apply Qle_bool_iff in E'. rewrite <- Hx, <- Hy in E'.
    apply Qle_bool_iff in E'. congruence.
Qed.

#[global] Instance Qltb_proper : Proper (Qeq ==> Qeq ==> eq) Qltb.
Proof.
  intros x x' Hx y y' Hy. unfold Qltb.
  f_equal. apply Qleb_proper; done.
Qed.

Lemma Qleb_gt x y : Qleb x y = false ↔ (y < x)%Q.
Proof.
  unfold Qleb. split.
  - intros H. apply Qnot_le_lt. intros Hle.
    apply Qle_bool_iff in Hle. congruence.
  - intros H. destruct (Qle_bool x y) eqn:E; [|done].
    apply Qle_bool_iff in E. exfalso. eapply Qlt_not_le; eauto.
Qed.

Lemma clamp_min_max x : (Qmin (Qmax x 0) 100 == Spec.clamp 0 100 x)%Q.
Proof.
  unfold Spec.clamp.
  destruct (Qltb x 0) eqn:E0.
  - apply Qltb_lt in E0.
    rewrite Q.max_r by lra. apply Q.min_l. lra.
  - apply Qltb_ge in E0. rewrite Q.max_l by lra.
    destruct (Qltb 100 x) eqn:E1.
    + apply Qltb_lt in E1. apply Q.min_r. lra.
    + apply Qltb_ge in E1. apply Q.min_l. lra.
Qed.

#[global] Instance clamp_proper : Proper (Qeq ==> Qeq ==> Qeq ==> Qeq) Spec.clamp.
Proof.
  intros lo lo' Hlo hi hi' Hhi x x' Hx. unfold Spec.clamp.
  rewrite (Qltb_proper _ _ Hx _ _ Hlo), (Qltb_proper _ _ Hhi _ _ Hx).
  destruct (Qltb x' lo'); [done|]. destruct (Qltb hi' x'); done.
Qed.

Lemma clamp_bounds lo hi x : (lo <= hi → lo <= Spec.clamp lo hi x <= hi)%Q.
Proof.
  intros Hle. unfold Spec.clamp.
  destruct (Qltb x lo) eqn:E0; [lra|]. apply Qltb_ge in E0.
  destruct (Qltb hi x) eqn:E1; [lra|]. apply Qltb_ge in E1. lra.
Qed.

(** ** Lists *)

Lemma filter_Forall_id {A} (P : A → Prop) `{!∀ x, Decision (P x)} (l : list A) :
  Forall P l → filter P l = l.
Proof.
  induction 1 as [|x l Hx _ IH]; [done|].
  rewrite filter_cons_True by done. by rewrite IH.
Qed.

(** ** Quality metrics *)

Section QualityFacts.
Import Quality.
Open Scope Q_scope.

Lemma composite_score_refines s b c w h :
  _calculate_composite_score s b c (w, h)
  == Spec.composite_score_spec s b c w h.
Proof.
  unfold _calculate_composite_score, Spec.composite_score_spec.
  rewrite clamp_min_max. apply clamp_proper; try reflexivity.
  cbn [fst snd].
  assert (E1 : Qmin (s / 1000.0) 1.0 == Qmin (s / 1000) 1).
  { apply Q.min_compat; [|done]. apply Qmult_comp; [reflexivity|done]. }
  assert (E3 : Qmin (c / 64.0) 1.0 == Qmin (c / 64) 1).
  { apply Q.min_compat; [|done]. apply Qmult_comp; [reflexivity|done]. }
  assert (E4 : Qmin (inject_Z (w * h) / inject_Z (1920 * 1080)) 1.0
               == Qmin (inject_Z (w * h) / inject_Z (1920 * 1080)) 1).
  { apply Q.min_compat; [reflexivity|done]. }
  rewrite E1, E3, E4.
  set (x1 := Qmin _ _). set (x2 := Qabs _). set (x3 := Qmin _ _).
  set (x4 := Qmin _ _).
  field.
Qed.

Lemma composite_score_proper s s' b b' c c' r :
  s == s' → b == b' → c == c' →
  _calculate_composite_score s b c r == _calculate_composite_score s' b' c' r.
Proof.
  intros Hs Hb Hc. unfold _calculate_composite_score.
  rewrite Hs, Hb, Hc. reflexivity.
Qed.

Lemma generate_flags_proper s s' b b' c c' r :
  s == s' → b == b' → c == c' →
  _generate_flags s b c r = _generate_flags s' b' c' r.
Proof.
  intros Hs Hb Hc.
  unfold _generate_flags, blur_analysis, brightness_analysis, contrast_analysis.
  rewrite !(Qltb_proper _ _ Hs _ _ (Qeq_refl _)).
  rewrite !(Qltb_proper _ _ Hb _ _ (Qeq_refl _)).
  rewrite !(Qltb_proper _ _ (Qeq_refl _) _ _ Hb).
  rewrite !(Qltb_proper _ _ Hc _ _ (Qeq_refl _)).
  reflexivity.
Qed.

Lemma quality_grade_proper x y : x == y → quality_grade x = quality_grade y.
Proof.
  intros H. unfold quality_grade.
  rewrite !(Qleb_proper _ _ (Qeq_refl _) _ _ H). reflexivity.
Qed.

(** Every block of [_generate_flags] only appends. *)
Lemma blur_analysis_app s acc :
  blur_analysis s acc = acc ++ blur_analysis s [].
Proof. unfold blur_analysis. repeat case_match; by rewrite ?app_nil_r. Qed.

Lemma brightness_analysis_app b acc :
  brightness_analysis b acc = acc ++ brightness_analysis b [].
Proof. unfold brightness_analysis. repeat case_match; by rewrite ?app_nil_r. Qed.

Lemma contrast_analysis_app c acc :
  contrast_analysis c acc = acc ++ contrast_analysis c [].
Proof. unfold contrast_analysis. repeat case_match; by rewrite ?app_nil_r. Qed.

Lemma resolution_categories_app r acc :
  resolution_categories r acc = acc ++ resolution_categories r [].
Proof.
  unfold resolution_categories. destruct r.
  repeat case_match; by rewrite ?app_nil_r.
Qed.

Lemma pixel_density_warnings_app r acc :
  pixel_density_warnings r acc = acc ++ pixel_density_warnings r [].
Proof.
  unfold pixel_density_warnings. destruct r.
  repeat case_match; by rewrite ?app_nil_r.
Qed.

Lemma aspect_ratio_check_app r acc :
  aspect_ratio_check r acc = acc ++ aspect_ratio_check r [].
Proof.
  unfold aspect_ratio_check. destruct r.
  repeat case_match; by rewrite ?app_nil_r.
Qed.

Lemma generate_flags_blocks s b c r :
  _generate_flags s b c r =
  blur_analysis s [] ++ brightness_analysis b [] ++ contrast_analysis c [] ++
  resolution_categories r [] ++ pixel_density_warnings r [] ++
  aspect_ratio_check r [].
Proof.
  unfold _generate_flags. cbv zeta.
  rewrite aspect_ratio_check_app, pixel_density_warnings_app,
    resolution_categories_app, contrast_analysis_app, brightness_analysis_app.
  by rewrite <- !app_assoc.
Qed.

(** The aspect-ratio flag is raised only for a positive height, which is
    what keeps the unguarded division of the suggestions safe. *)
Lemma unusual_aspect_ratio_height s b c w h :
  "unusual_aspect_ratio" ∈ _generate_flags s b c (w, h) → (0 < h)%Z.
Proof.
  rewrite generate_flags_blocks, !elem_of_app.
  unfold blur_analysis, brightness_analysis, contrast_analysis,
    resolution_categories, pixel_density_warnings, aspect_ratio_check.
  intros [H|[H|[H|[H|[H|H]]]]];
    try by (repeat case_match;
            apply (bool_decide_pack _) in H; vm_compute in H).
  destruct (0 <? h)%Z eqn:E; [apply Z.ltb_lt in E; done|].
  by apply (bool_decide_pack _) in H; vm_compute in H.
Qed.

(** An empty flag list pins every measurement into its unflagged band. *)
Lemma generate_flags_nil s b c w h :
  _generate_flags s b c (w, h) = [] →
  Qltb s 300 = false ∧ Qltb b 80 = false ∧ Qltb 170 b = false ∧
  Qltb c 35 = false ∧ (1920 <= w)%Z ∧ (1080 <= h)%Z.
Proof.
  rewrite generate_flags_blocks.
  unfold blur_analysis, brightness_analysis, contrast_analysis,
    resolution_categories.
  intros H.
  apply app_eq_nil in H as [H1 H].
  apply app_eq_nil in H as [H2 H].
  apply app_eq_nil in H as [H3 H].
  apply app_eq_nil in H as [H4 _].
  repeat split.
  - repeat case_match; done.
  - repeat case_match; done.
  - destruct (Qltb b 50) eqn:?; [done|]. destruct (Qltb b 80) eqn:?; [done|].
    destruct (Qltb 200 b) eqn:E; [done|]. destruct (Qltb 170 b); done.
  - repeat case_match; done.
  - repeat case_match; try done. lia.
  - repeat case_match; try done. lia.
Qed.

(** [suggestions[:8]] is all that can make the list shorter; no block
    raises on flags produced by [_generate_flags]. *)
Lemma init_total s b c r : ∃ m, __init__ s b c r = Ok m.
Proof.
  destruct r as [w h]. unfold __init__, _generate_suggestions. cbv zeta.
  set (acc := pixel_density_insights _ _ _).
  unfold aspect_ratio_suggestions.
  destruct (str_in _ _) eqn:E.
  - apply bool_decide_eq_true in E.
    apply unusual_aspect_ratio_height in E.
    unfold truediv.
    destruct (Qeq_bool (inject_Z h) 0) eqn:E0.
    + apply Qeq_bool_iff in E0. unfold Qeq in E0. simpl in E0. lia.
    + cbn. eauto.
  - cbn. eauto.
Qed.

Lemma init_fields s b c r m :
  __init__ s b c r = Ok m →
  blur_score m = s ∧ brightness m = b ∧ contrast m = c ∧ resolution m = r ∧
  composite_score m = _calculate_composite_score s b c r ∧
  flags m = _generate_flags s b c r ∧
  _generate_suggestions s b c r (flags m) (composite_score m)
    = Ok (suggestions m).
Proof.
  unfold __init__. cbv zeta.
  destruct (_generate_suggestions _ _ _ _ _ _) as [l|e] eqn:E; cbn; [|done].
  intros [= <-]. cbn. done.
Qed.

Lemma composite_score_range s b c r :
  0 <= _calculate_composite_score s b c r <= 100.
Proof.
  unfold _calculate_composite_score. cbv zeta.
  rewrite clamp_min_max. by apply clamp_bounds.
Qed.

(** C5. The composite score computed by [_calculate_composite_score] is
    the weighted sum [0.4*min(sharpness/1000,1) +
    0.25*(1-|brightness-128|/128) + 0.25*min(contrast/64,1) +
    0.1*min(width*height/(1920*1080),1)] scaled by 100 and clamped to
    [[0,100]]; and two metrics objects built from equal raw
    measurements have equal composite score, the same flags and the
    same grade.  (The range assumptions on the measurements are not
    needed.) *)
Theorem composite_score_formula (s b c : Q) (w h : Z) :
  _calculate_composite_score s b c (w, h)
    == Spec.composite_score_spec s b c w h
  ∧ 0 <= _calculate_composite_score s b c (w, h) <= 100
  ∧ ∀ s' b' c' : Q, s == s' → b == b' → c == c' →
      ∃ m m', __init__ s b c (w, h) = Ok m
            ∧ __init__ s' b' c' (w, h) = Ok m'
            ∧ composite_score m == _calculate_composite_score s b c (w, h)
            ∧ composite_score m == composite_score m'
            ∧ flags m = flags m'
            ∧ d_quality_grade (to_dict m) = d_quality_grade (to_dict m').
Proof.
  split; [apply composite_score_refines|].
  split; [apply composite_score_range|].
  intros s' b' c' Hs Hb Hc.
  destruct (init_total s b c (w, h)) as [m Hm].
  destruct (init_total s' b' c' (w, h)) as [m' Hm'].
  exists m, m'. split; [done|]. split; [done|].
  apply init_fields in Hm as (_ & _ & _ & Hr & Hcs & Hf & _).
  apply init_fields in Hm' as (_ & _ & _ & Hr' & Hcs' & Hf' & _).
  assert (Hcomp : composite_score m == composite_score m').
  { rewrite Hcs, Hcs'. by apply composite_score_proper. }
  split; [by rewrite Hcs|]. split; [done|]. split.
  - rewrite Hf, Hf'. by apply generate_flags_proper.
  - unfold to_dict. rewrite Hr, Hr'. cbn. by apply quality_grade_proper.
Qed.

Lemma composite_score_formula_witness :
  ∃ m m', __init__ 500 99 50 (1920, 1280)%Z = Ok m
        ∧ __init__ (1000 # 2) (198 # 2) (100 # 2) (1920, 1280)%Z = Ok m'
        ∧ composite_score m == composite_score m'
        ∧ flags m = flags m'
        ∧ d_quality_grade (to_dict m) = d_quality_grade (to_dict m').
Proof.
  destruct (composite_score_formula 500 99 50 1920 1280) as (_ & _ & H).
  destruct (H (1000 # 2) (198 # 2) (100 # 2))
    as (m & m' & H0 & H' & _ & Hc & Hf & Hg); [reflexivity..|].
  exists m, m'. done.
Defined.

(** C9. An image that cannot be decoded does not make
    [analyze_image_quality] raise: it returns the metrics object built
    from all-zero measurements, whose composite score is 0, and whose
    flags, suggestions and grade are computed without error. *)
Theorem undecodable_image_zero_metrics (HAS_CV2 : bool) (image : image_file) :
  undecodable HAS_CV2 image →
  ∃ m, analyze_image_quality HAS_CV2 image = Ok m
     ∧ blur_score m == 0 ∧ brightness m == 0 ∧ contrast m == 0
     ∧ resolution m = (0, 0)%Z
     ∧ composite_score m == 0
     ∧ flags m = ["blurry"; "too_dark"; "low_contrast";
                  "inadequate_resolution"; "very_low_pixel_count"]
     ∧ suggestions m =
         [CriticalTooSmall 0 0; LowResolutionPixelation; ActionRetake;
          UrgentBlurry; FixTripod; CriticalTooDark; SolutionAddLighting;
          LowContrast]
     ∧ to_dict m = mkQualityDict (0 / 1000000) 1 POOR.
Proof.
  intros Hund.
  assert (Hbody : analyze_image_quality HAS_CV2 image
                  = __init__ 0.0 0.0 0.0 (0, 0)%Z).
  { unfold analyze_image_quality, undecodable in *.
    destruct HAS_CV2; cbn.
    - by rewrite Hund.
    - by destruct (pil_size image). }
  rewrite Hbody. eexists. split; [vm_compute; reflexivity|].
  cbn. repeat split; done.
Qed.

Lemma undecodable_image_zero_metrics_witness :
  ∃ m, analyze_image_quality true (mkImageFile (Ok (640, 480)%Z) None) = Ok m
     ∧ composite_score m == 0 ∧ resolution m = (0, 0)%Z
     ∧ length (suggestions m) = 8%nat.
Proof.
  destruct (undecodable_image_zero_metrics true
              (mkImageFile (Ok (640, 480)%Z) None))
    as (m & Hm & _ & _ & _ & Hr & Hc & _ & Hs & _); [reflexivity|].
  exists m. rewrite Hs. done.
Defined.

(** The suggestions of a metrics object without flags: praise for each
    measurement in its top band, the resolution line, the overall
    assessment, and the generic entries when that leaves fewer than
    three. *)
Lemma suggestions_without_flags s b c w h comp :
  (1920 <= w)%Z → (1080 <= h)%Z →
  _generate_suggestions s b c (w, h) [] comp =
  Ok (take 8 (ecommerce_insights []
        (overall_assessment comp
           ((if Qltb 800 s then [ExceptionalSharpness]
             else if Qltb 500 s then [SharpAndClear] else [])
            ++ (if Qleb 100 b && Qleb b 150 then [PerfectLighting] else [])
            ++ (if Qltb 50 c then [ExcellentContrast] else [])
            ++ [PremiumResolution w h])))).
Proof.
  intros Hw Hh.
  unfold _generate_suggestions, critical_issues, sharpness_suggestions,
    lighting_suggestions, contrast_suggestions, resolution_quality,
    pixel_density_insights, aspect_ratio_suggestions.
  cbn [str_in bool_decide decide_rel orb andb negb].
  replace (str_in "inadequate_resolution" []) with false by done.
  assert (Hres : (1920 <=? w)%Z && (1080 <=? h)%Z = true).
  { apply andb_true_iff. split; by apply Z.leb_le. }
  cbn. rewrite Hres.
  destruct (Qltb 800 s); [|destruct (Qltb 500 s)];
    destruct (Qleb 100 b && Qleb b 150); destruct (Qltb 50 c); reflexivity.
Qed.

(** C10 (as stated) fails: a sharp, well lit, contrasty 1920x1280 image
    has no flags, and its six suggestions do not include the generic
    acknowledgment. *)
Lemma meets_standards_counterexample :
  ∃ m, __init__ 1000 128 64 (1920, 1280)%Z = Ok m
     ∧ flags m = []
     ∧ suggestions m =
         [ExceptionalSharpness; PerfectLighting; ExcellentContrast;
          PremiumResolution 1920 1280; ExceptionalQuality; MaximizesConversion]
     ∧ (MeetsAllStandards ∉ suggestions m)
     ∧ (ReadyForImmediateUse ∉ suggestions m)
     ∧ (ProfessionalGrade ∉ suggestions m).
Proof.
  eexists. split; [vm_compute; reflexivity|]. cbn.
  split; [done|]. split; [done|].
  repeat split; intros H; repeat (apply elem_of_cons in H as [H|H]; [done|]);
    by apply elem_of_nil in H.
Qed.

(** C10 (amended). The constructor always succeeds and the suggestion
    list has at most 8 entries.  When there are no flags, the generic
    acknowledgment entries are present if the earlier blocks produced
    fewer than three suggestions (sharpness at most 500, brightness
    outside [[100,150]], contrast at most 50 and composite score in
    [[60,90)]), and absent otherwise. *)
Theorem suggestions_capped_and_generic (s b c : Q) (w h : Z) :
  ∃ m, __init__ s b c (w, h) = Ok m
     ∧ (length (suggestions m) <= 8)%nat
     ∧ (flags m = [] →
        (s <= 500 ∧ ¬ (100 <= b ∧ b <= 150) ∧ c <= 50
         ∧ 60 <= composite_score m ∧ composite_score m < 90 →
         MeetsAllStandards ∈ suggestions m
         ∧ ReadyForImmediateUse ∈ suggestions m
         ∧ ProfessionalGrade ∈ suggestions m)
        ∧ (500 < s ∨ (100 <= b ∧ b <= 150) ∨ 50 < c
           ∨ composite_score m < 60 ∨ 90 <= composite_score m →
           (MeetsAllStandards ∉ suggestions m)
           ∧ (ReadyForImmediateUse ∉ suggestions m)
           ∧ (ProfessionalGrade ∉ suggestions m))).
Proof.
  destruct (init_total s b c (w, h)) as [m Hm]. exists m. split; [done|].
  apply init_fields in Hm as (_ & _ & _ & _ & _ & Hf & Hs).
  split.
  { unfold _generate_suggestions in Hs. cbv zeta in Hs.
    destruct (aspect_ratio_suggestions _ _ _) as [l|e]; cbn in Hs; [|done].
    injection Hs as <-. rewrite length_take. lia. }
  intros Hnil. rewrite Hnil in Hs. rewrite Hnil in Hf. symmetry in Hf.
  apply generate_flags_nil in Hf as (_ & _ & _ & _ & Hw & Hh).
  rewrite suggestions_without_flags in Hs by done.
  injection Hs as <-.
  generalize (composite_score m). intros comp.
  unfold overall_assessment, ecommerce_insights.
  destruct (Qltb 800 s) eqn:EA; [apply Qltb_lt in EA|apply Qltb_ge in EA];
    (destruct (Qltb 500 s) eqn:EB; [apply Qltb_lt in EB|apply Qltb_ge in EB]);
    (destruct (Qleb 100 b) eqn:EL1; [apply Qleb_le in EL1|apply Qleb_gt in EL1]);
    (destruct (Qleb b 150) eqn:EL2; [apply Qleb_le in EL2|apply Qleb_gt in EL2]);
    (destruct (Qltb 50 c) eqn:EC; [apply Qltb_lt in EC|apply Qltb_ge in EC]);
    (destruct (Qleb 90 comp) eqn:E9;
     [apply Qleb_le in E9
     |apply Qleb_gt in E9; destruct (Qleb 80 comp) eqn:E8;
      [apply Qleb_le in E8
      |apply Qleb_gt in E8; destruct (Qleb 70 comp) eqn:E7;
       [apply Qleb_le in E7
       |apply Qleb_gt in E7; destruct (Qleb 60 comp) eqn:E6;
        [apply Qleb_le in E6|apply Qleb_gt in E6]]]]);
    cbn;
    (split;
     [intros (? & ? & ? & ? & ?);
      first [exfalso; lra
            |split; [|split]; apply list_elem_of_In; cbn; tauto]
     |intros Hor;
      first [exfalso; destruct Hor as [?|[[? ?]|[?|[?|?]]]]; lra
            |split; [|split]; intros Hin; apply list_elem_of_In in Hin;
             cbn in Hin; intuition discriminate]]).
Qed.

Lemma suggestions_capped_and_generic_witness :
  ∃ m, __init__ 500 99 50 (1920, 1280)%Z = Ok m
     ∧ flags m = []
     ∧ MeetsAllStandards ∈ suggestions m.
Proof.
  destruct (suggestions_capped_and_generic 500 99 50 1920 1280)
    as (m & Hm & _ & H).
  exists m. split; [done|].
  assert (Hf : flags m = []) by (vm_compute in Hm; by injection Hm as <-).
  split; [done|].
  assert (Hc : composite_score m == 5641600 # 81920)
    by (vm_compute in Hm; by injection Hm as <-).
  destruct (H Hf) as [Hpos _]. apply Hpos.
  rewrite Hc. repeat split; try done. intros [? ?]. lra.
Defined.

End QualityFacts.

(** ** The embedding cache *)

Section CacheFacts.
Import Embeddings.

Import Spec.

Lemma list_remove_Ok key l :
  key ∈ l →
  ∃ before after, l = before ++ key :: after ∧ (key ∉ before)
                  ∧ list_remove key l = Ok (before ++ after).
Proof.
  induction l as [|y l IH]; intros Hin; [by apply elem_of_nil in Hin|].
  cbn. destruct (decide (y = key)) as [->|Hne].
  - exists [], l. split; [done|]. split; [apply not_elem_of_nil|done].
  - apply elem_of_cons in Hin as [->|Hin]; [done|].
    destruct (IH Hin) as (before & after & -> & Hb & ->).
    exists (y :: before), after. cbn. split; [done|]. split; [|done].
    apply not_elem_of_cons. done.
Qed.

Lemma cache_wf_size c :
  cache_wf c → size (cache c) = length (access_order c).
Proof.
  intros [Hnd Hdom].
  rewrite <- size_dom, Hdom. by apply size_list_to_set.
Qed.

Lemma cache_wf_lookup c key :
  cache_wf c → key ∈ access_order c ↔ is_Some (cache c !! key).
Proof.
  intros [_ Hdom]. rewrite <- elem_of_dom, Hdom. by rewrite elem_of_list_to_set.
Qed.

Lemma cache_init_wf n : cache_wf (cache_init n).
Proof.
  split; cbn; [constructor|]. by rewrite dom_empty_L.
Qed.

Lemma cache_clear_wf c : cache_wf (cache_clear c).
Proof.
  split; cbn; [constructor|]. by rewrite dom_empty_L.
Qed.

(** Moving a listed key to the end keeps the list duplicate-free with
    the same elements. *)
Lemma move_to_end_NoDup (before after : list string) key :
  NoDup (before ++ key :: after) → NoDup ((before ++ after) ++ [key]).
Proof.
  intros H. eapply NoDup_Permutation_proper; [|exact H].
  rewrite <- app_assoc. apply Permutation_app_head.
  symmetry. apply Permutation_cons_append.
Qed.

Lemma move_to_end_set (before after : list string) key :
  list_to_set (C := gset string) ((before ++ after) ++ [key])
  = list_to_set (before ++ key :: after).
Proof.
  apply list_to_set_perm_L.
  rewrite <- app_assoc. apply Permutation_app_head.
  symmetry. apply Permutation_cons_append.
Qed.

(** A hit: the entry moves to the end of [access_order], nothing else
    changes. *)
Lemma cache_get_hit c key v :
  cache_wf c → cache c !! key = Some v →
  ∃ before after,
    access_order c = before ++ key :: after
    ∧ (key ∉ before) ∧ (key ∉ after)
    ∧ cache_get c key
      = (set_access_order c ((before ++ after) ++ [key]), Ok (Some v)).
Proof.
  intros Hwf Hk.
  assert (Hin : key ∈ access_order c) by (apply cache_wf_lookup; eauto).
  destruct (list_remove_Ok _ _ Hin) as (before & after & Hl & Hb & Hrm).
  exists before, after. split; [done|]. split; [done|].
  split.
  - destruct Hwf as [Hnd _]. rewrite Hl in Hnd.
    apply NoDup_app in Hnd as (_ & _ & Hnd).
    by apply NoDup_cons in Hnd as [? _].
  - unfold cache_get. by rewrite Hk, Hrm.
Qed.

Lemma cache_get_miss c key :
  cache c !! key = None → cache_get c key = (c, Ok None).
Proof. intros H. unfold cache_get. by rewrite H. Qed.

Lemma cache_get_wf c key : cache_wf c → cache_wf (cache_get c key).1.
Proof.
  intros Hwf. destruct (cache c !! key) as [v|] eqn:Hk.
  - destruct (cache_get_hit c key v Hwf Hk) as (before & after & Hl & _ & _ & ->).
    destruct Hwf as [Hnd Hdom]. rewrite Hl in Hnd, Hdom.
    split; cbn; [by apply move_to_end_NoDup|by rewrite move_to_end_set].
  - by rewrite cache_get_miss.
Qed.

(** Overwriting a present key. *)
Lemma cache_put_present c key v e :
  cache_wf c → cache c !! key = Some v →
  ∃ before after,
    access_order c = before ++ key :: after
    ∧ cache_put c key e
      = (mkEmbeddingCache (max_size c) (<[key := e]> (cache c))
           ((before ++ after) ++ [key]), Ok ()).
Proof.
  intros Hwf Hk.
  assert (Hin : key ∈ access_order c) by (apply cache_wf_lookup; eauto).
  destruct (list_remove_Ok _ _ Hin) as (before & after & Hl & Hb & Hrm).
  exists before, after. split; [done|].
  unfold cache_put. rewrite Hk. cbn. by rewrite Hrm.
Qed.

(** Inserting a new key below capacity. *)
Lemma cache_put_fresh c key e :
  cache c !! key = None → (Z.of_nat (size (cache c)) < max_size c)%Z →
  cache_put c key e
  = (mkEmbeddingCache (max_size c) (<[key := e]> (cache c))
       (access_order c ++ [key]), Ok ()).
Proof.
  intros Hk Hlt. unfold cache_put. rewrite Hk.
  destruct (max_size c <=? _)%Z eqn:E; [apply Z.leb_le in E; lia|done].
Qed.

(** Inserting a new key at capacity: the head of [access_order] goes. *)
Lemma cache_put_evict c key e :
  cache_wf c → cache c !! key = None →
  (max_size c <= Z.of_nat (size (cache c)))%Z → access_order c ≠ [] →
  ∃ lru_key rest,
    access_order c = lru_key :: rest
    ∧ is_Some (cache c !! lru_key) ∧ lru_key ≠ key ∧ (lru_key ∉ rest)
    ∧ cache_put c key e
      = (mkEmbeddingCache (max_size c)
           (<[key := e]> (delete lru_key (cache c))) (rest ++ [key]), Ok ()).
Proof.
  intros Hwf Hk Hfull Hne.
  destruct (access_order c) as [|lru_key rest] eqn:Hl; [done|].
  exists lru_key, rest. split; [done|].
  assert (Hlru : is_Some (cache c !! lru_key)).
  { apply cache_wf_lookup; [done|]. rewrite Hl. apply elem_of_cons. by left. }
  split; [done|]. split; [intros ->; rewrite Hk in Hlru; by destruct Hlru|].
  split.
  { destruct Hwf as [Hnd _]. rewrite Hl in Hnd.
    by apply NoDup_cons in Hnd as [? _]. }
  unfold cache_put. rewrite Hk, Hl.
  destruct (max_size c <=? _)%Z eqn:E; [|apply Z.leb_gt in E; lia].
  cbn. destruct Hlru as [v ->]. done.
Qed.

Lemma cache_put_empty_full c key e :
  cache c !! key = None →
  (max_size c <= Z.of_nat (size (cache c)))%Z → access_order c = [] →
  cache_put c key e = (c, Raise IndexError).
Proof.
  intros Hk Hfull Hl. unfold cache_put. rewrite Hk, Hl.
  destruct (max_size c <=? _)%Z eqn:E; [done|apply Z.leb_gt in E; lia].
Qed.

Lemma cache_put_wf c key e : cache_wf c → cache_wf (cache_put c key e).1.
Proof.
  intros Hwf. destruct (cache c !! key) as [v|] eqn:Hk.
  - destruct (cache_put_present c key v e Hwf Hk) as (before & after & Hl & ->).
    destruct Hwf as [Hnd Hdom]. rewrite Hl in Hnd, Hdom.
    split; cbn; [by apply move_to_end_NoDup|].
    rewrite dom_insert_L, Hdom, move_to_end_set.
    rewrite !list_to_set_app_L, list_to_set_cons. set_solver.
  - destruct (decide (Z.of_nat (size (cache c)) < max_size c)%Z) as [Hlt|Hge].
    + rewrite cache_put_fresh by done.
      destruct Hwf as [Hnd Hdom]. split; cbn.
      * apply NoDup_app. split; [done|]. split; [|apply NoDup_singleton].
        intros x Hx Hx'. apply list_elem_of_singleton in Hx' as ->.
        apply (cache_wf_lookup c key (conj Hnd Hdom)) in Hx.
        rewrite Hk in Hx. by destruct Hx.
      * rewrite dom_insert_L, Hdom, list_to_set_app_L. set_solver.
    + destruct (access_order c) as [|k0 r0] eqn:Hl.
      { rewrite cache_put_empty_full by (done || lia). done. }
      destruct (cache_put_evict c key e Hwf Hk)
        as (lru_key & rest & Hl' & Hlru & Hne & Hnin & ->);
        [lia|by rewrite Hl|].
      rewrite Hl in Hl'. injection Hl' as -> ->.
      destruct Hwf as [Hnd Hdom]. rewrite Hl in Hnd, Hdom.
      apply NoDup_cons in Hnd as [_ Hnd].
      split; cbn.
      * apply NoDup_app. split; [done|]. split; [|apply NoDup_singleton].
        intros x Hx Hx'. apply list_elem_of_singleton in Hx' as ->.
        assert (Hd : key ∈ dom (cache c)) by (rewrite Hdom; set_solver).
        apply elem_of_dom in Hd. rewrite Hk in Hd. by destruct Hd.
      * rewrite dom_insert_L, dom_delete_L, Hdom, list_to_set_app_L.
        rewrite list_to_set_cons.
        assert (lru_key ∉ (list_to_set rest : gset string))
          by (by rewrite elem_of_list_to_set).
        set_solver.
Qed.

Lemma cache_step_wf c op : cache_wf c → cache_wf (cache_step c op).
Proof.
  destruct op; cbn; auto using cache_get_wf, cache_put_wf, cache_clear_wf.
Qed.

Lemma cache_step_max_size c op : max_size (cache_step c op) = max_size c.
Proof.
  destruct op as [key|key e|]; cbn; [| |done].
  - unfold cache_get. repeat case_match; done.
  - unfold cache_put. repeat case_match; simplify_eq; done.
Qed.

Lemma cache_step_bounded c op :
  cache_wf c → (Z.of_nat (size (cache c)) <= max_size c)%Z →
  (Z.of_nat (size (cache (cache_step c op))) <= max_size c)%Z.
Proof.
  intros Hwf Hle. destruct op as [key|key e|]; cbn.
  - destruct (cache c !! key) as [v|] eqn:Hk.
    + by destruct (cache_get_hit c key v Hwf Hk) as (? & ? & _ & _ & _ & ->).
    + by rewrite cache_get_miss.
  - destruct (cache c !! key) as [v|] eqn:Hk.
    + destruct (cache_put_present c key v e Hwf Hk) as (? & ? & _ & ->).
      cbn. rewrite map_size_insert_Some; eauto.
    + destruct (decide (Z.of_nat (size (cache c)) < max_size c)%Z) as [Hlt|Hge].
      * rewrite cache_put_fresh by done. cbn.
        rewrite map_size_insert_None by done. lia.
      * destruct (access_order c) as [|k0 r0] eqn:Hl.
        { rewrite cache_put_empty_full by (done || lia). done. }
        destruct (cache_put_evict c key e Hwf Hk)
          as (lru_key & rest & _ & Hlru & Hne & _ & ->);
          [lia|by rewrite Hl|].
        cbn. rewrite map_size_insert_None
          by (rewrite lookup_delete_ne; done).
        rewrite map_size_delete_Some by done.
        assert (size (cache c) ≠ 0%nat).
        { intros H0. apply map_size_empty_inv in H0.
          rewrite H0, lookup_empty in Hlru. by destruct Hlru. }
        lia.
  - rewrite map_size_empty. pose proof (cache_wf_size c Hwf). lia.
Qed.

(** *** Recency *)

Lemma filter_ne_not_elem_of (x : string) (l : list string) :
  x ∉ l → filter (λ k, k ≠ x) l = l.
Proof.
  intros Hx. apply filter_Forall_id, Forall_forall.
  intros k Hk ->. done.
Qed.

Lemma remove_dups_snoc (l : list string) (x : string) :
  remove_dups (l ++ [x]) = filter (λ k, k ≠ x) (remove_dups l) ++ [x].
Proof.
  induction l as [|y l IH]; [done|]. cbn [app remove_dups]. rewrite IH.
  destruct (decide_rel elem_of y (l ++ [x])) as [H1|H1];
    destruct (decide_rel elem_of y l) as [H2|H2].
  - done.
  - apply elem_of_app in H1 as [H1|H1]; [done|].
    apply list_elem_of_singleton in H1 as ->.
    by rewrite filter_cons_False by (intros H; by apply H).
  - exfalso. apply H1, elem_of_app. by left.
  - rewrite filter_cons_True; [done|].
    intros ->. apply H1, elem_of_app. right. by apply list_elem_of_singleton.
Qed.

Lemma remove_dups_split (l : list string) (A B : list string) (x : string) :
  remove_dups l = A ++ x :: B →
  ∃ l1 l2, l = l1 ++ x :: l2 ∧ (x ∉ l2) ∧ remove_dups l2 = B.
Proof.
  revert A. induction l as [|y l IH]; intros A H; cbn in H.
  - by destruct A.
  - destruct (decide_rel elem_of y l) as [Hy|Hy].
    + destruct (IH A H) as (l1 & l2 & -> & ? & ?).
      by exists (y :: l1), l2.
    + destruct A as [|a A]; cbn in H.
      * injection H as -> <-. by exists [], l.
      * injection H as -> H'.
        destruct (IH A H') as (l1 & l2 & -> & ? & ?).
        by exists (a :: l1), l2.
Qed.

Lemma filter_cons_split (P : string → Prop) `{!∀ k, Decision (P k)}
    (l : list string) (x : string) (r : list string) :
  filter P l = x :: r →
  ∃ l1 l2, l = l1 ++ x :: l2 ∧ filter P l2 = r.
Proof.
  induction l as [|y l IH]; [done|].
  rewrite filter_cons. destruct (decide (P y)).
  - intros [= -> <-]. by exists [], l.
  - intros Hf. destruct (IH Hf) as (l1 & l2 & -> & ?).
    by exists (y :: l1), l2.
Qed.

(** The head of [access_order] is the cached key whose last use is the
    oldest. *)
Lemma lru_order_head c log lru_key rest k :
  lru_order c log → access_order c = lru_key :: rest → k ∈ rest →
  used_before log lru_key k.
Proof.
  unfold lru_order. intros -> Hhead Hk.
  apply filter_cons_split in Hhead as (F1 & F2 & HF & <-).
  apply list_elem_of_filter in Hk as [_ Hk].
  apply remove_dups_split in HF as (l1 & l2 & -> & Hnot & <-).
  apply (proj1 (elem_of_remove_dups _ _)) in Hk.
  by exists l1, l2.
Qed.

(** Using [key] moves it to the end of the last-use order. *)
Lemma lru_order_touch (D D' : gset string) (log : list string) (key : string) :
  key ∈ D' → (∀ k, k ≠ key → k ∈ D' ↔ k ∈ D) →
  filter (λ k, k ∈ D') (remove_dups (log ++ [key]))
  = filter (λ k, k ≠ key) (filter (λ k, k ∈ D) (remove_dups log)) ++ [key].
Proof.
  intros Hkey HD.
  rewrite remove_dups_snoc, filter_app, !list_filter_filter.
  rewrite (filter_cons_True _ key []) by done. f_equal.
  apply list_filter_iff. intros k. specialize (HD k). tauto.
Qed.

Lemma filter_dom_difference (D : gset string) (x : string) (l : list string) :
  filter (λ k, k ∈ D ∖ {[x]}) l = filter (λ k, k ≠ x) (filter (λ k, k ∈ D) l).
Proof.
  rewrite list_filter_filter. apply list_filter_iff. intros k. set_solver.
Qed.

Lemma log_step_lru_order c log op :
  cache_wf c → lru_order c log →
  lru_order (log_step (c, log) op).1 (log_step (c, log) op).2.
Proof.
  intros Hwf Hord. pose proof Hwf as [Hnd Hdom].
  unfold log_step, lru_order in *. cbn [fst snd].
  destruct op as [key|key e|]; cbn [cache_step touched]; [| |done].
  - destruct (cache c !! key) as [v|] eqn:Hk.
    + destruct (cache_get_hit c key v Hwf Hk)
        as (before & after & Hl & Hb & Ha & ->).
      cbn. rewrite (lru_order_touch (dom (cache c))), <- Hord, Hl;
        [|apply elem_of_dom; by rewrite Hk|done].
      rewrite filter_app, filter_cons_False by (intros Hx; by apply Hx).
      by rewrite !filter_ne_not_elem_of.
    + rewrite cache_get_miss by done. cbn. by rewrite app_nil_r.
  - destruct (cache c !! key) as [v|] eqn:Hk.
    + destruct (cache_put_present c key v e Hwf Hk)
        as (before & after & Hl & ->).
      assert (Ha : (key ∉ before) ∧ (key ∉ after)).
      { rewrite Hl in Hnd. apply NoDup_app in Hnd as (_ & Hb & Hnd).
        apply NoDup_cons in Hnd as [? _]. split; [|done].
        intros Hx. apply (Hb key Hx). apply elem_of_cons. by left. }
      destruct Ha as [Hb Ha].
      cbn. rewrite (lru_order_touch (dom (cache c))), <- Hord, Hl;
        [|rewrite dom_insert_L; set_solver
         |intros k ?; rewrite dom_insert_L; set_solver].
      rewrite filter_app, filter_cons_False by (intros Hx; by apply Hx).
      by rewrite !filter_ne_not_elem_of.
    + assert (Hka : key ∉ access_order c).
      { intros Hx. apply (cache_wf_lookup c key Hwf) in Hx.
        rewrite Hk in Hx. by destruct Hx. }
      destruct (decide (Z.of_nat (size (cache c)) < max_size c)%Z) as [Hlt|Hge].
      * rewrite cache_put_fresh by done. cbn.
        rewrite (lru_order_touch (dom (cache c))), <- Hord;
          [|rewrite dom_insert_L; set_solver
           |intros k ?; rewrite dom_insert_L; set_solver].
        by rewrite filter_ne_not_elem_of.
      * destruct (access_order c) as [|k0 r0] eqn:Hl.
        { rewrite cache_put_empty_full by (done || lia).
          cbn. by rewrite app_nil_r, Hl. }
        destruct (cache_put_evict c key e Hwf Hk)
          as (lru_key & rest & Hl' & Hlru & Hne & Hnin & ->);
          [lia|by rewrite Hl|].
        rewrite Hl in Hl'. injection Hl' as -> ->.
        cbn. rewrite (lru_order_touch (dom (cache c) ∖ {[lru_key]}));
          [|rewrite dom_insert_L; set_solver
           |intros k ?; rewrite dom_insert_L, dom_delete_L; set_solver].
        rewrite filter_dom_difference, <- Hord.
        rewrite filter_cons_False by (intros Hx; by apply Hx).
        rewrite (filter_ne_not_elem_of lru_key) by done.
        rewrite filter_ne_not_elem_of; [done|].
        intros Hx. apply Hka. apply elem_of_cons. by right.
Qed.

(** What every sequence of calls on a fresh cache preserves. *)
Lemma cache_run_log_fst n ops : (cache_run_log n ops).1 = cache_run n ops.
Proof.
  unfold cache_run_log, cache_run.
  induction ops as [|op ops IH] using rev_ind; [done|].
  rewrite !foldl_snoc. cbn. by rewrite IH.
Qed.

Lemma cache_run_invariant n ops :
  (0 <= n)%Z →
  let c := cache_run n ops in
  cache_wf c ∧ max_size c = n ∧ (Z.of_nat (size (cache c)) <= n)%Z
  ∧ lru_order c (cache_run_log n ops).2.
Proof.
  intros Hn. induction ops as [|op ops IH] using rev_ind.
  - cbn. split; [apply cache_init_wf|]. split; [done|].
    rewrite map_size_empty. split; [lia|done].
  - cbn in IH. destruct IH as (Hwf & Hmax & Hle & Hord).
    pose proof (cache_run_log_fst n ops) as Hfst.
    unfold cache_run, cache_run_log in *. rewrite !foldl_snoc. cbn.
    split; [by apply cache_step_wf|].
    split; [by rewrite cache_step_max_size|].
    split.
    + pose proof (cache_step_bounded _ op Hwf) as Hb.
      rewrite Hmax in Hb. by apply Hb.
    + rewrite <- Hfst in Hwf, Hord |- *.
      rewrite (surjective_pairing (foldl log_step _ ops)) in Hwf, Hord.
      exact (log_step_lru_order _ _ op Hwf Hord).
Qed.

(** C8. After any sequence of calls on a fresh cache of capacity
    [n >= 1]: the cache holds at most [n] entries; a [get] of a present
    key returns its value and moves exactly that key to the end of the
    recency order, leaving the stored entries and the order of the
    other keys unchanged; and a [put] of a new key into a full cache
    succeeds and evicts exactly one key, the head of the recency order,
    which is the least recently used one (every other cached key was
    used after its last use); after that the evicted key is a miss and
    every other key is still present with its value. *)
Theorem cache_bounded_lru (n : Z) (ops : list cache_op) :
  (1 <= n)%Z →
  let c := cache_run n ops in
  let log := (cache_run_log n ops).2 in
  max_size (cache_init max_size_default) = 100%Z
  ∧ (Z.of_nat (size (cache c)) <= n)%Z
  ∧ (∀ key v, cache c !! key = Some v →
       ∃ before after,
         access_order c = before ++ key :: after
         ∧ (key ∉ before) ∧ (key ∉ after)
         ∧ cache_get c key
           = (mkEmbeddingCache n (cache c) ((before ++ after) ++ [key]),
              Ok (Some v)))
  ∧ (∀ key e, cache c !! key = None → Z.of_nat (size (cache c)) = n →
       ∃ lru_key rest c',
         access_order c = lru_key :: rest
         ∧ cache_put c key e = (c', Ok ())
         ∧ max_size c' = n
         ∧ cache c' = <[key := e]> (delete lru_key (cache c))
         ∧ access_order c' = rest ++ [key]
         ∧ size (cache c') = size (cache c)
         ∧ is_Some (cache c !! lru_key)
         ∧ (∀ k, k ≠ lru_key → is_Some (cache c !! k) →
              used_before log lru_key k)
         ∧ cache_get c' lru_key = (c', Ok None)
         ∧ cache c' !! key = Some e
         ∧ (∀ k, k ≠ lru_key → k ≠ key → cache c' !! k = cache c !! k)).
Proof.
  intros Hn c log.
  destruct (cache_run_invariant n ops) as (Hwf & Hmax & Hle & Hord); [lia|].
  fold c in Hwf, Hmax, Hle, Hord. fold log in Hord.
  split; [done|]. split; [done|]. split.
  - intros key v Hk.
    destruct (cache_get_hit c key v Hwf Hk) as (before & after & Hl & ? & ? & Hg).
    exists before, after. rewrite Hg. unfold set_access_order.
    by rewrite Hmax.
  - intros key e Hk Hfull.
    assert (Hne : access_order c ≠ []).
    { intros Hnil. pose proof (cache_wf_size c Hwf) as Hs.
      rewrite Hnil in Hs. cbn in Hs. lia. }
    destruct (cache_put_evict c key e Hwf Hk)
      as (lru_key & rest & Hl & Hlru & Hneq & _ & Hp); [lia|done|].
    eexists lru_key, rest, _. split; [done|]. split; [exact Hp|]. cbn.
    split; [done|]. split; [done|]. split; [done|].
    split.
    { rewrite map_size_insert_None by (rewrite lookup_delete_ne; done).
      rewrite map_size_delete_Some by done.
      assert (size (cache c) ≠ 0%nat); [|lia].
      intros H0. apply map_size_empty_inv in H0.
      rewrite H0, lookup_empty in Hlru. by destruct Hlru. }
    split; [done|]. split.
    { intros k Hk1 Hk2. apply (lru_order_head c log lru_key rest); [done..|].
      apply (cache_wf_lookup c k Hwf) in Hk2. rewrite Hl in Hk2.
      by apply elem_of_cons in Hk2 as [?|?]. }
    split.
    { apply cache_get_miss. cbn.
      rewrite lookup_insert_ne by done. apply lookup_delete_eq. }
    split; [apply lookup_insert_eq|].
    intros k Hk1 Hk2.
    rewrite lookup_insert_ne by done. by rewrite lookup_delete_ne.
Qed.

Lemma cache_bounded_lru_witness :
  let ops := [OpPut "a" [1%Q]; OpPut "b" [2%Q]; OpGet "a"] in
  let c := cache_run 2 ops in
  access_order c = ["b"; "a"]
  ∧ (cache_run_log 2 ops).2 = ["a"; "b"; "a"]
  ∧ ∃ c', cache_put c "c" [3%Q] = (c', Ok ())
        ∧ access_order c' = ["a"; "c"]
        ∧ cache_get c' "b" = (c', Ok None)
        ∧ cache c' !! "a" = Some [1%Q]
        ∧ used_before ["a"; "b"; "a"] "b" "a".
Proof.
  intros ops c.
  destruct (cache_bounded_lru 2 ops) as (_ & _ & _ & H); [lia|].
  fold c in H.
  destruct (H "c" [3%Q])
    as (lru & rest & c' & Hl & Hp & _ & _ & Ha & _ & _ & Hu & Hg & _ & Ho);
    [reflexivity..|].
  assert (El : access_order c = ["b"; "a"]) by reflexivity.
  split; [done|]. split; [reflexivity|].
  rewrite El in Hl. injection Hl as <- <-.
  exists c'. split; [done|]. split; [done|]. split; [done|].
  split; [rewrite Ho by done; reflexivity|].
  apply Hu; [done|]. by eexists.
Defined.

End CacheFacts.

(** ** Similarity and duplicates *)

Section SimilarityFacts.
Import Embeddings Similarity Spec.

(** A loop whose body only appends collects the appended pieces. *)
Lemma for_each_collect {A B} (xs : list A) (body : A → list B → result (list B))
    (f : A → list B) (acc : list B) :
  (∀ x acc', x ∈ xs → body x acc' = Ok (acc' ++ f x)) →
  for_each xs body acc = Ok (acc ++ (xs ≫= f)).
Proof.
  revert acc. induction xs as [|x xs IH]; intros acc Hbody; cbn.
  - by rewrite app_nil_r.
  - rewrite Hbody by (apply elem_of_cons; by left). cbn.
    rewrite IH.
    + by rewrite <- app_assoc.
    + intros y acc' Hy. apply Hbody. apply elem_of_cons. by right.
Qed.

Lemma elem_of_range a b (x : nat) : x ∈ range a b ↔ (a <= x < b)%nat.
Proof. unfold range. rewrite elem_of_seq. lia. Qed.

Lemma square_get n m i j :
  square n m → (i < n)%nat → (j < n)%nat → ∃ s, matrix_get m i j = Ok s.
Proof.
  intros [Hlen Hrows] Hi Hj. unfold matrix_get.
  destruct (m !! i) as [row|] eqn:Hrow.
  - assert (length row = n) as Hr.
    { eapply (proj1 (Forall_forall _ _) Hrows), list_elem_of_lookup_2, Hrow. }
    destruct (row !! j) as [x|] eqn:Hx; [eauto|].
    apply lookup_ge_None in Hx. lia.
  - apply lookup_ge_None in Hrow. lia.
Qed.

(** On a square matrix the double loop never raises, and its result is
    the list of appended entries in loop order. *)
Lemma find_duplicates_collect m ids t :
  square (length ids) m →
  _find_duplicates m ids t
  = Ok (range 0 (length ids) ≫= λ i,
        range (i + 1) (length ids) ≫= λ j, duplicate_at m ids t i j).
Proof.
  intros Hsq. unfold _find_duplicates. cbv zeta.
  rewrite (for_each_collect _ _
             (λ i, range (i + 1) (length ids) ≫= λ j, duplicate_at m ids t i j));
    [done|].
  intros i acc Hi. apply elem_of_range in Hi.
  apply for_each_collect. intros j acc' Hj. apply elem_of_range in Hj.
  destruct (square_get _ m i j Hsq) as [s Hs]; [lia..|].
  unfold duplicate_at. rewrite Hs. cbn.
  destruct (lookup_lt_is_Some_2 ids i) as [a Ha]; [lia|].
  destruct (lookup_lt_is_Some_2 ids j) as [b Hb]; [lia|].
  unfold index. rewrite Ha, Hb.
  destruct (Qltb t s); cbn; [done|by rewrite app_nil_r].
Qed.

Lemma elem_of_duplicates m ids t d :
  d ∈ (range 0 (length ids) ≫= λ i,
       range (i + 1) (length ids) ≫= λ j, duplicate_at m ids t i j)
  ↔ ∃ i j, (i < j < length ids)%nat
           ∧ ids !! i = Some (image_a d) ∧ ids !! j = Some (image_b d)
           ∧ matrix_get m i j = Ok (similarity d)
           ∧ (t < similarity d)%Q.
Proof.
  rewrite list_elem_of_bind. split.
  - intros (i & Hd & Hi). apply list_elem_of_bind in Hd as (j & Hd & Hj).
    apply elem_of_range in Hi, Hj. exists i, j. split; [lia|].
    unfold duplicate_at in Hd.
    destruct (matrix_get m i j) as [s|]; [|by apply elem_of_nil in Hd].
    destruct (ids !! i) as [a|]; [|by apply elem_of_nil in Hd].
    destruct (ids !! j) as [b|]; [|by apply elem_of_nil in Hd].
    destruct (Qltb t s) eqn:E; [|by apply elem_of_nil in Hd].
    apply list_elem_of_singleton in Hd as ->. cbn.
    by apply Qltb_lt in E.
  - intros (i & j & Hij & Ha & Hb & Hs & Hlt).
    exists i. split; [|apply elem_of_range; lia].
    apply list_elem_of_bind. exists j. split; [|apply elem_of_range; lia].
    unfold duplicate_at. rewrite Hs, Ha, Hb.
    apply Qltb_lt in Hlt. rewrite Hlt.
    destruct d. apply list_elem_of_singleton. done.
Qed.

(** C3. On an n-by-n similarity matrix [_find_duplicates] returns, for
    every threshold, a list in which the entry for a pair [(i,j)],
    [i<j<n], occurs if and only if [matrix[i,j]] is strictly greater
    than the threshold, and every reported entry stems from such a
    pair; hence the duplicates at a larger threshold are among those at
    a smaller one. *)
Theorem duplicates_strict_and_monotone (m : matrix) (ids : list string)
    (t1 t2 : Q) :
  square (length ids) m → (t1 < t2)%Q →
  ∃ d1 d2,
    _find_duplicates m ids t1 = Ok d1
    ∧ _find_duplicates m ids t2 = Ok d2
    ∧ (∀ t d, (t, d) ∈ [(t1, d1); (t2, d2)] →
         (∀ i j a b s, (i < j)%nat →
            ids !! i = Some a → ids !! j = Some b → matrix_get m i j = Ok s →
            (mkDuplicate a b s ∈ d ↔ (t < s)%Q))
         ∧ (∀ x, x ∈ d →
              ∃ i j, (i < j < length ids)%nat
                     ∧ ids !! i = Some (image_a x)
                     ∧ ids !! j = Some (image_b x)
                     ∧ matrix_get m i j = Ok (similarity x)))
    ∧ (∀ x, x ∈ d2 → x ∈ d1).
Proof.
  intros Hsq Hlt. eexists _, _.
  split; [by apply find_duplicates_collect|].
  split; [by apply find_duplicates_collect|].
  split.
  - intros t d Hin.
    assert (Hd : d = (range 0 (length ids) ≫= λ i,
                      range (i + 1) (length ids) ≫= λ j,
                      duplicate_at m ids t i j)).
    { apply elem_of_cons in Hin as [[= -> ->]|Hin]; [done|].
      apply list_elem_of_singleton in Hin as [= -> ->]. done. }
    rewrite Hd. clear Hin Hd. split.
    + intros i j a b s Hij Ha Hb Hs. rewrite elem_of_duplicates. cbn. split.
      * intros (i' & j' & _ & _ & _ & _ & H). done.
      * intros H. exists i, j. split; [|done].
        apply lookup_lt_Some in Hb. lia.
    + intros x Hx. apply elem_of_duplicates in Hx as (i & j & ? & ? & ? & ? & _).
      eauto 10.
  - intros x Hx. apply elem_of_duplicates in Hx as (i & j & ? & ? & ? & ? & Hx).
    apply elem_of_duplicates. exists i, j.
    split; [done|]. split; [done|]. split; [done|]. split; [done|].
    eapply Qlt_trans; eauto.
Qed.

Lemma duplicates_strict_and_monotone_witness :
  let m := [[1; 95 # 100]; [95 # 100; 1]]%Q in
  let ids := ["img1"; "img2"] in
  _find_duplicates m ids (92 # 100) = Ok [mkDuplicate "img1" "img2" (95 # 100)]
  ∧ _find_duplicates m ids (95 # 100) = Ok []
  ∧ ∀ x, x ∈ ([] : list duplicate) →
         x ∈ [mkDuplicate "img1" "img2" (95 # 100)].
Proof.
  intros m ids.
  destruct (duplicates_strict_and_monotone m ids (92 # 100) (95 # 100))
    as (d1 & d2 & H1 & H2 & _ & Hsub).
  - split; [reflexivity|]. repeat constructor.
  - reflexivity.
  - vm_compute in H1, H2. injection H1 as <-. injection H2 as <-.
    split; [reflexivity|]. split; [reflexivity|]. exact Hsub.
Defined.

(** The running maximum of the loop of [get_diversity_score]. *)
Lemma max_similarity_loop r image_id selected (sims : list Q) (acc : Q) :
  Forall2 (λ sel q, get_similarity r image_id sel = Ok q) selected sims →
  ∃ M, for_each selected (λ selected_id max_similarity,
         similarity ← get_similarity r image_id selected_id;
         Ok (Qmax max_similarity similarity)) acc = Ok M
       ∧ (acc <= M)%Q
       ∧ (∀ q, q ∈ sims → (q <= M)%Q)
       ∧ (M == acc ∨ ∃ q, q ∈ sims ∧ M == q)%Q.
Proof.
  intros H. revert acc.
  induction H as [|sel q selected sims Hq _ IH]; intros acc; cbn.
  - exists acc. split; [done|]. split; [apply Qle_refl|].
    split; [|by left]. intros q Hq. by apply elem_of_nil in Hq.
  - rewrite Hq. cbn.
    destruct (IH (Qmax acc q)) as (M & -> & Hacc & Hall & Hor).
    exists M. split; [done|].
    pose proof (Q.le_max_l acc q). pose proof (Q.le_max_r acc q).
    split; [lra|]. split.
    + intros q' Hq'. apply elem_of_cons in Hq' as [->|Hq']; [lra|auto].
    + destruct Hor as [Hor|(q' & Hq' & Hor)].
      * destruct (Q.max_dec acc q) as [E|E]; rewrite E in Hor.
        -- by left.
        -- right. exists q. split; [apply elem_of_cons; by left|done].
      * right. exists q'. split; [apply elem_of_cons; by right|done].
Qed.

(** C4 (as stated) fails: with a negative similarity between the
    candidate and the only selected image, the code returns 1 where
    [1 - max similarity] is 3/2. *)
Lemma diversity_counterexample :
  ∃ r, result_init [[1; -(1 # 2)]; [-(1 # 2); 1]]%Q ["a"; "b"] = Ok r
     ∧ get_similarity r "a" "b" = Ok (-(1 # 2))%Q
     ∧ (get_diversity_score "a" ["b"] r == 1)%Q
     ∧ ¬ (get_diversity_score "a" ["b"] r == 1 - -(1 # 2))%Q.
Proof.
  eexists. split; [vm_compute; reflexivity|].
  split; [reflexivity|]. split; [reflexivity|]. by vm_compute.
Qed.

(** C4 (amended). Against an empty selection the diversity score is
    exactly 1.0.  Against a non-empty selection whose similarities to
    the candidate are [sims], it is [1 - M], where [M] is the largest
    of 0 and the members of [sims]: it equals 1 minus the maximum
    similarity whenever some similarity is non-negative, and is never
    above 1. *)
Theorem diversity_score_clipped_max (image_id : string)
    (selected_ids : list string) (r : SimilarityResult) (sims : list Q) :
  Forall2 (λ sel q, get_similarity r image_id sel = Ok q) selected_ids sims →
  get_diversity_score image_id [] r = 1.0%Q
  ∧ (selected_ids ≠ [] →
     ∃ M, (get_diversity_score image_id selected_ids r == 1 - M)%Q
          ∧ (0 <= M)%Q
          ∧ (∀ q, q ∈ sims → (q <= M)%Q)
          ∧ (M == 0 ∨ ∃ q, q ∈ sims ∧ M == q)%Q
          ∧ ((∃ q, q ∈ sims ∧ 0 <= q)%Q → ∃ q, q ∈ sims ∧ (M == q)%Q)).
Proof.
  intros Hsims. split; [done|]. intros Hne.
  destruct (max_similarity_loop r image_id selected_ids sims 0.0%Q Hsims)
    as (M & HM & H0 & Hall & Hor).
  exists M. unfold get_diversity_score.
  destruct selected_ids as [|sel rest]; [done|]. rewrite HM.
  split; [lra|]. split; [lra|]. split; [done|].
  split.
  { destruct Hor as [Hor|Hor]; [left; lra|by right]. }
  intros (q & Hq & Hq0).
  destruct Hor as [Hor|Hor]; [|done].
  exists q. split; [done|]. specialize (Hall q Hq). lra.
Qed.

Lemma diversity_score_clipped_max_witness :
  let r := mkSimilarityResult
             [[1; 8 # 10; 2 # 10]; [8 # 10; 1; 3 # 10]; [2 # 10; 3 # 10; 1]]%Q
             ["img1"; "img2"; "img3"] [] in
  ∃ M, (get_diversity_score "img3" ["img1"; "img2"] r == 1 - M)%Q
       ∧ (M == 3 # 10)%Q.
Proof.
  intros r.
  destruct (diversity_score_clipped_max "img3" ["img1"; "img2"] r
              [2 # 10; 3 # 10]%Q) as (_ & H).
  { repeat constructor. }
  destruct H as (M & HM & _ & Hall & _ & Hmax); [done|].
  exists M. split; [done|].
  destruct Hmax as (q & Hq & HMq).
  { exists (2 # 10)%Q. split; [apply elem_of_cons; by left|done]. }
  assert (H3 : (3 # 10 <= M)%Q).
  { apply Hall. apply elem_of_cons. right. apply elem_of_cons. by left. }
  apply elem_of_cons in Hq as [->|Hq].
  - rewrite HMq in H3. by vm_compute in H3.
  - apply list_elem_of_singleton in Hq as ->. done.
Defined.

End SimilarityFacts.

(** ** Hero selection and ranking *)

Section EngineFacts.
Import Embeddings Similarity Engine Spec.

(** [max_from] returns the first element of [best :: xs] whose key is
    maximal. *)
Lemma max_from_first {A} (key : A → Q) (xs : list A) (best : A) :
  ∃ k, (best :: xs) !! k = Some (max_from key best xs)
       ∧ (∀ j x, (best :: xs) !! j = Some x →
            (key x <= key (max_from key best xs))%Q)
       ∧ (∀ j x, (j < k)%nat → (best :: xs) !! j = Some x →
            (key x < key (max_from key best xs))%Q).
Proof.
  revert best. induction xs as [|x xs IH]; intros best; cbn [max_from].
  - exists 0%nat. split; [done|]. split.
    + intros [|j] y Hy; [|done]. injection Hy as ->. apply Qle_refl.
    + intros j y Hj. lia.
  - destruct (Qltb (key best) (key x)) eqn:E.
    + apply Qltb_lt in E.
      destruct (IH x) as (k & Hk & Hle & Hlt).
      exists (S k). split; [done|]. split.
      * intros [|j] y Hy.
        -- injection Hy as <-. specialize (Hle 0%nat x eq_refl). lra.
        -- by apply (Hle j).
      * intros [|j] y Hj Hy.
        -- injection Hy as <-. specialize (Hle 0%nat x eq_refl). lra.
        -- apply (Hlt j); [lia|done].
    + apply Qltb_ge in E.
      destruct (IH best) as (k & Hk & Hle & Hlt).
      pose proof (Hle 0%nat best eq_refl) as Hbest.
      destruct k as [|k].
      * exists 0%nat. split; [done|]. split; [|intros; lia].
        intros [|[|j]] y Hy.
        -- by apply (Hle 0%nat).
        -- injection Hy as <-. lra.
        -- by apply (Hle (S j)).
      * exists (S (S k)). split; [done|]. split.
        -- intros [|[|j]] y Hy.
           ++ by apply (Hle 0%nat).
           ++ injection Hy as <-. lra.
           ++ by apply (Hle (S j)).
        -- intros [|[|j]] y Hj Hy.
           ++ apply (Hlt 0%nat); [lia|done].
           ++ injection Hy as <-.
              specialize (Hlt 0%nat best ltac:(lia) eq_refl). lra.
           ++ apply (Hlt (S j)); [lia|done].
Qed.

Lemma max_from_scored {A} (f : A → Q) (xs : list A) (best : A) :
  max_from snd (best, f best) ((λ x, (x, f x)) <$> xs)
  = (max_from f best xs, f (max_from f best xs)).
Proof.
  revert best. induction xs as [|x xs IH]; intros best; cbn; [done|].
  destruct (Qltb (f best) (f x)); apply IH.
Qed.

Lemma select_hero_image_max_from image images duplicate_ids :
  _select_hero_image (image :: images) duplicate_ids
  = Ok (max_from (hero_score duplicate_ids) image images).
Proof.
  unfold _select_hero_image. cbn.
  by rewrite (max_from_scored (hero_score duplicate_ids)).
Qed.

Lemma select_hero_image_member images duplicate_ids :
  images ≠ [] →
  ∃ hero, _select_hero_image images duplicate_ids = Ok hero ∧ hero ∈ images.
Proof.
  destruct images as [|image images]; [done|]. intros _.
  rewrite select_hero_image_max_from. eexists. split; [done|].
  destruct (max_from_first (hero_score duplicate_ids) images image)
    as (k & Hk & _).
  by eapply list_elem_of_lookup_2.
Qed.

(** C2. For a non-empty batch [_select_hero_image] returns the image
    with the greatest hero score, where the hero score is the composite
    quality score, times 0.2 if the image id is in the duplicate set,
    times 1.1 if the resolution is at least 1200 by 800; among images
    with the greatest score it returns the first in input order. *)
Theorem hero_is_first_maximum (images : list ImageData)
    (duplicate_ids : gset string) :
  images ≠ [] →
  (∀ image,
     hero_score duplicate_ids image
     == Quality.composite_score (quality_metrics image)
        * (if bool_decide (id image ∈ duplicate_ids) then 0.2 else 1)
        * (if (1200 <=? (Quality.resolution (quality_metrics image)).1)%Z
              && (800 <=? (Quality.resolution (quality_metrics image)).2)%Z
           then 1.1 else 1))%Q
  ∧ ∃ hero k,
      _select_hero_image images duplicate_ids = Ok hero
      ∧ images !! k = Some hero
      ∧ (∀ j image, images !! j = Some image →
           (hero_score duplicate_ids image <= hero_score duplicate_ids hero)%Q)
      ∧ (∀ j image, (j < k)%nat → images !! j = Some image →
           (hero_score duplicate_ids image < hero_score duplicate_ids hero)%Q).
Proof.
  intros Hne. split.
  - intros image. unfold hero_score.
    destruct (Quality.resolution (quality_metrics image)) as [w h]. cbn.
    destruct (bool_decide _); destruct (_ && _); ring.
  - destruct images as [|image images]; [done|].
    rewrite select_hero_image_max_from.
    destruct (max_from_first (hero_score duplicate_ids) images image)
      as (k & Hk & Hle & Hlt).
    eauto 10.
Qed.

Lemma hero_is_first_maximum_witness :
  ∃ hero,
    _select_hero_image
      [sample_image "a" 70; sample_image "b" 90; sample_image "c" 90] ∅
    = Ok hero
    ∧ id hero = "b".
Proof.
  destruct (hero_is_first_maximum
              [sample_image "a" 70; sample_image "b" 90; sample_image "c" 90] ∅)
    as (_ & hero & k & Hsel & _); [done|].
  exists hero. split; [done|].
  vm_compute in Hsel. by injection Hsel as <-.
Defined.

(** C7 (as stated) fails for [update_weights]: weights summing to
    1.005 are accepted. *)
Lemma update_weights_counterexample :
  ¬ (0.6 + 0.405 == 1.0)%Q
  ∧ update_weights engine_init 0.6 0.405 = Ok (mkEngine 0.6 0.405 0.3).
Proof. split; [by vm_compute|reflexivity]. Qed.

(** C7 (amended). [analyze_similarity] raises [ValueError] whenever the
    number of embeddings differs from the number of image ids;
    [update_weights] raises [ValueError] whenever the sum of the two
    weights is more than 0.01 away from 1.0, and a call that returns
    has stored the two given weights and left the penalty as it was;
    [set_duplicate_penalty] raises [ValueError] whenever the penalty is
    outside [[0,1]], and stores a penalty inside it. *)
Theorem contract_violations_raise :
  (∀ cosine_similarity embeddings image_ids threshold,
     length embeddings ≠ length image_ids →
     analyze_similarity cosine_similarity embeddings image_ids threshold
     = Raise ValueError)
  ∧ (∀ self quality_weight diversity_weight,
       (0.01 < Qabs (quality_weight + diversity_weight - 1.0))%Q →
       update_weights self quality_weight diversity_weight = Raise ValueError)
  ∧ (∀ self quality_weight diversity_weight self',
       update_weights self quality_weight diversity_weight = Ok self' →
       self' = mkEngine quality_weight diversity_weight (duplicate_penalty self)
       ∧ (Qabs (quality_weight + diversity_weight - 1.0) <= 0.01)%Q)
  ∧ (∀ self penalty,
       ¬ (0 <= penalty ∧ penalty <= 1)%Q →
       set_duplicate_penalty self penalty = Raise ValueError)
  ∧ (∀ self penalty,
       (0 <= penalty ∧ penalty <= 1)%Q →
       set_duplicate_penalty self penalty
       = Ok (mkEngine (quality_weight self) (diversity_weight self) penalty)).
Proof.
  split; [|split; [|split; [|split]]].
  - intros cosine embeddings ids t Hne. unfold analyze_similarity.
    destruct (length embeddings =? length ids)%nat eqn:E; [|done].
    apply Nat.eqb_eq in E. done.
  - intros self q d H. unfold update_weights.
    apply Qltb_lt in H. by rewrite H.
  - intros self q d self'. unfold update_weights.
    destruct (Qltb 0.01 (Qabs (q + d - 1.0))) eqn:E; [done|].
    intros [= <-]. split; [done|]. by apply Qltb_ge.
  - intros self p H. unfold set_duplicate_penalty.
    destruct (Qleb 0 p) eqn:E0; [|done]. destruct (Qleb p 1) eqn:E1; [|done].
    apply Qleb_le in E0, E1. exfalso. by apply H.
  - intros self p [H0 H1]. unfold set_duplicate_penalty.
    apply Qleb_le in H0, H1. by rewrite H0, H1.
Qed.

Lemma contract_violations_raise_witness :
  analyze_similarity (λ _, Ok []) [[1%Q]; [1%Q]] ["img1"] 0.92%Q
  = Raise ValueError
  ∧ update_weights engine_init 0.7 0.4 = Raise ValueError
  ∧ (Qabs (0.7 + 0.3 - 1.0) <= 0.01)%Q
  ∧ set_duplicate_penalty engine_init 1.5 = Raise ValueError
  ∧ set_duplicate_penalty engine_init 0.5 = Ok (mkEngine 0.6 0.4 0.5).
Proof.
  destruct contract_violations_raise as (H1 & H2 & H3 & H4 & H5).
  split; [apply H1; cbn; lia|].
  split; [apply H2; reflexivity|].
  split; [apply (H3 engine_init 0.7%Q 0.3%Q (mkEngine 0.7 0.3 0.3) eq_refl)|].
  split; [apply H4; intros [_ H]; by vm_compute in H|].
  apply (H5 engine_init). split; by vm_compute.
Defined.

(** *** The full ranking *)

Lemma eye_square n : square n (eye n).
Proof.
  unfold eye. split.
  - by rewrite length_fmap, length_seq.
  - apply Forall_fmap, Forall_forall. intros i _. cbn.
    by rewrite length_fmap, length_seq.
Qed.

Lemma compute_similarity_matrix_square cosine_similarity embeddings :
  (∀ es m, cosine_similarity es = Ok m → square (length es) m) →
  square (length embeddings)
    (compute_similarity_matrix cosine_similarity embeddings).
Proof.
  intros Hshape. unfold compute_similarity_matrix.
  destruct embeddings as [|e es]; [by split|].
  destruct (cosine_similarity (e :: es)) as [m|] eqn:E; cbn;
    [|apply eye_square].
  destruct (log_max_below_one m); cbn; [|apply eye_square].
  apply (Hshape (e :: es) m E).
Qed.

Lemma result_init_square m ids :
  square (length ids) m →
  ∃ d, result_init m ids = Ok (mkSimilarityResult m ids d).
Proof.
  intros Hsq. unfold result_init.
  rewrite find_duplicates_collect by done. cbn. eauto.
Qed.

Lemma analyze_similarity_square cosine_similarity embeddings ids t :
  (∀ es m, cosine_similarity es = Ok m → square (length es) m) →
  length embeddings = length ids →
  ∃ r, analyze_similarity cosine_similarity embeddings ids t = Ok r.
Proof.
  intros Hshape Hlen. unfold analyze_similarity.
  rewrite (proj2 (Nat.eqb_eq _ _) Hlen). cbn.
  destruct embeddings as [|e es]; [by eexists|].
  pose proof (compute_similarity_matrix_square _ (e :: es) Hshape) as Hsq.
  rewrite Hlen in Hsq.
  destruct (result_init_square _ ids Hsq) as [d ->]. cbn.
  destruct (negb _); [|eauto].
  rewrite find_duplicates_collect by done. cbn. eauto.
Qed.

Lemma insert_desc_Permutation {A} (key : A → Q) x (l : list A) :
  insert_desc key x l ≡ₚ x :: l.
Proof.
  induction l as [|y l IH]; cbn; [done|].
  destruct (Qltb (key x) (key y)); [|done].
  rewrite IH. apply Permutation_swap.
Qed.

Lemma sorted_desc_Permutation {A} (key : A → Q) (l : list A) :
  sorted_desc key l ≡ₚ l.
Proof.
  induction l as [|x l IH]; cbn; [done|].
  rewrite insert_desc_Permutation. by rewrite IH.
Qed.

(** With distinct ids, removing the images that carry the hero's id
    removes the hero and nothing else. *)
Lemma remaining_images_Permutation (images : list ImageData) hero :
  NoDup (id <$> images) → hero ∈ images →
  images ≡ₚ hero :: filter (λ img, id img ≠ id hero) images.
Proof.
  induction images as [|x images IH]; intros Hnd Hin;
    [by apply elem_of_nil in Hin|].
  cbn in Hnd. apply NoDup_cons in Hnd as [Hx Hnd].
  apply elem_of_cons in Hin as [->|Hin].
  - rewrite filter_cons_False by (intros H; by apply H).
    f_equiv. rewrite filter_Forall_id; [done|].
    apply Forall_forall. intros y Hy Heq. apply Hx.
    rewrite <- Heq. by apply list_elem_of_fmap_2.
  - assert (id x ≠ id hero).
    { intros Heq. apply Hx. rewrite Heq. by apply list_elem_of_fmap_2. }
    rewrite filter_cons_True by done.
    rewrite (IH Hnd Hin) at 1. apply Permutation_swap.
Qed.

(** The items built by the [enumerate] loop of
    [generate_recommendations], counting from [a]. *)
Lemma ranked_positions (a : nat)
    (ranked : list (ImageData * Q * reason_text)) :
  let items := imap (λ i '(image, score, reason),
                 mkRecommendationItem (a + i) (id image) score reason false)
                 ranked in
  position <$> items = seq a (length ranked)
  ∧ Forall (λ r, is_hero r = false) items
  ∧ image_id <$> items = (λ x, id x.1.1) <$> ranked.
Proof.
  revert a. induction ranked as [|[[image score] reason] ranked IH];
    intros a; [done|].
  destruct (IH (S a)) as (IH1 & IH2 & IH3).
  assert (Hext : imap ((λ i '(image, score, reason),
                  mkRecommendationItem (a + i) (id image) score reason false)
                  ∘ S) ranked
                 = imap (λ i '(image, score, reason),
                     mkRecommendationItem (S a + i) (id image) score reason false)
                     ranked).
  { apply imap_ext. intros i [[??]?] _. cbn. f_equal. lia. }
  cbn [imap length seq fmap list_fmap]. rewrite Hext.
  split; [|split].
  - cbn. rewrite Nat.add_0_r. f_equal. exact IH1.
  - constructor; [done|exact IH2].
  - cbn. f_equal. exact IH3.
Qed.

(** C1. For a non-empty list of images with pairwise distinct ids and
    as many embeddings, [generate_recommendations] returns a result
    whose positions, in list order, are 1, 2, ..., n; the first item
    is the only one flagged as hero and has position 1; and every
    input image is recommended exactly once.  ([cosine_similarity] is
    assumed to return an n-by-n matrix for n embeddings whenever it
    returns.) *)
Theorem recommendations_positions_and_hero
    (self : CarouselRecommendationEngine)
    (cosine_similarity : list ndarray → result matrix)
    (images : list ImageData) (embeddings : list ndarray) (threshold : Q) :
  (∀ es m, cosine_similarity es = Ok m → square (length es) m) →
  images ≠ [] → NoDup (id <$> images) →
  length embeddings = length images →
  ∃ res hero_item rest,
    generate_recommendations self cosine_similarity images embeddings threshold
    = Ok res
    ∧ recommendations res = hero_item :: rest
    ∧ position <$> recommendations res = seq 1 (length images)
    ∧ is_hero hero_item = true ∧ position hero_item = 1%nat
    ∧ Forall (λ r, is_hero r = false) rest
    ∧ filter (λ r, is_hero r = true) (recommendations res) = [hero_item]
    ∧ hero_image res = Some hero_item
    ∧ image_id <$> recommendations res ≡ₚ id <$> images.
Proof.
  intros Hshape Hne Hnd Hlen.
  destruct images as [|image0 images0] eqn:Himages; [done|].
  rewrite <- Himages in *. clear Hne.
  destruct (analyze_similarity_square cosine_similarity embeddings
              (id <$> images) threshold Hshape) as [r Hr];
    [by rewrite length_fmap|].
  set (duplicate_ids := get_duplicate_ids r).
  destruct (select_hero_image_member images duplicate_ids)
    as (hero & Hsel & Hin); [by rewrite Himages|].
  set (remaining := filter (λ img, id img ≠ id hero) images).
  set (ranked := _rank_remaining_images self remaining [hero] r duplicate_ids).
  assert (Hranked : (λ x : ImageData * Q * reason_text, x.1.1) <$> ranked
                    ≡ₚ remaining).
  { unfold ranked, _rank_remaining_images. cbv zeta.
    rewrite sorted_desc_Permutation, <- list_fmap_compose.
    generalize remaining. intros l. induction l as [|x l IH]; [done|].
    cbn. by f_equiv. }
  pose proof (remaining_images_Permutation images hero Hnd Hin) as Hperm.
  fold remaining in Hperm.
  assert (Hlr : length images = S (length ranked)).
  { rewrite Hperm. cbn. f_equal.
    rewrite <- Hranked. by rewrite length_fmap. }
  destruct (ranked_positions 2 ranked) as (Hpos & Hflags & Hids).
  eexists _, _, _.
  split.
  { unfold generate_recommendations. rewrite Himages at 1.
    rewrite Hr. cbn [mbind result_bind]. fold duplicate_ids.
    rewrite Hsel. cbn [mbind result_bind].
    fold remaining. fold ranked. reflexivity. }
  cbn [recommendations recommendation_result app].
  split; [reflexivity|].
  split; [cbn [fmap list_fmap position]; rewrite Hpos, Hlr; reflexivity|].
  split; [done|]. split; [done|]. split; [exact Hflags|].
  assert (Hfilter : ∀ l : list RecommendationItem,
            Forall (λ r, is_hero r = false) l →
            filter (λ r, is_hero r = true) l = []).
  { induction 1 as [|x l Hx _ IH]; [done|].
    rewrite filter_cons_False by (rewrite Hx; done). exact IH. }
  split.
  { rewrite filter_cons_True by done. by rewrite Hfilter. }
  split.
  { cbn [hero_image recommendation_result].
    rewrite filter_cons_True by done. by rewrite Hfilter. }
  cbn [fmap list_fmap image_id]. rewrite Hids.
  transitivity (id <$> hero :: remaining); [|by rewrite <- Hperm].
  cbn [fmap list_fmap]. f_equiv.
  rewrite <- Hranked, <- list_fmap_compose. done.
Qed.

(** The scenario of three images scoring 90, 70 and 50 with pairwise
    orthogonal embeddings, and a similarity function on unit vectors
    (their dot products). *)
Lemma dot_products_square es m :
  dot_products es = Ok m → square (length es) m.
Proof.
  intros [= <-]. split.
  - by rewrite length_fmap.
  - apply Forall_fmap, Forall_forall. intros a _. cbn.
    by rewrite length_fmap.
Qed.

Lemma recommendations_positions_and_hero_witness :
  ∃ res,
    generate_recommendations engine_init dot_products
      [sample_image "x" 70; sample_image "y" 90; sample_image "z" 50]
      [[1; 0; 0]; [0; 1; 0]; [0; 0; 1]]%Q 0.92%Q = Ok res
    ∧ position <$> recommendations res = [1; 2; 3]%nat
    ∧ image_id <$> recommendations res = ["y"; "x"; "z"]
    ∧ is_hero <$> recommendations res = [true; false; false].
Proof.
  destruct (recommendations_positions_and_hero engine_init dot_products
              [sample_image "x" 70; sample_image "y" 90; sample_image "z" 50]
              [[1; 0; 0]; [0; 1; 0]; [0; 0; 1]]%Q 0.92%Q)
    as (res & h & rest & Hres & _ & Hpos & _).
  - apply dot_products_square.
  - done.
  - apply (bool_decide_unpack _). by vm_compute.
  - reflexivity.
  - exists res. split; [done|]. split; [done|].
    vm_compute in Hres. by injection Hres as <-.
Defined.

End EngineFacts.

(** ** The embedding generator without the model libraries *)

Section GeneratorFacts.
Import Embeddings.

Variable clip_model : Type.
Variable create_model : result clip_model.
Variable _get_image_hash : string → string.
Variable mock_vector : string → ndarray.
Variable tensor : Type.
Variable load_image : string → result tensor.
Variable encode_image : clip_model → list tensor → result (list ndarray).

(** C6. With [HAS_ML_DEPS] false, [initialize] returns without loading
    a model; on the generator it leaves behind, [generate_embedding]
    returns the mock vector of the image's fingerprint, but
    [generate_embeddings_batch] raises [RuntimeError] for every list of
    paths, the empty one included. *)
Theorem batch_raises_without_ml_deps (image_paths : list string) :
  let '(g, started) := initialize false clip_model create_model
                         (generator_init clip_model) in
  started = Ok ()
  ∧ model clip_model g = None
  ∧ (∀ image_path,
       generate_embedding false clip_model _get_image_hash mock_vector
         tensor load_image encode_image g image_path
       = (g, Ok (mock_vector (_get_image_hash image_path))))
  ∧ generate_embeddings_batch clip_model _get_image_hash tensor load_image
      encode_image g image_paths
    = (g, Raise RuntimeError).
Proof. cbn. done. Qed.

End GeneratorFacts.

(** * Further properties *)

(** ** Quality metrics, continued *)

Section QualityMore.
Import Quality.
Open Scope Q_scope.

(** X1. [QualityMetrics(...)] never raises, whatever the measurements:
    the aspect-ratio flag, which alone leads to the unguarded division
    [width / height] of the suggestions, is raised only for a positive
    height; for a height of zero or less the aspect ratio is taken as 1. *)
Theorem quality_metrics_never_raises (s b c : Q) (w h : Z) :
  ∃ m, __init__ s b c (w, h) = Ok m
     ∧ ("unusual_aspect_ratio" ∈ flags m → (0 < h)%Z)
     ∧ ((h <= 0)%Z → d_aspect_ratio (to_dict m) = 1).
Proof.
  destruct (init_total s b c (w, h)) as [m Hm]. exists m. split; [done|].
  apply init_fields in Hm as (_ & _ & _ & Hr & _ & Hf & _).
  split.
  - rewrite Hf. apply unusual_aspect_ratio_height.
  - intros Hh. unfold to_dict. rewrite Hr. cbn.
    destruct (0 <? h)%Z eqn:E; [apply Z.ltb_lt in E; lia|done].
Qed.

Lemma quality_metrics_never_raises_witness :
  ∃ m, __init__ 400 120 40 (1000, 0)%Z = Ok m
     ∧ d_aspect_ratio (to_dict m) = 1.
Proof.
  destruct (quality_metrics_never_raises 400 120 40 1000 0) as (m & Hm & _ & H).
  exists m. split; [done|]. by apply H.
Defined.

Lemma composite_spec_monotone s s' b b' c c' w w' h h' :
  s <= s' → Qabs (b' - 128) <= Qabs (b - 128) → c <= c' →
  (w * h <= w' * h')%Z →
  Spec.composite_score_spec s b c w h <= Spec.composite_score_spec s' b' c' w' h'.
Proof.
  intros Hs Hb Hc Hp. unfold Spec.composite_score_spec.
  assert (H1 : Qmin (s / 1000) 1 <= Qmin (s' / 1000) 1).
  { apply Q.min_le_compat_r. apply Qmult_le_compat_r; [done|by vm_compute]. }
  assert (H3 : Qmin (c / 64) 1 <= Qmin (c' / 64) 1).
  { apply Q.min_le_compat_r. apply Qmult_le_compat_r; [done|by vm_compute]. }
  assert (H4 : Qmin (inject_Z (w * h) / inject_Z (1920 * 1080)) 1
               <= Qmin (inject_Z (w' * h') / inject_Z (1920 * 1080)) 1).
  { apply Q.min_le_compat_r. apply Qmult_le_compat_r; [|by vm_compute].
    by rewrite <- Zle_Qle. }
  set (x1 := Qmin (s / 1000) 1) in *. set (y1 := Qmin (s' / 1000) 1) in *.
  set (x3 := Qmin (c / 64) 1) in *. set (y3 := Qmin (c' / 64) 1) in *.
  set (x4 := Qmin (inject_Z (w * h) / _) 1) in *.
  set (y4 := Qmin (inject_Z (w' * h') / _) 1) in *.
  set (x2 := Qabs (b - 128)) in *. set (y2 := Qabs (b' - 128)) in *.
  rewrite <- !clamp_min_max.
  apply Q.min_le_compat_r, Q.max_le_compat_r.
  unfold Qdiv. change (/ 128) with (1 # 128). lra.
Qed.

(** X2. The composite score is monotone: more sharpness, more contrast,
    more pixels, and a brightness closer to 128 never lower it. *)
Theorem composite_score_monotone (s s' b b' c c' : Q) (w w' h h' : Z) :
  s <= s' → Qabs (b' - 128) <= Qabs (b - 128) → c <= c' →
  (w * h <= w' * h')%Z →
  _calculate_composite_score s b c (w, h)
  <= _calculate_composite_score s' b' c' (w', h').
Proof.
  intros. rewrite !composite_score_refines. by apply composite_spec_monotone.
Qed.

Lemma composite_score_monotone_witness :
  _calculate_composite_score 300 90 30 (800, 600)%Z
  <= _calculate_composite_score 500 120 45 (1200, 800)%Z.
Proof.
  apply composite_score_monotone; by vm_compute.
Defined.

(** X3. The flag list has no repeated entry and at most six entries, one
    per block of [_generate_flags] at most. *)
Theorem flags_distinct_at_most_six (s b c : Q) (w h : Z) :
  NoDup (_generate_flags s b c (w, h))
  ∧ (length (_generate_flags s b c (w, h)) <= 6)%nat.
Proof.
  rewrite generate_flags_blocks.
  unfold blur_analysis, brightness_analysis, contrast_analysis,
    resolution_categories, pixel_density_warnings, aspect_ratio_check.
  repeat case_match;
    (split; [apply (bool_decide_unpack _); by vm_compute|cbn; lia]).
Qed.

(** X4. The pixel-count flags never come alone: [very_low_pixel_count]
    implies [inadequate_resolution], and [low_pixel_count] implies
    [inadequate_resolution] or [low_resolution]. *)
Theorem pixel_count_flags_imply_resolution_flags (s b c : Q) (w h : Z) :
  let flags := _generate_flags s b c (w, h) in
  ("very_low_pixel_count" ∈ flags → "inadequate_resolution" ∈ flags)
  ∧ ("low_pixel_count" ∈ flags →
     "inadequate_resolution" ∈ flags ∨ "low_resolution" ∈ flags).
Proof.
  cbv zeta. rewrite generate_flags_blocks, !elem_of_app.
  assert (Hres : ∀ x, x ∈ resolution_categories (w, h) [] →
            x ∈ blur_analysis s [] ∨ x ∈ brightness_analysis b [] ∨
            x ∈ contrast_analysis c [] ∨ x ∈ resolution_categories (w, h) [] ∨
            x ∈ pixel_density_warnings (w, h) [] ∨
            x ∈ aspect_ratio_check (w, h) []) by tauto.
  assert (Hpix : ∀ x, x ∈ ["very_low_pixel_count"; "low_pixel_count"] →
            (x ∈ blur_analysis s [] ∨ x ∈ brightness_analysis b [] ∨
             x ∈ contrast_analysis c [] ∨ x ∈ resolution_categories (w, h) [] ∨
             x ∈ pixel_density_warnings (w, h) [] ∨
             x ∈ aspect_ratio_check (w, h) []) →
            x ∈ pixel_density_warnings (w, h) []).
  { intros x Hx [Hin|[Hin|[Hin|[Hin|[Hin|Hin]]]]]; [..|done|];
      exfalso; revert Hin;
      unfold blur_analysis, brightness_analysis, contrast_analysis,
        resolution_categories, aspect_ratio_check;
      apply elem_of_cons in Hx as [->|Hx];
      try (apply list_elem_of_singleton in Hx as ->);
      repeat case_match; intros Hin;
      by (apply (bool_decide_pack _) in Hin; vm_compute in Hin). }
  split; intros H.
  - apply Hpix in H; [|apply elem_of_cons; by left].
    apply Hres. unfold pixel_density_warnings, resolution_categories in *.
    destruct (w * h <? 480000)%Z eqn:E1.
    + apply Z.ltb_lt in E1.
      destruct ((w <? 800)%Z || (h <? 600)%Z) eqn:E2;
        [apply list_elem_of_singleton; done|].
      apply orb_false_iff in E2 as [Ew Eh].
      apply Z.ltb_ge in Ew, Eh. nia.
    + repeat case_match;
        by (apply (bool_decide_pack _) in H; vm_compute in H).
  - apply Hpix in H;
      [|apply elem_of_cons; right; apply elem_of_cons; by left].
    unfold pixel_density_warnings in H.
    destruct (w * h <? 480000)%Z eqn:E1;
      [by (apply (bool_decide_pack _) in H; vm_compute in H)|].
    destruct (w * h <? 960000)%Z eqn:E2;
      [|by (apply (bool_decide_pack _) in H; vm_compute in H)].
    apply Z.ltb_lt in E2.
    destruct ((w <? 800)%Z || (h <? 600)%Z) eqn:E3.
    + left. apply Hres. unfold resolution_categories. rewrite E3.
      by apply list_elem_of_singleton.
    + right. apply Hres. unfold resolution_categories. rewrite E3.
      destruct ((w <? 1200)%Z || (h <? 800)%Z) eqn:E4;
        [by apply list_elem_of_singleton|].
      apply orb_false_iff in E4 as [Ew Eh].
      apply Z.ltb_ge in Ew, Eh. nia.
Qed.

Lemma pixel_count_flags_imply_resolution_flags_witness :
  "inadequate_resolution" ∈ _generate_flags 400 120 40 (640, 480)%Z.
Proof.
  destruct (pixel_count_flags_imply_resolution_flags 400 120 40 640 480)
    as [H _].
  apply H. apply (bool_decide_unpack _). by vm_compute.
Defined.

End QualityMore.

Section QualityMore2.
Import Quality.
Open Scope Q_scope.

Lemma quality_grade_poor comp : comp < 60 → quality_grade comp = POOR.
Proof.
  intros H. unfold quality_grade.
  rewrite (proj2 (Qleb_gt 90 comp)) by lra.
  rewrite (proj2 (Qleb_gt 80 comp)) by lra.
  rewrite (proj2 (Qleb_gt 70 comp)) by lra.
  by rewrite (proj2 (Qleb_gt 60 comp)) by lra.
Qed.

(** X5. Without OpenCV the analysis uses fixed measurements (sharpness
    150, brightness 128, contrast 45) with the real resolution: every
    image that opens is then flagged [slightly_blurry], scores below 60
    whatever its size, and is graded POOR. *)
Theorem without_cv2_every_image_is_poor (image : image_file) (w h : Z) :
  pil_size image = Ok (w, h) →
  ∃ m, analyze_image_quality false image = Ok m
     ∧ resolution m = (w, h)
     ∧ "slightly_blurry" ∈ flags m
     ∧ composite_score m < 60
     ∧ d_quality_grade (to_dict m) = POOR.
Proof.
  intros Hsize.
  destruct (init_total 150.0 128.0 45.0 (w, h)) as [m Hm].
  exists m. split.
  { unfold analyze_image_quality. cbn [negb]. rewrite Hsize.
    cbn [mbind result_bind]. by rewrite Hm. }
  apply init_fields in Hm as (_ & _ & _ & Hr & Hc & Hf & _).
  split; [done|]. split.
  { rewrite Hf, generate_flags_blocks. apply elem_of_app. left.
    apply (bool_decide_unpack _). by vm_compute. }
  assert (Hlt : composite_score m < 60).
  { rewrite Hc, composite_score_refines. unfold Spec.composite_score_spec.
    assert (E1 : Qmin (150.0 / 1000) 1 == 15 # 100) by (by vm_compute).
    assert (E2 : Qabs (128.0 - 128) == 0) by (by vm_compute).
    assert (E3 : Qmin (45.0 / 64) 1 == 45 # 64) by (by vm_compute).
    pose proof (Q.le_min_r (inject_Z (w * h) / inject_Z (1920 * 1080)) 1) as H4.
    set (x4 := Qmin (inject_Z (w * h) / inject_Z (1920 * 1080)) 1) in *.
    rewrite E1, E2, E3.
    unfold Qdiv. change (/ 128) with (1 # 128).
    unfold Spec.clamp.
    destruct (Qltb _ 0) eqn:E0; [lra|].
    destruct (Qltb 100 _) eqn:E5; [apply Qltb_lt in E5|]. all: lra. }
  split; [done|].
  unfold to_dict. rewrite Hr. cbn. by apply quality_grade_poor.
Qed.

Lemma without_cv2_every_image_is_poor_witness :
  ∃ m, analyze_image_quality false (mkImageFile (Ok (4000, 3000)%Z) None) = Ok m
     ∧ d_quality_grade (to_dict m) = POOR.
Proof.
  destruct (without_cv2_every_image_is_poor
              (mkImageFile (Ok (4000, 3000)%Z) None) 4000 3000)
    as (m & Hm & _ & _ & _ & Hg); [reflexivity|].
  by exists m.
Defined.

Lemma analyze_image_quality_total HAS_CV2 image :
  ∃ m, analyze_image_quality HAS_CV2 image = Ok m.
Proof.
  unfold analyze_image_quality. cbv zeta.
  match goal with |- ∃ m, match ?body with _ => _ end = _ =>
    destruct body as [m|e] end; [by exists m|].
  apply init_total.
Qed.

(** X6. [analyze_images_parallel] never raises and returns one metrics
    object per path, in the order of the paths, each being what
    [analyze_image_quality] returns for that path. *)
Theorem analyze_images_parallel_pointwise (HAS_CV2 : bool)
    (images : list image_file) :
  ∃ metrics_list,
    analyze_images_parallel HAS_CV2 images = Ok metrics_list
    ∧ length metrics_list = length images
    ∧ Forall2 (λ image m, analyze_image_quality HAS_CV2 image = Ok m)
        images metrics_list.
Proof.
  unfold analyze_images_parallel. cbv zeta.
  induction images as [|image images (ms & Hms & Hlen & Hall)].
  - exists []. by repeat split.
  - destruct (analyze_image_quality_total HAS_CV2 image) as [m Hm].
    exists (m :: ms). cbn. rewrite Hm. cbn. rewrite Hms. cbn.
    split; [done|]. split; [by rewrite Hlen|]. by constructor.
Qed.

End QualityMore2.

(** ** The embedding cache, continued *)

Section CacheMore.
Import Embeddings Spec Invariants.

Lemma cache_get_ok c key :
  cache_wf c →
  ∃ c', cache_get c key = (c', Ok (cache c !! key))
        ∧ cache c' = cache c ∧ max_size c' = max_size c ∧ cache_wf c'.
Proof.
  intros Hwf. destruct (cache c !! key) as [v|] eqn:Hk.
  - destruct (cache_get_hit c key v Hwf Hk) as (before & after & Hl & _ & _ & Hg).
    eexists. split; [exact Hg|]. split; [done|]. split; [done|].
    pose proof (cache_get_wf c key Hwf) as Hwf'. by rewrite Hg in Hwf'.
  - exists c. by rewrite cache_get_miss.
Qed.

Lemma cache_put_ok c key e :
  cache_ok c →
  ∃ c', cache_put c key e = (c', Ok ())
        ∧ cache_ok c' ∧ max_size c' = max_size c
        ∧ cache c' !! key = Some e
        ∧ last (access_order c') = Some key.
Proof.
  intros (Hwf & Hcap & Hle).
  pose proof (cache_put_wf c key e Hwf) as Hwf'.
  pose proof (cache_step_bounded c (OpPut key e) Hwf Hle) as Hle'.
  pose proof (cache_step_max_size c (OpPut key e)) as Hmax.
  cbn [cache_step] in Hle', Hmax.
  destruct (cache c !! key) as [v|] eqn:Hk.
  - destruct (cache_put_present c key v e Hwf Hk) as (before & after & Hl & Hp).
    rewrite Hp in *. eexists. split; [done|]. cbn in *.
    split; [exact (conj Hwf' (conj Hcap Hle'))|]. split; [done|].
    split; [apply lookup_insert_eq|apply last_snoc].
  - destruct (decide (Z.of_nat (size (cache c)) < max_size c)%Z) as [Hlt|Hge].
    + rewrite cache_put_fresh in * by done. eexists. split; [done|]. cbn in *.
      split; [exact (conj Hwf' (conj Hcap Hle'))|]. split; [done|].
      split; [apply lookup_insert_eq|apply last_snoc].
    + assert (Hne : access_order c ≠ []).
      { intros Hnil. pose proof (cache_wf_size c Hwf) as Hs.
        rewrite Hnil in Hs. cbn in Hs. lia. }
      destruct (cache_put_evict c key e Hwf Hk)
        as (lru_key & rest & Hl & Hlru & Hneq & _ & Hp); [lia|done|].
      rewrite Hp in *. eexists. split; [done|]. cbn in *.
      split; [exact (conj Hwf' (conj Hcap Hle'))|]. split; [done|].
      split; [apply lookup_insert_eq|apply last_snoc].
Qed.

Lemma cache_run_ok n ops : (1 <= n)%Z → cache_ok (cache_run n ops).
Proof.
  intros Hn. destruct (cache_run_invariant n ops) as (Hwf & Hmax & Hle & _); [lia|].
  cbv zeta in *. repeat split; try apply Hwf; lia.
Qed.

(** X7. Round trip: on a cache of capacity at least 1, in any state
    reached by calls, [put(key, e)] returns normally and an immediately
    following [get(key)] returns [e]; the key is then the most recently
    used one and the stored entries are those left by the [put]. *)
Theorem cache_put_then_get (n : Z) (ops : list cache_op) (key : string)
    (e : ndarray) :
  (1 <= n)%Z →
  ∃ c' c'',
    cache_put (cache_run n ops) key e = (c', Ok ())
    ∧ cache_get c' key = (c'', Ok (Some e))
    ∧ cache c'' = cache c'
    ∧ last (access_order c'') = Some key
    ∧ (Z.of_nat (size (cache c'')) <= n)%Z.
Proof.
  intros Hn. pose proof (cache_run_ok n ops Hn) as Hok.
  destruct (cache_run_invariant n ops) as (_ & Hmax & _); [lia|]. cbv zeta in Hmax.
  destruct (cache_put_ok _ key e Hok) as (c' & Hp & Hok' & Hmax' & Hk & Hlast).
  destruct Hok' as (Hwf' & _ & Hle').
  destruct (cache_get_hit c' key e Hwf' Hk) as (before & after & Hl & _ & _ & Hg).
  eexists c', _. split; [done|]. split; [exact Hg|]. cbn.
  split; [done|]. split; [apply last_snoc|]. lia.
Qed.

Lemma cache_put_then_get_witness :
  ∃ c' c'',
    cache_put (cache_run 1 [OpPut "a" [1%Q]]) "b" [2%Q] = (c', Ok ())
    ∧ cache_get c' "b" = (c'', Ok (Some [2%Q]))
    ∧ cache c'' !! "a" = None.
Proof.
  destruct (cache_put_then_get 1 [OpPut "a" [1%Q]] "b" [2%Q])
    as (c' & c'' & Hp & Hg & Hc & _); [lia|].
  exists c', c''. split; [done|]. split; [done|].
  rewrite Hc. vm_compute in Hp. by injection Hp as <-.
Defined.

(** X8. A cache created with capacity 0 or less never stores anything:
    every [put] raises [IndexError] (from [pop(0)] on the empty order
    list) and leaves the cache empty, and every [get] misses. *)
Theorem cache_without_capacity (n : Z) (ops : list cache_op) (key : string)
    (e : ndarray) :
  (n <= 0)%Z →
  cache_run n ops = cache_init n
  ∧ cache_put (cache_run n ops) key e = (cache_init n, Raise IndexError)
  ∧ cache_get (cache_run n ops) key = (cache_init n, Ok None).
Proof.
  intros Hn.
  assert (Hput : ∀ k v, cache_put (cache_init n) k v
                        = (cache_init n, Raise IndexError)).
  { intros k v. apply cache_put_empty_full; cbn; [done| |done].
    rewrite map_size_empty. lia. }
  assert (Hrun : cache_run n ops = cache_init n).
  { unfold cache_run. induction ops as [|op ops IH] using rev_ind; [done|].
    rewrite foldl_snoc, IH. destruct op as [k|k v|]; cbn; [done| |done].
    by rewrite Hput. }
  rewrite Hrun. split; [done|]. split; [apply Hput|done].
Qed.

Lemma cache_without_capacity_witness :
  cache_put (cache_run 0 [OpGet "a"; OpPut "a" [1%Q]]) "b" [2%Q]
  = (cache_init 0, Raise IndexError).
Proof.
  destruct (cache_without_capacity 0 [OpGet "a"; OpPut "a" [1%Q]] "b" [2%Q])
    as (_ & H & _); [lia|exact H].
Defined.

(** X9. [clear] forgets everything but the capacity: the calls made
    before a [clear] have no influence on what follows it. *)
Theorem cache_clear_resets (n : Z) (before after : list cache_op) :
  cache_run n (before ++ OpClear :: after) = cache_run n after
  ∧ cache (cache_run n (before ++ [OpClear])) = ∅
  ∧ access_order (cache_run n (before ++ [OpClear])) = []
  ∧ max_size (cache_run n (before ++ [OpClear])) = n.
Proof.
  assert (Hmax : ∀ ops, max_size (cache_run n ops) = n).
  { intros ops. unfold cache_run.
    induction ops as [|op ops IH] using rev_ind; [done|].
    by rewrite foldl_snoc, cache_step_max_size. }
  assert (Hclear : cache_run n (before ++ [OpClear]) = cache_init n).
  { unfold cache_run. rewrite foldl_snoc. cbn. unfold cache_clear.
    fold (cache_run n before). by rewrite Hmax. }
  split.
  - change (before ++ OpClear :: after) with (before ++ [OpClear] ++ after).
    rewrite app_assoc. unfold cache_run in *. by rewrite foldl_app, Hclear.
  - by rewrite Hclear.
Qed.

End CacheMore.

(** ** The embedding generator with a loaded model *)

Section GeneratorMore.
Import Embeddings Spec Invariants.

Variable clip_model : Type.
Variable _get_image_hash : string → string.
Variable mock_vector : string → ndarray.
Variable tensor : Type.
Variable load_image : string → result tensor.
Variable encode_image : clip_model → list tensor → result (list ndarray).

#[local] Abbreviation single := (generate_embedding true clip_model _get_image_hash
                      mock_vector tensor load_image encode_image).
#[local] Abbreviation batch := (generate_embeddings_batch clip_model _get_image_hash
                     tensor load_image encode_image).

Lemma generate_embedding_outcomes_aux (g : EmbeddingGenerator clip_model)
    (m : clip_model) (image_path : string) :
  model clip_model g = Some m → cache_ok (gen_cache clip_model g) →
  ∃ g' v,
    single g image_path = (g', Ok v)
    ∧ model clip_model g' = Some m
    ∧ cache_ok (gen_cache clip_model g')
    ∧ match cache (gen_cache clip_model g) !! _get_image_hash image_path with
      | Some e => v = e ∧ cache (gen_cache clip_model g')
                          = cache (gen_cache clip_model g)
      | None =>
          match (image_tensor ← load_image image_path;
                 encode_image m [image_tensor]) with
          | Raise _ => v = zeros 512
                       ∧ cache (gen_cache clip_model g')
                         = cache (gen_cache clip_model g)
          | Ok rows => v = concat rows
                       ∧ cache (gen_cache clip_model g')
                           !! _get_image_hash image_path = Some v
          end
      end.
Proof.
  intros Hm Hok. pose proof Hok as (Hwf & Hcap & Hle).
  unfold generate_embedding. cbn [negb]. rewrite Hm.
  destruct (cache_get_ok (gen_cache clip_model g) (_get_image_hash image_path) Hwf)
    as (c1 & Hg & Hc1 & Hmax1 & Hwf1).
  rewrite Hg.
  assert (Hok1 : cache_ok c1).
  { split; [done|]. rewrite Hmax1, Hc1. done. }
  destruct (cache (gen_cache clip_model g) !! _get_image_hash image_path)
    as [e|] eqn:Hk.
  - eexists _, _. split; [done|]. cbn. done.
  - destruct (load_image image_path) as [t|err] eqn:Hload; cbn.
    + destruct (encode_image m [t]) as [rows|err] eqn:Henc; cbn.
      * destruct (cache_put_ok c1 (_get_image_hash image_path) (concat rows) Hok1)
          as (c2 & Hp & Hok2 & _ & Hk2 & _).
        rewrite Hp. eexists _, _. split; [done|]. cbn. done.
      * eexists _, _. split; [done|]. cbn. done.
    + eexists _, _. split; [done|]. cbn. done.
Qed.

(** X10. With a model loaded and the cache in order, [generate_embedding]
    never raises: a cached fingerprint yields the cached vector; a miss
    whose image fails to load or to encode yields the zero vector and
    stores nothing; a miss that encodes yields the flattened output,
    which is then cached. *)
Theorem generate_embedding_outcomes (g : EmbeddingGenerator clip_model)
    (m : clip_model) (image_path : string) :
  model clip_model g = Some m → cache_ok (gen_cache clip_model g) →
  ∃ g' v,
    single g image_path = (g', Ok v)
    ∧ model clip_model g' = Some m
    ∧ cache_ok (gen_cache clip_model g')
    ∧ match cache (gen_cache clip_model g) !! _get_image_hash image_path with
      | Some e => v = e ∧ cache (gen_cache clip_model g')
                          = cache (gen_cache clip_model g)
      | None =>
          match (image_tensor ← load_image image_path;
                 encode_image m [image_tensor]) with
          | Raise _ => v = zeros 512
                       ∧ cache (gen_cache clip_model g')
                         = cache (gen_cache clip_model g)
          | Ok rows => v = concat rows
                       ∧ cache (gen_cache clip_model g')
                           !! _get_image_hash image_path = Some v
          end
      end.
Proof. apply generate_embedding_outcomes_aux. Qed.

(** X11. An embedding that was found or produced is served again: if the
    image loads and encodes, a second [generate_embedding] for the same
    path returns the vector the first call returned. *)
Theorem generate_embedding_repeat (g : EmbeddingGenerator clip_model)
    (m : clip_model) (image_path : string) (t : tensor) (rows : list ndarray) :
  model clip_model g = Some m → cache_ok (gen_cache clip_model g) →
  load_image image_path = Ok t → encode_image m [t] = Ok rows →
  ∃ g' g'' v,
    single g image_path = (g', Ok v)
    ∧ single g' image_path = (g'', Ok v)
    ∧ cache (gen_cache clip_model g'') = cache (gen_cache clip_model g').
Proof.
  intros Hm Hok Hload Henc.
  destruct (generate_embedding_outcomes_aux g m image_path Hm Hok)
    as (g' & v & H1 & Hm' & Hok' & Hcase).
  assert (Hk' : cache (gen_cache clip_model g') !! _get_image_hash image_path
                = Some v).
  { destruct (cache (gen_cache clip_model g) !! _get_image_hash image_path)
      as [e|] eqn:Hk.
    - destruct Hcase as [-> ->]. done.
    - rewrite Hload in Hcase. cbn in Hcase. rewrite Henc in Hcase.
      by destruct Hcase. }
  destruct (generate_embedding_outcomes_aux g' m image_path Hm' Hok')
    as (g'' & v' & H2 & _ & _ & Hcase').
  rewrite Hk' in Hcase'. destruct Hcase' as [-> Hc].
  by exists g', g'', v.
Qed.

End GeneratorMore.

(** *** The batch *)

Section BatchFacts.
Import Embeddings Spec Invariants.

Variable clip_model : Type.
Variable _get_image_hash : string → string.
Variable tensor : Type.
Variable load_image : string → result tensor.
Variable encode_image : clip_model → list tensor → result (list ndarray).

#[local] Arguments zeros : simpl never.

#[local] Abbreviation batch :=
  (generate_embeddings_batch clip_model _get_image_hash tensor load_image
     encode_image).
#[local] Abbreviation cached_in c := (cached _get_image_hash (cache c)).
#[local] Abbreviation uncached c := (uncached_from _get_image_hash (cache c)).
#[local] Abbreviation holes c := (holes_from _get_image_hash tensor load_image (cache c)).
#[local] Abbreviation merge c := (batch_merge _get_image_hash tensor load_image (cache c)).

(** The first loop leaves the stored entries alone and splits the paths
    into hits and misses. *)
Lemma probe_cache_spec c0 ps :
  cache_ok c0 →
  ∀ c i acc_e acc_u acc_i,
    cache c = cache c0 → max_size c = max_size c0 → cache_wf c →
    ∃ c',
      probe_cache _get_image_hash c i ps acc_e acc_u acc_i
      = (c', Ok (acc_e ++ (cached_in c0 <$> ps),
                 acc_u ++ (uncached c0 i ps).*2,
                 acc_i ++ (uncached c0 i ps).*1))
      ∧ cache c' = cache c0 ∧ max_size c' = max_size c0 ∧ cache_wf c'.
Proof.
  intros Hok. induction ps as [|p ps IH]; intros c i acc_e acc_u acc_i Hc Hmax Hwf.
  - exists c. cbn. by rewrite !app_nil_r.
  - cbn [probe_cache uncached_from fmap list_fmap].
    destruct (cache_get_ok c (_get_image_hash p) Hwf)
      as (c1 & Hg & Hc1 & Hmax1 & Hwf1).
    rewrite Hg, Hc.
    change (cache c0 !! _get_image_hash p) with (cached_in c0 p).
    destruct (cached_in c0 p) as [e|] eqn:Hk.
    + destruct (IH c1 (S i) (acc_e ++ [Some e]) acc_u acc_i)
        as (c' & -> & ?); [congruence..|done|].
      exists c'. split; [|done]. by rewrite <- !app_assoc.
    + destruct (IH c1 (S i) (acc_e ++ [None]) (acc_u ++ [p]) (acc_i ++ [i]))
        as (c' & -> & ?); [congruence..|done|].
      exists c'. split; [|done]. cbn. by rewrite <- !app_assoc.
Qed.

(** The second loop keeps the tensors that load and their indices. *)
Lemma load_uncached_spec us :
  ∀ i images valid,
    load_uncached tensor load_image i us images valid
    = (images ++ loaded tensor load_image us,
       valid ++ valid_from tensor load_image i us).
Proof.
  induction us as [|p us IH]; intros i images valid; cbn.
  - by rewrite !app_nil_r.
  - destruct (load_image p) as [t|e]; cbn; rewrite IH; [|done].
    by rewrite <- !app_assoc.
Qed.

(** Looking a valid index up among the uncached indices gives the index
    of a path that misses and loads. *)
Lemma valid_indices_compose c ps :
  ∀ o u (pre : list (nat * string)),
    length pre = u →
    let un := pre ++ uncached c o ps in
    let valid := valid_from tensor load_image u (uncached c o ps).*2 in
    length valid = length (holes c o ps)
    ∧ ∀ k v, valid !! k = Some v →
        ∃ h p, un.*1 !! v = Some h ∧ un.*2 !! v = Some p
               ∧ holes c o ps !! k = Some h.
Proof.
  induction ps as [|p ps IH]; intros o u pre Hlen; cbn.
  - split; [done|]. intros k v Hk. done.
  - destruct (cached_in c p) as [e|] eqn:Hk.
    + apply IH. done.
    + cbn. specialize (IH (S o) (S u) (pre ++ [(o, p)])).
      rewrite length_app in IH. cbn in IH.
      rewrite <- app_assoc in IH. cbn in IH.
      destruct IH as [IHlen IH]; [lia|].
      destruct (is_ok (load_image p)); [|done].
      cbn. split; [by rewrite IHlen|].
      intros [|k] v Hv; [|by apply IH].
      injection Hv as <-. exists o, p.
      rewrite !fmap_app. cbn.
      rewrite !lookup_app_r by (rewrite length_fmap; lia).
      rewrite !length_fmap, Hlen, Nat.sub_diag. done.
Qed.

Lemma holes_bound c ps o h :
  h ∈ holes c o ps → (o <= h < o + length ps)%nat.
Proof.
  revert o. induction ps as [|p ps IH]; intros o; cbn.
  - intros H. by apply elem_of_nil in H.
  - destruct (cached_in c p).
    + intros H. apply IH in H. lia.
    + destruct (is_ok (load_image p)).
      * intros [->|H]%elem_of_cons; [lia|]. apply IH in H. lia.
      * intros H. apply IH in H. lia.
Qed.

Lemma scatter_nil_rows hs emb : scatter hs [] emb = emb.
Proof. unfold scatter. by destruct hs. Qed.

Lemma scatter_nil_holes rows emb : scatter [] rows emb = emb.
Proof. done. Qed.

Lemma scatter_cons h hs row rows emb :
  scatter (h :: hs) (row :: rows) emb = scatter hs rows (<[h := Some row]> emb).
Proof. done. Qed.

(** The third loop writes row [i] at the position of the [i]-th path
    that misses and loads, and every [put] succeeds. *)
Lemma store_results_spec valid (un : list (nat * string)) (hs : list nat) :
  length valid = length hs →
  (∀ k v, valid !! k = Some v →
     ∃ h p, un.*1 !! v = Some h ∧ un.*2 !! v = Some p ∧ hs !! k = Some h) →
  ∀ rows c i emb,
    cache_ok c → (∀ h, h ∈ hs → (h < length emb)%nat) →
    ∃ c',
      store_results _get_image_hash c i rows valid un.*1 un.*2 emb
      = (c', scatter (drop i hs) rows emb, Ok ())
      ∧ cache_ok c' ∧ max_size c' = max_size c.
Proof.
  intros Hlen Hcomp.
  induction rows as [|row rows IH]; intros c i emb Hok Hb; cbn [store_results].
  - exists c. by rewrite scatter_nil_rows.
  - destruct (decide (i < length valid)%nat) as [Hi|Hi].
    + destruct (lookup_lt_is_Some_2 valid i Hi) as [v Hv].
      destruct (Hcomp i v Hv) as (h & p & Hh & Hp & Hhs).
      assert (Hhb : (h < length emb)%nat).
      { apply Hb. by eapply list_elem_of_lookup_2. }
      destruct (lookup_lt_is_Some_2 emb h Hhb) as [old Hold].
      unfold index. rewrite Hv. cbn. rewrite Hh. cbn. rewrite Hold. cbn.
      rewrite Hp. cbn.
      destruct (cache_put_ok c (_get_image_hash p) row Hok)
        as (c1 & -> & Hok1 & Hmax1 & _).
      destruct (IH c1 (S i) (<[h := Some row]> emb) Hok1) as (c' & -> & Hok' & Hmax').
      { intros h' Hh'. rewrite length_insert. by apply Hb. }
      exists c'. split; [|split; [done|congruence]].
      by rewrite (drop_S _ _ _ Hhs), scatter_cons.
    + destruct (IH c (S i) emb Hok Hb) as (c' & -> & Hok' & Hmax').
      exists c'. split; [|done].
      rewrite !drop_ge by lia. done.
Qed.

(** Filling the remaining placeholders after the writes gives the merge. *)
Lemma scatter_merge c ps :
  ∀ (pre : list (option ndarray)) rows,
    fill_zeros (scatter (holes c (length pre) ps) rows
                  (pre ++ (cached_in c <$> ps)))
    = fill_zeros pre ++ merge c ps rows.
Proof.
  unfold fill_zeros.
  induction ps as [|p ps IH]; intros pre rows; cbn [holes_from batch_merge].
  - cbn [fmap list_fmap]. by rewrite scatter_nil_holes, !app_nil_r.
  - cbn [fmap list_fmap].
    destruct (cached_in c p) as [e|] eqn:Hk.
    + specialize (IH (pre ++ [Some e]) rows).
      rewrite length_app, Nat.add_1_r, <- app_assoc in IH. cbn [app] in IH.
      rewrite IH, fmap_app, <- app_assoc. done.
    + destruct (load_image p) as [t|err]; cbn [is_ok].
      * destruct rows as [|row rows].
        -- rewrite scatter_nil_rows.
           specialize (IH (pre ++ [None]) []).
           rewrite scatter_nil_rows, <- app_assoc in IH. cbn [app] in IH.
           rewrite IH, fmap_app, <- app_assoc. done.
        -- rewrite scatter_cons.
           replace (<[length pre := Some row]> (pre ++ None :: (cached_in c <$> ps)))
             with ((pre ++ [Some row]) ++ (cached_in c <$> ps)).
           2:{ rewrite <- app_assoc. cbn [app].
               rewrite <- (Nat.add_0_r (length pre)) at 1.
               by rewrite insert_app_r. }
           specialize (IH (pre ++ [Some row]) rows).
           rewrite length_app, Nat.add_1_r in IH.
           rewrite IH, fmap_app, <- app_assoc. done.
      * specialize (IH (pre ++ [None]) rows).
        rewrite length_app, Nat.add_1_r, <- app_assoc in IH. cbn [app] in IH.
        rewrite IH, fmap_app, <- app_assoc. done.
Qed.

Lemma loaded_nil_holes c ps o :
  loaded tensor load_image (uncached c o ps).*2 = [] → holes c o ps = [].
Proof.
  revert o. induction ps as [|p ps IH]; intros o; cbn; [done|].
  destruct (cached_in c p); [apply IH|].
  cbn. destruct (load_image p); [done|]. apply IH.
Qed.

Lemma batch_merge_length c ps rows : length (merge c ps rows) = length ps.
Proof.
  revert rows. induction ps as [|p ps IH]; intros rows; cbn; [done|].
  destruct (cached_in c p); cbn; [by rewrite IH|].
  destruct (load_image p); [destruct rows|]; cbn; by rewrite IH.
Qed.

Lemma batch_merge_lookup c ps :
  ∀ rows j p, ps !! j = Some p →
    (∀ e, cached_in c p = Some e → merge c ps rows !! j = Some e)
    ∧ (cached_in c p = None → is_ok (load_image p) = false →
       merge c ps rows !! j = Some (zeros 512)).
Proof.
  induction ps as [|q ps IH]; intros rows j p Hj; [done|].
  destruct j as [|j]; cbn in Hj.
  - injection Hj as ->. cbn [batch_merge]. split.
    + intros e ->. done.
    + intros -> Hload. destruct (load_image p); [done|]. by destruct rows.
  - cbn [batch_merge].
    destruct (cached_in c q); [by apply IH|].
    destruct (load_image q); [destruct rows|]; by apply IH.
Qed.

(** X12. With a model loaded and the cache in order,
    [generate_embeddings_batch] never raises and returns one vector per
    path, in the order of the paths: the cached vector for a path whose
    fingerprint is cached, the zero vector for an uncached path that
    fails to load, and for the uncached paths that load the rows of one
    model call on exactly those images, in order (zero vectors if that
    call raises). *)
Theorem batch_merges_in_order (g : EmbeddingGenerator clip_model)
    (m : clip_model) (image_paths : list string) :
  model clip_model g = Some m → cache_ok (gen_cache clip_model g) →
  let c := gen_cache clip_model g in
  let images := loaded tensor load_image (uncached c 0 image_paths).*2 in
  let rows := match images with
              | [] => []
              | _ :: _ => match encode_image m images with
                          | Ok rows => rows
                          | Raise _ => []
                          end
              end in
  ∃ g',
    batch g image_paths = (g', Ok (merge c image_paths rows))
    ∧ length (merge c image_paths rows) = length image_paths
    ∧ (∀ j p e, image_paths !! j = Some p →
         cache c !! _get_image_hash p = Some e →
         merge c image_paths rows !! j = Some e)
    ∧ (∀ j p, image_paths !! j = Some p →
         cache c !! _get_image_hash p = None →
         is_ok (load_image p) = false →
         merge c image_paths rows !! j = Some (zeros 512))
    ∧ model clip_model g' = Some m
    ∧ cache_ok (gen_cache clip_model g').
Proof.
  intros Hm Hok c images rows. pose proof Hok as (Hwf & _).
  assert (Hfill : ∀ rs, fill_zeros (scatter (holes c 0 image_paths) rs
                                      (cached_in c <$> image_paths))
                        = merge c image_paths rs).
  { intros rs. apply (scatter_merge c image_paths [] rs). }
  assert (Hfill0 : fill_zeros (cached_in c <$> image_paths)
                   = merge c image_paths []).
  { rewrite <- Hfill. by rewrite scatter_nil_rows. }
  assert (Hgoal : ∃ g', batch g image_paths = (g', Ok (merge c image_paths rows))
                        ∧ model clip_model g' = Some m
                        ∧ cache_ok (gen_cache clip_model g')).
  { unfold generate_embeddings_batch. rewrite Hm. fold c.
    destruct (probe_cache_spec c image_paths Hok c 0%nat [] [] [])
      as (c1 & -> & Hc1 & Hmax1 & Hwf1); [done..|].
    assert (Hok1 : cache_ok c1).
    { split; [done|]. rewrite Hmax1, Hc1. apply Hok. }
    cbn [app]. subst rows images.
    destruct ((uncached c 0 image_paths).*2) as [|u us] eqn:Hun.
    { cbn [loaded]. rewrite Hfill0. eexists. split; [done|]. done. }
    cbv beta iota. rewrite <- Hun, load_uncached_spec. cbn [app].
    destruct (loaded tensor load_image (uncached c 0 image_paths).*2)
      as [|t ts] eqn:Hloaded.
    { rewrite Hfill0. eexists. split; [done|]. done. }
    destruct (encode_image m (t :: ts)) as [rows|err].
    2:{ rewrite Hfill0. eexists. split; [done|]. done. }
    destruct (valid_indices_compose c image_paths 0%nat 0%nat [] eq_refl)
      as [Hlen Hcomp].
    cbn [app] in Hlen, Hcomp.
    destruct (store_results_spec _ (uncached c 0 image_paths) _ Hlen Hcomp
                rows c1 0%nat (cached_in c <$> image_paths) Hok1)
      as (c2 & Hs & Hok2 & _).
    { intros h Hh. apply holes_bound in Hh. rewrite length_fmap. lia. }
    rewrite Hs. cbn [drop]. rewrite Hfill. eexists. split; [done|]. done. }
  destruct Hgoal as (g' & Hb & Hm' & Hok').
  exists g'. split; [done|]. split; [apply batch_merge_length|].
  split.
  { intros j p e Hj He.
    by apply (proj1 (batch_merge_lookup c image_paths rows j p Hj)). }
  split; [|done].
  intros j p Hj Hnone Hload.
  by apply (proj2 (batch_merge_lookup c image_paths rows j p Hj)).
Qed.

End BatchFacts.

Section GeneratorExamples.
Import Embeddings Spec Invariants.

Lemma sample_generator_ok : cache_ok (gen_cache unit sample_generator).
Proof.
  split; [apply cache_init_wf|]. cbn. rewrite map_size_empty. lia.
Qed.

Lemma generate_embedding_outcomes_witness :
  ∃ g', generate_embedding true unit (λ p, p) (λ _, []) unit sample_load
          sample_encode sample_generator "bad.jpg" = (g', Ok (zeros 512))
        ∧ cache (gen_cache unit g') = ∅.
Proof.
  destruct (generate_embedding_outcomes unit (λ p, p) (λ _, []) unit
              sample_load sample_encode sample_generator () "bad.jpg")
    as (g' & v & H & _ & _ & Hcase); [reflexivity|apply sample_generator_ok|].
  cbn in Hcase. destruct Hcase as [-> Hc]. by exists g'.
Defined.

Lemma generate_embedding_repeat_witness :
  ∃ g' g'',
    generate_embedding true unit (λ p, p) (λ _, []) unit sample_load
      sample_encode sample_generator "a.jpg" = (g', Ok [1%Q; 0%Q])
    ∧ generate_embedding true unit (λ p, p) (λ _, []) unit sample_load
        sample_encode g' "a.jpg" = (g'', Ok [1%Q; 0%Q]).
Proof.
  destruct (generate_embedding_repeat unit (λ p, p) (λ _, []) unit
              sample_load sample_encode sample_generator () "a.jpg" ()
              [[1%Q; 0%Q]])
    as (g' & g'' & v & H1 & H2 & _);
    [reflexivity|apply sample_generator_ok|reflexivity|reflexivity|].
  assert (v = [1%Q; 0%Q]) as ->.
  { vm_compute in H1. by injection H1 as _ <-. }
  by exists g', g''.
Defined.

Lemma batch_merges_in_order_witness :
  ∃ g' vs,
    generate_embeddings_batch unit (λ p, p) unit sample_load sample_encode
      sample_generator ["a.jpg"; "bad.jpg"; "b.jpg"] = (g', Ok vs)
    ∧ vs = [[1%Q; 0%Q]; zeros 512; [1%Q; 0%Q]].
Proof.
  destruct (batch_merges_in_order unit (λ p, p) unit sample_load sample_encode
              sample_generator () ["a.jpg"; "bad.jpg"; "b.jpg"])
    as (g' & H & _); [reflexivity|apply sample_generator_ok|].
  eexists g', _. split; [exact H|]. reflexivity.
Defined.

End GeneratorExamples.

(** *** Clearing the cache *)

Section GeneratorClear.
Import Embeddings Spec Invariants.

Variable clip_model : Type.
Variable _get_image_hash : string → string.
Variable mock_vector : string → ndarray.
Variable tensor : Type.
Variable load_image : string → result tensor.
Variable encode_image : clip_model → list tensor → result (list ndarray).

(** X24. After [clear_cache] the statistics report no entry and the
    same capacity, and the next [generate_embedding] is a miss for
    every path: the vector is computed afresh from the image (the zero
    vector if it fails to load or encode), whatever had been cached. *)
Theorem clear_cache_forces_recompute (g : EmbeddingGenerator clip_model)
    (m : clip_model) (image_path : string) :
  model clip_model g = Some m → (1 <= max_size (gen_cache clip_model g))%Z →
  get_cache_stats clip_model (clear_cache clip_model g)
  = mkCacheStats 0 (max_size (gen_cache clip_model g)) 0.0
  ∧ ∃ g',
      generate_embedding true clip_model _get_image_hash mock_vector tensor
        load_image encode_image (clear_cache clip_model g) image_path
      = (g', Ok match (image_tensor ← load_image image_path;
                       encode_image m [image_tensor]) with
                | Ok rows => concat rows
                | Raise _ => zeros 512
                end).
Proof.
  intros Hm Hn. split.
  { unfold get_cache_stats, clear_cache. cbn. by rewrite map_size_empty. }
  destruct (generate_embedding_outcomes_aux clip_model _get_image_hash
              mock_vector tensor load_image encode_image
              (clear_cache clip_model g) m image_path)
    as (g' & v & Hrun & _ & _ & Hcase).
  - done.
  - split; [apply cache_clear_wf|]. cbn. rewrite map_size_empty. lia.
  - exists g'. rewrite Hrun. f_equal. f_equal.
    cbn [clear_cache with_cache gen_cache cache_clear cache] in Hcase.
    rewrite lookup_empty in Hcase.
    destruct (image_tensor ← load_image image_path;
              encode_image m [image_tensor]); by destruct Hcase as [-> _].
Qed.

End GeneratorClear.

Section GeneratorClearExample.
Import Embeddings Spec Invariants.

Lemma clear_cache_forces_recompute_witness :
  ∃ g', generate_embedding true unit (λ p, p) (λ _, []) unit sample_load
          sample_encode (clear_cache unit sample_generator) "a.jpg"
        = (g', Ok [1%Q; 0%Q]).
Proof.
  destruct (clear_cache_forces_recompute unit (λ p, p) (λ _, []) unit
              sample_load sample_encode sample_generator () "a.jpg")
    as (_ & g' & H); [reflexivity|by vm_compute|].
  by exists g'.
Defined.

End GeneratorClearExample.

(** ** Similarity, continued *)

Section SimilarityMore.
Import Embeddings Similarity Spec.

Lemma list_index_first (x : string) (l : list string) :
  match list_index x l with
  | Ok i => l !! i = Some x ∧ ∀ j, (j < i)%nat → l !! j ≠ Some x
  | Raise e => e = ValueError ∧ x ∉ l
  end.
Proof.
  induction l as [|y l IH]; cbn.
  - split; [done|]. apply not_elem_of_nil.
  - destruct (decide (y = x)) as [->|Hne].
    + split; [done|]. intros j Hj. lia.
    + destruct (list_index x l) as [i|e]; cbn.
      * destruct IH as [Hi Hfirst]. split; [done|].
        intros [|j] Hj; cbn; [congruence|]. apply Hfirst. lia.
      * destruct IH as [-> Hnot]. split; [done|].
        apply not_elem_of_cons. done.
Qed.

Lemma list_index_unique (x : string) (l : list string) i :
  l !! i = Some x → (∀ j, (j < i)%nat → l !! j ≠ Some x) →
  list_index x l = Ok i.
Proof.
  intros Hi Hfirst. pose proof (list_index_first x l) as H.
  destruct (list_index x l) as [i'|e].
  - destruct H as [Hi' Hfirst']. f_equal.
    destruct (Nat.lt_trichotomy i i') as [Hlt|[->|Hgt]]; [|done|].
    + by destruct (Hfirst' i Hlt).
    + by destruct (Hfirst i' Hgt).
  - destruct H as [_ Hnot]. destruct Hnot. by eapply list_elem_of_lookup_2.
Qed.

Lemma list_index_missing (x : string) (l : list string) :
  x ∉ l → list_index x l = Raise ValueError.
Proof.
  intros Hnot. pose proof (list_index_first x l) as H.
  destruct (list_index x l) as [i|e].
  - destruct H as [Hi _]. destruct Hnot. by eapply list_elem_of_lookup_2.
  - by destruct H as [-> _].
Qed.

Lemma np_max_spec (x : Q) (xs : list Q) :
  (∀ y, y ∈ x :: xs → (y <= np_max x xs)%Q)
  ∧ ∃ y, y ∈ x :: xs ∧ (np_max x xs == y)%Q.
Proof.
  unfold np_max. revert x. induction xs as [|z xs IH]; intros x; cbn.
  - split.
    + intros y Hy. apply list_elem_of_singleton in Hy as ->. apply Qle_refl.
    + exists x. split; [by apply list_elem_of_singleton|done].
  - destruct (IH (Qmax x z)) as [Hub (y & Hy & Heq)].
    pose proof (Q.le_max_l x z). pose proof (Q.le_max_r x z).
    assert (Hm : (Qmax x z <= foldl Qmax (Qmax x z) xs)%Q).
    { apply Hub. apply elem_of_cons. by left. }
    split.
    + intros y' Hy'. apply elem_of_cons in Hy' as [->|Hy']; [lra|].
      apply elem_of_cons in Hy' as [->|Hy']; [lra|].
      apply Hub. apply elem_of_cons. by right.
    + apply elem_of_cons in Hy as [->|Hy].
      * destruct (Q.max_dec x z) as [E|E].
        -- exists x. split; [apply elem_of_cons; by left|].
           by rewrite Heq.
        -- exists z. split; [|by rewrite Heq].
           apply elem_of_cons. right. apply elem_of_cons. by left.
      * exists y. split; [|done].
        apply elem_of_cons. right. apply elem_of_cons. by right.
Qed.

Lemma elem_of_others {A} (l : list A) (i : nat) (y : A) :
  y ∈ take i l ++ drop (i + 1) l ↔ ∃ j, j ≠ i ∧ l !! j = Some y.
Proof.
  rewrite elem_of_app, !list_elem_of_lookup. split.
  - intros [[j Hj]|[j Hj]].
    + apply lookup_take_Some in Hj as [Hj Hlt]. exists j. split; [lia|done].
    + rewrite lookup_drop in Hj. exists (i + 1 + j)%nat. split; [lia|done].
  - intros (j & Hne & Hj).
    destruct (decide (j < i)%nat) as [Hlt|Hge].
    + left. exists j. by rewrite lookup_take_lt.
    + right. exists (j - (i + 1))%nat. rewrite lookup_drop.
      by replace (i + 1 + (j - (i + 1)))%nat with j by lia.
Qed.

(** X13. [get_redundancy_score] is 0.0 for an id that is not in the
    result, and also when the image has no other image to compare with;
    otherwise it is the largest entry of the image's row of the
    similarity matrix outside its own column (not clipped at 0). *)
Theorem redundancy_is_max_of_others (image_id : string) (r : SimilarityResult) :
  (image_id ∉ image_ids r → get_redundancy_score image_id r = 0.0%Q)
  ∧ ∀ i row,
      image_ids r !! i = Some image_id →
      (∀ j, (j < i)%nat → image_ids r !! j ≠ Some image_id) →
      similarity_matrix r !! i = Some row →
      ((∀ j, j ≠ i → row !! j = None) → get_redundancy_score image_id r = 0.0%Q)
      ∧ (∀ j x, j ≠ i → row !! j = Some x →
           (x <= get_redundancy_score image_id r)%Q
           ∧ ∃ j' x', j' ≠ i ∧ row !! j' = Some x'
                      ∧ (get_redundancy_score image_id r == x')%Q).
Proof.
  split.
  - intros Hnot. unfold get_redundancy_score.
    rewrite list_index_missing by done. reflexivity.
  - intros i row Hi Hfirst Hrow. unfold get_redundancy_score.
    rewrite (list_index_unique _ _ i Hi Hfirst). cbn [mbind result_bind].
    unfold index, matrix in *. rewrite Hrow. cbn [mbind result_bind].
    destruct (take i row ++ drop (i + 1) row) as [|x xs] eqn:Hother.
    + split; [done|]. intros j y Hne Hy. exfalso.
      assert (Hin : y ∈ take i row ++ drop (i + 1) row)
        by (apply elem_of_others; eauto).
      rewrite Hother in Hin. by apply elem_of_nil in Hin.
    + split.
      * intros Hnone. exfalso.
        assert (Hin : x ∈ take i row ++ drop (i + 1) row)
          by (rewrite Hother; apply elem_of_cons; by left).
        apply elem_of_others in Hin as (j & Hne & Hj).
        rewrite Hnone in Hj; done.
      * intros j y Hne Hy.
        destruct (np_max_spec x xs) as [Hub (y' & Hy' & Heq)].
        split.
        -- apply Hub. rewrite <- Hother. apply elem_of_others. eauto.
        -- rewrite <- Hother in Hy'.
           apply elem_of_others in Hy' as (j' & Hne' & Hj'). eauto.
Qed.

Lemma redundancy_is_max_of_others_witness :
  let r := mkSimilarityResult
             [[1; 0; 707 # 1000]; [0; 1; 707 # 1000];
              [707 # 1000; 707 # 1000; 1]]%Q
             ["img1"; "img2"; "img3"] [] in
  (0 <= get_redundancy_score "img1" r)%Q
  ∧ get_redundancy_score "nonexistent" r = 0.0%Q.
Proof.
  intros r.
  destruct (redundancy_is_max_of_others "nonexistent" r) as [Hmiss _].
  destruct (redundancy_is_max_of_others "img1" r) as [_ H].
  destruct (H 0%nat [1; 0; 707 # 1000]%Q) as [_ Hmax];
    [reflexivity|intros j Hj; lia|reflexivity|].
  split.
  - by apply (Hmax 1%nat 0%Q).
  - apply Hmiss. intros Hin. apply (bool_decide_pack _) in Hin.
    by vm_compute in Hin.
Defined.

(** X14. [get_similarity] answers 0.0, not an error, when either id is
    unknown; and on a symmetric matrix it does not depend on the order
    of the two ids. *)
Theorem get_similarity_unknown_and_symmetric (r : SimilarityResult)
    (a b : string) :
  (a ∉ image_ids r ∨ b ∉ image_ids r → get_similarity r a b = Ok 0.0%Q)
  ∧ ((∀ i j, matrix_get (similarity_matrix r) i j
             = matrix_get (similarity_matrix r) j i) →
     get_similarity r a b = get_similarity r b a).
Proof.
  unfold get_similarity. split.
  - intros [Ha|Hb].
    + rewrite (list_index_missing a) by done. reflexivity.
    + rewrite (list_index_missing b) by done.
      destruct (list_index a (image_ids r)) as [i|e] eqn:Ea; [reflexivity|].
      pose proof (list_index_first a (image_ids r)) as H.
      rewrite Ea in H. by destruct H as [-> _].
  - intros Hsym.
    destruct (list_index a (image_ids r)) as [i|ea] eqn:Ea;
      destruct (list_index b (image_ids r)) as [j|eb] eqn:Eb; cbn.
    + by rewrite Hsym.
    + pose proof (list_index_first b (image_ids r)) as H.
      rewrite Eb in H. by destruct H as [-> _].
    + pose proof (list_index_first a (image_ids r)) as H.
      rewrite Ea in H. by destruct H as [-> _].
    + pose proof (list_index_first a (image_ids r)) as Ha.
      pose proof (list_index_first b (image_ids r)) as Hb.
      rewrite Ea in Ha. rewrite Eb in Hb.
      destruct Ha as [-> _], Hb as [-> _]. done.
Qed.

Lemma get_similarity_unknown_and_symmetric_witness :
  get_similarity (mkSimilarityResult [[1; 3 # 10]; [3 # 10; 1]]%Q
                    ["img1"; "img2"] []) "img1" "other" = Ok 0.0%Q.
Proof.
  destruct (get_similarity_unknown_and_symmetric
              (mkSimilarityResult [[1; 3 # 10]; [3 # 10; 1]]%Q
                 ["img1"; "img2"] []) "img1" "other") as [H _].
  apply H. right.
  intros Hin. apply (bool_decide_pack _) in Hin. by vm_compute in Hin.
Defined.

Lemma get_duplicate_ids_spec (r : SimilarityResult) (a : string) :
  a ∈ get_duplicate_ids r
  ↔ ∃ d, d ∈ duplicates r ∧ (image_a d = a ∨ image_b d = a).
Proof.
  unfold get_duplicate_ids.
  assert (H : ∀ (l : list duplicate) (acc : gset string),
            a ∈ foldl (λ ids dup, ids ∪ {[image_a dup]} ∪ {[image_b dup]}) acc l
            ↔ a ∈ acc ∨ ∃ d, d ∈ l ∧ (image_a d = a ∨ image_b d = a)).
  { induction l as [|d l IH]; intros acc; cbn.
    - split; [by left|]. intros [?|(d & Hd & _)]; [done|].
      by apply elem_of_nil in Hd.
    - rewrite IH, !elem_of_union, !elem_of_singleton. split.
      + intros [[[?| ->]| ->]|(d' & Hd' & Hor)].
        * by left.
        * right. exists d. split; [apply elem_of_cons; by left|by left].
        * right. exists d. split; [apply elem_of_cons; by left|by right].
        * right. exists d'. split; [apply elem_of_cons; by right|done].
      + intros [?|(d' & Hd' & Hor)]; [by left; left; left|].
        apply elem_of_cons in Hd' as [-> |Hd'].
        * destruct Hor as [<-|<-]; [left; left; by right|left; by right].
        * right. by exists d'. }
  rewrite H. split; [|by right]. intros [Hin|?]; [|done].
  by apply not_elem_of_empty in Hin.
Qed.

Lemma analyze_similarity_duplicates cosine_similarity embeddings ids t :
  (∀ es m, cosine_similarity es = Ok m → square (length es) m) →
  length embeddings = length ids →
  ∃ d,
    analyze_similarity cosine_similarity embeddings ids t
    = Ok (mkSimilarityResult
            (compute_similarity_matrix cosine_similarity embeddings) ids d)
    ∧ ∀ x, x ∈ d ↔
        ∃ i j, (i < j < length ids)%nat
               ∧ ids !! i = Some (image_a x) ∧ ids !! j = Some (image_b x)
               ∧ matrix_get (compute_similarity_matrix cosine_similarity
                               embeddings) i j = Ok (similarity x)
               ∧ (t < similarity x)%Q.
Proof.
  intros Hshape Hlen. unfold analyze_similarity.
  rewrite (proj2 (Nat.eqb_eq _ _) Hlen). cbn [negb].
  pose proof (compute_similarity_matrix_square _ embeddings Hshape) as Hsq.
  rewrite Hlen in Hsq.
  destruct embeddings as [|e es].
  - destruct ids; [|done]. exists []. split; [done|].
    intros x. split; [intros H; by apply elem_of_nil in H|].
    intros (i & j & Hij & _). cbn in Hij. lia.
  - set (M := compute_similarity_matrix cosine_similarity (e :: es)) in *.
    unfold result_init. rewrite !find_duplicates_collect by done.
    cbn [mbind result_bind].
    destruct (Qeq_bool t 0.92) eqn:E; cbn [negb].
    + eexists. split; [done|]. intros x. rewrite elem_of_duplicates.
      apply Qeq_bool_iff in E. by setoid_rewrite E.
    + eexists. split; [done|]. intros x. by rewrite elem_of_duplicates.
Qed.

(** X15. After [analyze_similarity], an id is in the duplicate-id set
    exactly when it is one of the two ids of a pair [i<j] whose matrix
    entry is strictly above the requested threshold (whether or not the
    threshold is the default 0.92). *)
Theorem duplicate_ids_are_pair_members
    (cosine_similarity : list ndarray → result matrix)
    (embeddings : list ndarray) (ids : list string) (t : Q) :
  (∀ es m, cosine_similarity es = Ok m → square (length es) m) →
  length embeddings = length ids →
  ∃ r,
    analyze_similarity cosine_similarity embeddings ids t = Ok r
    ∧ image_ids r = ids
    ∧ similarity_matrix r
      = compute_similarity_matrix cosine_similarity embeddings
    ∧ ∀ a, a ∈ get_duplicate_ids r ↔
        ∃ i j s, (i < j < length ids)%nat
                 ∧ matrix_get (similarity_matrix r) i j = Ok s
                 ∧ (t < s)%Q
                 ∧ (ids !! i = Some a ∨ ids !! j = Some a).
Proof.
  intros Hshape Hlen.
  destruct (analyze_similarity_duplicates cosine_similarity embeddings ids t
              Hshape Hlen) as (d & Hr & Hd).
  eexists. split; [exact Hr|]. split; [done|]. split; [done|].
  intros a. rewrite get_duplicate_ids_spec. cbn. split.
  - intros (x & Hx & Hor). apply Hd in Hx as (i & j & Hij & Ha & Hb & Hs & Hlt).
    exists i, j, (similarity x). split; [done|]. split; [done|].
    split; [done|]. destruct Hor as [<-|<-]; [by left|by right].
  - intros (i & j & s & Hij & Hs & Hlt & Hor).
    destruct (lookup_lt_is_Some_2 ids i) as [ai Hai]; [lia|].
    destruct (lookup_lt_is_Some_2 ids j) as [bj Hbj]; [lia|].
    exists (mkDuplicate ai bj s). split.
    + apply Hd. exists i, j. done.
    + cbn. destruct Hor as [H|H]; [left|right]; congruence.
Qed.

Lemma duplicate_ids_are_pair_members_witness :
  ∃ r, analyze_similarity dot_products
         [[1; 0]; [1; 0]; [0; 1]]%Q ["a"; "b"; "c"] 0.5%Q = Ok r
       ∧ "b" ∈ get_duplicate_ids r.
Proof.
  destruct (duplicate_ids_are_pair_members dot_products
              [[1; 0]; [1; 0]; [0; 1]]%Q ["a"; "b"; "c"] 0.5%Q)
    as (r & Hr & _ & HM & H); [apply dot_products_square|reflexivity|].
  exists r. split; [done|]. apply H.
  exists 0%nat, 1%nat, 1%Q. rewrite HM.
  split; [cbn; lia|]. split; [reflexivity|]. split; [reflexivity|by right].
Defined.





End SimilarityMore.

(** ** The recommendation engine, continued *)

Section EngineMore.
Import Embeddings Similarity Engine Spec Invariants.

Lemma get_similarity_cases (r : SimilarityResult) (a b : string) (x : Q) :
  get_similarity r a b = Ok x →
  x = 0.0%Q ∨ ∃ i j, matrix_get (similarity_matrix r) i j = Ok x.
Proof.
  unfold get_similarity.
  destruct (list_index a (image_ids r)) as [i|ea]; cbn.
  - destruct (list_index b (image_ids r)) as [j|eb]; cbn.
    + destruct (matrix_get (similarity_matrix r) i j) as [y|e] eqn:E.
      * intros [= <-]. right. eauto.
      * destruct e; [intros [= <-]; by left|done..].
    + destruct eb; [intros [= <-]; by left|done..].
  - destruct ea; [intros [= <-]; by left|done..].
Qed.

Lemma max_similarity_bounds (r : SimilarityResult) (image_id : string)
    (selected : list string) (acc M : Q) :
  for_each selected (λ selected_id max_similarity,
    similarity ← get_similarity r image_id selected_id;
    Ok (Qmax max_similarity similarity)) acc = Ok M →
  (acc <= M)%Q
  ∧ ((acc <= 1)%Q →
     (∀ i j x, matrix_get (similarity_matrix r) i j = Ok x → (x <= 1)%Q) →
     (M <= 1)%Q).
Proof.
  revert acc. induction selected as [|sel selected IH]; intros acc; cbn.
  - intros [= <-]. split; [apply Qle_refl|done].
  - destruct (get_similarity r image_id sel) as [x|e] eqn:E; [|done]. cbn.
    intros HM. destruct (IH _ HM) as [Hle Hub]. split.
    + pose proof (Q.le_max_l acc x). lra.
    + intros Hacc Hentries. apply Hub; [|done].
      apply Q.max_lub; [done|].
      destruct (get_similarity_cases _ _ _ _ E) as [->|(i & j & Hx)];
        [by vm_compute|by eapply Hentries].
Qed.

Lemma diversity_score_bounds (image_id : string)
    (selected_ids : list string) (r : SimilarityResult) :
  (get_diversity_score image_id selected_ids r <= 1)%Q
  ∧ ((∀ i j x, matrix_get (similarity_matrix r) i j = Ok x → (x <= 1)%Q) →
     (0 <= get_diversity_score image_id selected_ids r)%Q).
Proof.
  unfold get_diversity_score.
  destruct selected_ids as [|sel selected]; [split; [|intros _]; by vm_compute|].
  destruct (for_each _ _ _) as [M|e] eqn:E;
    [|split; [|intros _]; by vm_compute].
  apply max_similarity_bounds in E as [H0 H1].
  assert (E0 : (0.0 == 0)%Q) by reflexivity.
  assert (E1 : (1.0 == 1)%Q) by reflexivity.
  rewrite E0 in H0. rewrite E0 in H1. rewrite E1.
  split; [lra|]. intros Hentries.
  assert (M <= 1)%Q by (apply H1; [lra|done]). lra.
Qed.

(** X17. The diversity score is never above 1; and when no entry of the
    similarity matrix exceeds 1 it lies in [[0,1]], whatever the ids
    (unknown ids and a failing lookup included). *)
Theorem diversity_score_in_unit_interval (image_id : string)
    (selected_ids : list string) (r : SimilarityResult) :
  (get_diversity_score image_id selected_ids r <= 1)%Q
  ∧ ((∀ i j x, matrix_get (similarity_matrix r) i j = Ok x → (x <= 1)%Q) →
     (0 <= get_diversity_score image_id selected_ids r)%Q).
Proof. apply diversity_score_bounds. Qed.

Lemma diversity_score_in_unit_interval_witness :
  let r := mkSimilarityResult [[1; -(1 # 2)]; [-(1 # 2); 1]]%Q ["a"; "b"] [] in
  (0 <= get_diversity_score "a" ["b"; "zzz"] r)%Q.
Proof.
  intros r. apply diversity_score_in_unit_interval.
  intros [|[|i]] [|[|j]] x; cbn; try done; intros [= <-]; by vm_compute.
Defined.

Lemma Qmult_unit_interval (x y : Q) :
  (0 <= x)%Q → (0 <= y <= 1)%Q → (0 <= x * y <= x)%Q.
Proof.
  intros Hx [Hy0 Hy1]. split; [by apply Qmult_le_0_compat|].
  assert (Hm : (x * y <= x * 1)%Q)
    by (apply Qmult_le_compat_nonneg; split; lra).
  lra.
Qed.

Lemma rank_one_score (self : CarouselRecommendationEngine)
    (selected_ids : list string) (r : SimilarityResult)
    (duplicate_ids : gset string) (image : ImageData) :
  ranked_score (rank_one self selected_ids r duplicate_ids image)
  = ((let combined :=
        quality_weight self
        * (Quality.composite_score (quality_metrics image) / 100.0)
        + diversity_weight self
          * get_diversity_score (id image) selected_ids r in
      if bool_decide (id image ∈ duplicate_ids)
      then combined * duplicate_penalty self else combined) * 100)%Q.
Proof. reflexivity. Qed.

Lemma rank_one_image (self : CarouselRecommendationEngine)
    (selected_ids : list string) (r : SimilarityResult)
    (duplicate_ids : gset string) (image : ImageData) :
  (rank_one self selected_ids r duplicate_ids image).1.1 = image.
Proof. reflexivity. Qed.

(** X18. With non-negative weights, a duplicate penalty in [[0,1]],
    composite scores in [[0,100]] and no matrix entry above 1, every
    score produced by [_rank_remaining_images] lies between 0 and
    100 times the sum of the two weights (so between 0 and 100 for a
    new engine). *)
Theorem ranked_scores_in_range (self : CarouselRecommendationEngine)
    (images selected_images : list ImageData) (r : SimilarityResult)
    (duplicate_ids : gset string) :
  (0 <= quality_weight self)%Q → (0 <= diversity_weight self)%Q →
  (0 <= duplicate_penalty self <= 1)%Q →
  Forall (λ image,
    (0 <= Quality.composite_score (quality_metrics image) <= 100)%Q) images →
  (∀ i j x, matrix_get (similarity_matrix r) i j = Ok x → (x <= 1)%Q) →
  Forall (λ x, (0 <= ranked_score x
                <= 100 * (quality_weight self + diversity_weight self))%Q)
    (_rank_remaining_images self images selected_images r duplicate_ids).
Proof.
  intros Hq Hd Hp Hc Hentries. unfold _rank_remaining_images. cbv zeta.
  rewrite sorted_desc_Permutation. apply Forall_fmap.
  eapply Forall_impl; [exact Hc|]. intros image Himage.
  unfold compose. cbn beta in *. rewrite rank_one_score. cbv zeta.
  destruct (diversity_score_bounds (id image)
              (id <$> selected_images) r) as [Hd1 Hd0].
  specialize (Hd0 Hentries).
  set (d := get_diversity_score _ _ _) in *.
  set (c := Quality.composite_score _) in *.
  set (qw := quality_weight self) in *.
  set (dw := diversity_weight self) in *.
  set (p := duplicate_penalty self) in *.
  assert (Hc' : (c / 100.0 == c * (1 # 100))%Q)
    by (unfold Qdiv; apply Qmult_comp; [reflexivity|by vm_compute]).
  destruct Himage as [Hc0 Hc100]. destruct Hp as [Hp0 Hp1].
  assert (Hqc : (0 <= qw * (c * (1 # 100)) <= qw)%Q)
    by (apply Qmult_unit_interval; lra).
  assert (Hdd : (0 <= dw * d <= dw)%Q)
    by (apply Qmult_unit_interval; lra).
  destruct (bool_decide _); rewrite Hc'; [|lra].
  set (s := (qw * (c * (1 # 100)) + dw * d)%Q) in *.
  assert (Hs : (0 <= s <= qw + dw)%Q) by (unfold s; lra).
  assert (Hsp : (0 <= s * p <= s)%Q) by (apply Qmult_unit_interval; lra).
  lra.
Qed.

Lemma ranked_scores_in_range_witness :
  let r := mkSimilarityResult [[1; 1 # 2]; [1 # 2; 1]]%Q ["a"; "b"] [] in
  Forall (λ x, (0 <= ranked_score x <= 100 * (0.6 + 0.4))%Q)
    (_rank_remaining_images engine_init [sample_image "b" 80]
       [sample_image "a" 90] r ∅).
Proof.
  intros r.
  apply (ranked_scores_in_range engine_init [sample_image "b" 80]
           [sample_image "a" 90] r ∅).
  - by vm_compute.
  - by vm_compute.
  - split; by vm_compute.
  - repeat constructor; by vm_compute.
  - intros [|[|i]] [|[|j]] x; cbn; try done; intros [= <-]; by vm_compute.
Defined.

Lemma insert_desc_sorted {A} (key : A → Q) (x : A) (l : list A) :
  StronglySorted (λ a b, (key b <= key a)%Q) l →
  StronglySorted (λ a b, (key b <= key a)%Q) (insert_desc key x l).
Proof.
  induction l as [|y l IH]; intros Hl; cbn.
  - repeat constructor.
  - apply StronglySorted_inv in Hl as [Hl Hy].
    destruct (Qltb (key x) (key y)) eqn:E.
    + apply Qltb_lt in E. constructor; [by apply IH|].
      rewrite insert_desc_Permutation. constructor; [lra|done].
    + apply Qltb_ge in E. constructor; [by constructor|].
      constructor; [done|].
      eapply Forall_impl; [exact Hy|]. cbn. intros z Hz. lra.
Qed.

Lemma insert_desc_stable {A} (key : A → Q) (q : Q) (x : A) (l : list A) :
  filter (λ a, Qeq_bool (key a) q = true) (insert_desc key x l)
  = filter (λ a, Qeq_bool (key a) q = true) (x :: l).
Proof.
  induction l as [|y l IH]; cbn [insert_desc]; [done|].
  destruct (Qltb (key x) (key y)) eqn:E; [|done].
  apply Qltb_lt in E.
  destruct (Qeq_bool (key y) q) eqn:Ey.
  - apply Qeq_bool_iff in Ey.
    assert (Hx : Qeq_bool (key x) q ≠ true).
    { intros Hx. apply Qeq_bool_iff in Hx. lra. }
    rewrite (filter_cons_True _ y) by (by apply Qeq_bool_iff).
    rewrite IH. rewrite !(filter_cons_False _ x) by done.
    by rewrite filter_cons_True by (by apply Qeq_bool_iff).
  - rewrite (filter_cons_False _ y) by (by rewrite Ey).
    rewrite IH. destruct (Qeq_bool (key x) q) eqn:Ex.
    + rewrite !(filter_cons_True _ x) by done.
      by rewrite filter_cons_False by (by rewrite Ey).
    + rewrite !(filter_cons_False _ x) by (by rewrite Ex).
      by rewrite filter_cons_False by (by rewrite Ey).
Qed.

Lemma sorted_desc_sorted {A} (key : A → Q) (l : list A) :
  StronglySorted (λ a b, (key b <= key a)%Q) (sorted_desc key l).
Proof.
  induction l as [|x l IH]; cbn; [constructor|]. by apply insert_desc_sorted.
Qed.

Lemma sorted_desc_stable {A} (key : A → Q) (q : Q) (l : list A) :
  filter (λ a, Qeq_bool (key a) q = true) (sorted_desc key l)
  = filter (λ a, Qeq_bool (key a) q = true) l.
Proof.
  induction l as [|x l IH]; cbn [sorted_desc foldr]; [done|].
  rewrite insert_desc_stable. fold (sorted_desc key l).
  destruct (Qeq_bool (key x) q) eqn:Ex.
  - rewrite !(filter_cons_True _ x) by done. by rewrite IH.
  - rewrite !(filter_cons_False _ x) by (by rewrite Ex). done.
Qed.

(** X19. [_rank_remaining_images] returns the scored images in
    non-increasing order of score; it scores every given image once;
    and images with equal scores keep the order in which they were
    given. *)
Theorem ranking_descending_and_stable (self : CarouselRecommendationEngine)
    (images selected_images : list ImageData) (r : SimilarityResult)
    (duplicate_ids : gset string) :
  let ranked :=
    _rank_remaining_images self images selected_images r duplicate_ids in
  StronglySorted (λ a b, (ranked_score b <= ranked_score a)%Q) ranked
  ∧ (λ x, x.1.1) <$> ranked ≡ₚ images
  ∧ ∀ q, (λ x, x.1.1) <$>
           filter (λ x, Qeq_bool (ranked_score x) q = true) ranked
         = filter (λ image, Qeq_bool
                     (ranked_score (rank_one self (id <$> selected_images) r
                                      duplicate_ids image)) q = true) images.
Proof.
  cbv zeta. unfold _rank_remaining_images. cbv zeta.
  split; [apply (sorted_desc_sorted ranked_score)|]. split.
  - rewrite sorted_desc_Permutation, <- list_fmap_compose.
    induction images as [|x l IH]; [done|]. cbn. by f_equiv.
  - intros q. rewrite (sorted_desc_stable ranked_score).
    induction images as [|x l IH]; [done|]. cbn [fmap list_fmap].
    destruct (Qeq_bool (ranked_score (rank_one self (id <$> selected_images)
                r duplicate_ids x)) q) eqn:Ex.
    + rewrite !filter_cons_True by done. cbn [fmap list_fmap].
      f_equal. exact IH.
    + rewrite !filter_cons_False by (by rewrite Ex). exact IH.
Qed.

Lemma ranked_items_sorted (a : nat)
    (ranked : list (ImageData * Q * reason_text)) :
  StronglySorted (λ x y, (ranked_score y <= ranked_score x)%Q) ranked →
  StronglySorted (λ x y, (score y <= score x)%Q)
    (imap (λ i '(image, score, reason),
             mkRecommendationItem (a + i) (id image) score reason false)
          ranked).
Proof.
  intros Hs. revert a.
  induction Hs as [|[[image sc] reason] ranked _ IH Hall]; intros a;
    [constructor|].
  assert (Hext : imap ((λ i '(image, score, reason),
                  mkRecommendationItem (a + i) (id image) score reason false)
                  ∘ S) ranked
                 = imap (λ i '(image, score, reason),
                     mkRecommendationItem (S a + i) (id image) score reason false)
                     ranked).
  { apply imap_ext. intros i [[??]?] _. cbn. f_equal. lia. }
  cbn [imap]. rewrite Hext. constructor; [apply IH|].
  apply Forall_forall. intros item Hitem.
  apply list_elem_of_lookup_1 in Hitem as [i Hi].
  rewrite list_lookup_imap in Hi.
  destruct (ranked !! i) as [[[image' sc'] reason']|] eqn:Ei; [|done].
  injection Hi as <-. cbn.
  rewrite Forall_forall in Hall.
  apply (Hall (image', sc', reason')). by eapply list_elem_of_lookup_2.
Qed.

Lemma generate_recommendations_unfold (self : CarouselRecommendationEngine)
    (cosine_similarity : list ndarray → result matrix)
    (images : list ImageData) (embeddings : list ndarray) (threshold : Q) :
  (∀ es m, cosine_similarity es = Ok m → square (length es) m) →
  images ≠ [] → length embeddings = length images →
  ∃ r hero,
    analyze_similarity cosine_similarity embeddings (id <$> images) threshold
    = Ok r
    ∧ _select_hero_image images (get_duplicate_ids r) = Ok hero
    ∧ hero ∈ images
    ∧ generate_recommendations self cosine_similarity images embeddings
        threshold
      = Ok (recommendation_result
              (mkRecommendationItem 1 (id hero)
                 (Quality.composite_score (quality_metrics hero))
                 (HeroReason (_get_hero_reason hero (get_duplicate_ids r)))
                 true
               :: imap (λ i '(image, score, reason),
                          mkRecommendationItem (2 + i) (id image) score reason
                            false)
                    (_rank_remaining_images self
                       (filter (λ img, id img ≠ id hero) images) [hero] r
                       (get_duplicate_ids r)))
              r).
Proof.
  intros Hshape Hne Hlen.
  destruct (analyze_similarity_square cosine_similarity embeddings
              (id <$> images) threshold Hshape) as [r Hr];
    [by rewrite length_fmap|].
  destruct (select_hero_image_member images (get_duplicate_ids r) Hne)
    as (hero & Hsel & Hin).
  exists r, hero. split; [done|]. split; [done|]. split; [done|].
  unfold generate_recommendations.
  destruct images as [|image0 images0]; [done|].
  rewrite Hr. cbn [mbind result_bind]. rewrite Hsel. reflexivity.
Qed.

(** X20. For a non-empty batch with as many embeddings (ids may
    repeat), [generate_recommendations] lists the hero first with its
    composite score, then exactly the images whose id differs from the
    hero's, in non-increasing order of score and numbered from 2: an
    image sharing the hero's id is left out of the result. *)
Theorem recommendations_drop_hero_id_and_descend
    (self : CarouselRecommendationEngine)
    (cosine_similarity : list ndarray → result matrix)
    (images : list ImageData) (embeddings : list ndarray) (threshold : Q) :
  (∀ es m, cosine_similarity es = Ok m → square (length es) m) →
  images ≠ [] → length embeddings = length images →
  ∃ res hero hero_item rest,
    generate_recommendations self cosine_similarity images embeddings threshold
    = Ok res
    ∧ hero ∈ images
    ∧ recommendations res = hero_item :: rest
    ∧ image_id hero_item = id hero
    ∧ score hero_item = Quality.composite_score (quality_metrics hero)
    ∧ image_id <$> rest
      ≡ₚ id <$> filter (λ img, id img ≠ id hero) images
    ∧ (id hero ∉ image_id <$> rest)
    ∧ position <$> rest = seq 2 (length rest)
    ∧ StronglySorted (λ a b, (score b <= score a)%Q) rest.
Proof.
  intros Hshape Hne Hlen.
  destruct (generate_recommendations_unfold self cosine_similarity images
              embeddings threshold Hshape Hne Hlen)
    as (r & hero & _ & _ & Hin & ->).
  set (remaining := filter (λ img, id img ≠ id hero) images).
  set (ranked := _rank_remaining_images self remaining [hero] r
                   (get_duplicate_ids r)).
  destruct (ranked_positions 2 ranked) as (Hpos & _ & Hids).
  cbv zeta in Hpos, Hids.
  assert (Hperm : (λ x : ImageData * Q * reason_text, x.1.1) <$> ranked
                  ≡ₚ remaining).
  { unfold ranked, _rank_remaining_images. cbv zeta.
    rewrite sorted_desc_Permutation, <- list_fmap_compose.
    generalize remaining. intros l. induction l as [|x l IH]; [done|].
    cbn. by f_equiv. }
  assert (Hrest : image_id <$> imap (λ i '(image, score, reason),
                    mkRecommendationItem (2 + i) (id image) score reason false)
                    ranked ≡ₚ id <$> remaining).
  { rewrite Hids, <- Hperm, <- list_fmap_compose. done. }
  eexists _, hero, _, _. split; [reflexivity|]. split; [done|].
  cbn [recommendations recommendation_result].
  split; [reflexivity|]. split; [done|]. split; [done|].
  split; [exact Hrest|]. split.
  { rewrite Hrest. intros Hmem.
    apply list_elem_of_fmap in Hmem as (img & Heq & Himg).
    apply list_elem_of_filter in Himg as [Hneq _]. by apply Hneq. }
  split.
  { rewrite Hpos. by rewrite length_imap. }
  apply ranked_items_sorted.
  apply (sorted_desc_sorted ranked_score).
Qed.

Lemma recommendations_drop_hero_id_and_descend_witness :
  ∃ res,
    generate_recommendations engine_init dot_products
      [sample_image "x" 90; sample_image "x" 70; sample_image "y" 50]
      [[1; 0; 0]; [0; 1; 0]; [0; 0; 1]]%Q 0.92%Q = Ok res
    ∧ image_id <$> recommendations res = ["x"; "y"].
Proof.
  destruct (recommendations_drop_hero_id_and_descend engine_init dot_products
              [sample_image "x" 90; sample_image "x" 70; sample_image "y" 50]
              [[1; 0; 0]; [0; 1; 0]; [0; 0; 1]]%Q 0.92%Q)
    as (res & hero & h & rest & Hres & _).
  - apply dot_products_square.
  - done.
  - reflexivity.
  - exists res. split; [done|].
    vm_compute in Hres. by injection Hres as <-.
Defined.

Lemma append_if_opens (c : bool) (l : list phrase) (x q : phrase)
    (rest : list phrase) :
  l = q :: rest →
  ∃ rest', (if c then l ++ [x] else l) = q :: rest'.
Proof. intros ->. destruct c; cbn; eauto. Qed.

(** X21. The reason of a hero always opens with one of the five quality
    phrases: the closing fallback ("Best available ...") of
    [_get_hero_reason] is never produced. *)
Theorem hero_reason_opens_with_quality (hero_image : ImageData)
    (duplicate_ids : gset string) :
  ∃ q rest,
    _get_hero_reason hero_image duplicate_ids = q :: rest
    ∧ q ∈ hero_quality_phrases
    ∧ _get_hero_reason hero_image duplicate_ids ≠ [BestAvailable].
Proof.
  assert (H : ∃ q rest,
            _get_hero_reason hero_image duplicate_ids = q :: rest
            ∧ q ∈ hero_quality_phrases).
  { unfold _get_hero_reason. cbv zeta.
    destruct (Quality.resolution (quality_metrics hero_image)) as [w h].
    set (r0 := if Qleb 90 _ then _ else _).
    assert (H0 : ∃ q rest, r0 = q :: rest ∧ q ∈ hero_quality_phrases).
    { unfold r0, hero_quality_phrases.
      repeat case_match; eexists _, _; (split; [reflexivity|]);
        set_solver. }
    destruct H0 as (q & rest0 & H0 & Hq). exists q.
    destruct (append_if_opens (Qltb 500 (Quality.blur_score
                (quality_metrics hero_image))) r0 CrystalClearFocus q rest0 H0)
      as [rest1 H1].
    rewrite H1.
    destruct (append_if_opens
                (Qleb 110 (Quality.brightness (quality_metrics hero_image))
                 && Qleb (Quality.brightness (quality_metrics hero_image)) 145)
                (q :: rest1) OptimalLighting q rest1 eq_refl) as [rest2 H2].
    rewrite H2.
    destruct (append_if_opens
                (Qltb 50 (Quality.contrast (quality_metrics hero_image)))
                (q :: rest2) VibrantContrast q rest2 eq_refl) as [rest3 H3].
    rewrite H3.
    assert (H4 : ∃ rest4,
              (if (1920 <=? w)%Z && (1080 <=? h)%Z
               then (q :: rest3) ++ [PremiumResolution]
               else if (1200 <=? w)%Z && (800 <=? h)%Z
                    then (q :: rest3) ++ [HighResolution]
                    else q :: rest3) = q :: rest4).
    { repeat case_match; cbn; eauto. }
    destruct H4 as [rest4 H4]. rewrite H4.
    destruct (append_if_opens
                (bool_decide (id hero_image ∉ duplicate_ids))
                (q :: rest4) UniquePerspective q rest4 eq_refl) as [rest5 H5].
    rewrite H5.
    destruct (append_if_opens
                (Qleb 85 (Quality.composite_score (quality_metrics hero_image))
                 && Qltb 500 (Quality.blur_score (quality_metrics hero_image)))
                (q :: rest5) MaximizesConversion q rest5 eq_refl) as [rest6 H6].
    rewrite H6. eauto. }
  destruct H as (q & rest & Heq & Hq). exists q, rest.
  split; [done|]. split; [done|]. rewrite Heq. intros [= -> _].
  unfold hero_quality_phrases in Hq. set_solver.
Qed.

(** X22. Whatever sequence of successful [update_weights] and
    [set_duplicate_penalty] calls an engine has gone through, its two
    weights sum to 1.0 within 0.01 and its duplicate penalty lies in
    [[0,1]]. *)
Theorem configured_engine_invariant (self : CarouselRecommendationEngine) :
  configured self →
  (Qabs (quality_weight self + diversity_weight self - 1.0) <= 0.01)%Q
  ∧ (0 <= duplicate_penalty self <= 1)%Q.
Proof.
  induction 1 as [|self q d self' _ [IHw IHp] Hup
                  |self p self' _ [IHw IHp] Hset].
  - split; [|split]; by vm_compute.
  - unfold update_weights in Hup.
    destruct (Qltb 0.01 (Qabs (q + d - 1.0))) eqn:E; [done|].
    injection Hup as <-. cbn. apply Qltb_ge in E. done.
  - unfold set_duplicate_penalty in Hset.
    destruct (Qleb 0 p) eqn:E0; [|done]. destruct (Qleb p 1) eqn:E1; [|done].
    injection Hset as <-. cbn. apply Qleb_le in E0, E1. done.
Qed.

Lemma configured_engine_invariant_witness :
  (Qabs (0.7 + 0.3 - 1.0) <= 0.01)%Q ∧ (0 <= 0.5 <= 1)%Q.
Proof.
  apply (configured_engine_invariant (mkEngine 0.7 0.3 0.5)).
  apply (configured_penalty (mkEngine 0.7 0.3 0.3) 0.5); [|reflexivity].
  apply (configured_weights engine_init 0.7 0.3); [|reflexivity].
  apply configured_init.
Defined.

(** X23. A batch of one image with one embedding yields exactly one
    recommendation: that image as hero at position 1 with its composite
    score, reported as a unique perspective, with no duplicates. *)
Theorem single_image_is_hero (self : CarouselRecommendationEngine)
    (cosine_similarity : list ndarray → result matrix)
    (image : ImageData) (e : ndarray) (threshold : Q) :
  (∀ es m, cosine_similarity es = Ok m → square (length es) m) →
  ∃ res item reasons,
    generate_recommendations self cosine_similarity [image] [e] threshold
    = Ok res
    ∧ recommendations res = [item]
    ∧ hero_image res = Some item
    ∧ item = mkRecommendationItem 1 (id image)
               (Quality.composite_score (quality_metrics image))
               (HeroReason reasons) true
    ∧ UniquePerspective ∈ reasons
    ∧ duplicates (similarity_result res) = [].
Proof.
  intros Hshape.
  destruct (generate_recommendations_unfold self cosine_similarity [image]
              [e] threshold Hshape) as (r & hero & Hr & _ & Hin & ->);
    [done|done|].
  apply list_elem_of_singleton in Hin as ->.
  destruct (analyze_similarity_duplicates cosine_similarity [e] [id image]
              threshold Hshape eq_refl) as (d & Hr' & Hd).
  cbn [fmap list_fmap] in Hr. rewrite Hr in Hr'. injection Hr' as ->.
  assert (d = []) as ->.
  { apply elem_of_nil_inv. intros x Hx.
    apply Hd in Hx as (i & j & Hij & _). cbn in Hij. lia. }
  rewrite filter_cons_False by (intros Hneq; by apply Hneq).
  rewrite filter_nil.
  eexists _, _, _. split; [reflexivity|].
  cbn [recommendations recommendation_result hero_image similarity_result
       _rank_remaining_images fmap list_fmap sorted_desc foldr imap].
  split; [reflexivity|].
  split; [by rewrite filter_cons_True by done|].
  split; [reflexivity|]. split; [|done].
  unfold _get_hero_reason, get_duplicate_ids. cbn [duplicates foldl]. cbv zeta.
  destruct (Quality.resolution (quality_metrics image)) as [w h].
  rewrite bool_decide_true by apply not_elem_of_empty.
  match goal with
  | |- context [?R ++ [UniquePerspective]] => generalize R
  end.
  intros R. destruct (Qleb 85 _ && Qltb 500 _); destruct R; cbn;
    rewrite ?elem_of_cons, ?elem_of_app, ?elem_of_cons; auto 10.
Qed.

Lemma single_image_is_hero_witness :
  ∃ res,
    generate_recommendations engine_init dot_products [sample_image "a" 70]
      [[1; 0]]%Q 0.92%Q = Ok res
    ∧ image_id <$> recommendations res = ["a"].
Proof.
  destruct (single_image_is_hero engine_init dot_products
              (sample_image "a" 70) [1; 0]%Q 0.92%Q dot_products_square)
    as (res & item & reasons & Hres & Hrec & _ & -> & _).
  exists res. split; [done|]. by rewrite Hrec.
Defined.

End EngineMore.
